(** * ChainEscapeLite: a shallow embedding of [contracts/ChainEscapeLite.sol]

    The contract is a single-ledger state machine.  Its storage is the record
    [State]; every external function is a computation in the monad [M], which
    threads the storage and stops at the first failing [require] (or checked
    arithmetic panic).  [transact] is the ledger's view of one call: the new
    storage on success, the untouched old storage on a revert.

    Conventions.
    - [uint256] is [N] with the overflow check of Solidity 0.8 written out
      ([checked_add], [checked_sub]); [address] and [bytes32] are [N] too.
    - A Solidity [mapping] is a [gmap] read with the type's zero value as the
      default ([stats_of], [puzzle_of], [rank_of], ...).
    - Loop counters range over an array's indices, so they are [nat]; an array
      length fits a [uint256], hence [k + 1] below never overflows.
    - keccak256/abi.encodePacked and OpenZeppelin's ECDSA are imported by the
      contract, not defined by it: they are the fields of [Crypto].
    - OpenZeppelin's inherited entry points (ERC721 transfers and approvals)
      only write ERC721's own storage and are not part of the call alphabet;
      Ownable's two ownership calls are, since [onlyOwner] reads [owner]. *)

From stdpp Require Import gmap list strings.
From Stdlib Require Import NArith Lia.

Local Open Scope N_scope.

(** ** Basic types *)

Abbreviation address := N (only parsing).
Abbreviation bytes32 := N (only parsing).
Abbreviation bytes := (list Byte.byte) (only parsing).

Definition MAX_UINT256 : N := 2 ^ 256 - 1.

Inductive GameState := NOT_STARTED | ACTIVE | ENDED.

Global Instance GameState_eq_dec : EqDecision GameState.
Proof. solve_decision. Defined.

Record Puzzle := mkPuzzle {
  puzzleHash : bytes32;
  basePoints : N;
  active : bool
}.

Record PlayerStats := mkStats {
  score : N;
  puzzleIndex : N;
  claimedNFT : bool;
  isActivePlayer : bool;
  lastSolveTime : N
}.

Inductive Event :=
  | GameStarted (startTime duration : N)
  | GameEnded (endTime : N)
  | PuzzleHashSet (puzzleId : N) (h : bytes32) (points : N)
  | ResultSubmitted (player : address) (correct : bool) (newScore : N)
  | NFTClaimed (player : address) (tokenId rank : N)
  | RanksFinalized
  | Transfer (from to : address) (tokenId : N)
  | OwnershipTransferred (previousOwner newOwner : address).

(** ** Storage *)

Record State := mkState {
  (* Ownable *)
  owner : address;
  (* roles *)
  avsAddress : address;
  avsSigner : address;
  puzzleCreators : gmap N bool;
  (* game lifecycle *)
  gameState : GameState;
  gameStartTimestamp : N;
  gameDuration : N;
  (* puzzle storage *)
  puzzleCount : N;
  puzzles : gmap N Puzzle;
  (* player data *)
  allPlayers : list address;
  playerStats : gmap N PlayerStats;
  (* NFT *)
  _tokenIds : N;
  baseTokenURI : string;
  (* final ranks *)
  finalRank : gmap N N;
  (* ERC721 *)
  erc721_owners : gmap N N;
  erc721_balances : gmap N N;
  (* address(this) and the event log *)
  this : address;
  events : list Event
}.

Definition zero_puzzle : Puzzle := mkPuzzle 0 0 false.
Definition zero_stats : PlayerStats := mkStats 0 0 false false 0.

Definition is_creator (st : State) (a : address) : bool :=
  default false (puzzleCreators st !! a).
Definition puzzle_of (st : State) (id : N) : Puzzle :=
  default zero_puzzle (puzzles st !! id).
Definition stats_of (st : State) (p : address) : PlayerStats :=
  default zero_stats (playerStats st !! p).
Definition rank_of (st : State) (p : address) : N :=
  default 0 (finalRank st !! p).
Definition ownerOf (st : State) (tokenId : N) : address :=
  default 0 (erc721_owners st !! tokenId).
Definition balanceOf (st : State) (a : address) : N :=
  default 0 (erc721_balances st !! a).

(** Field updates. *)

Definition set_owner (v : address) (st : State) : State :=
  mkState v (avsAddress st) (avsSigner st) (puzzleCreators st) (gameState st)
    (gameStartTimestamp st) (gameDuration st) (puzzleCount st) (puzzles st)
    (allPlayers st) (playerStats st) (_tokenIds st) (baseTokenURI st)
    (finalRank st) (erc721_owners st) (erc721_balances st) (this st) (events st).

Definition set_avsAddress (v : address) (st : State) : State :=
  mkState (owner st) v (avsSigner st) (puzzleCreators st) (gameState st)
    (gameStartTimestamp st) (gameDuration st) (puzzleCount st) (puzzles st)
    (allPlayers st) (playerStats st) (_tokenIds st) (baseTokenURI st)
    (finalRank st) (erc721_owners st) (erc721_balances st) (this st) (events st).

Definition set_avsSigner (v : address) (st : State) : State :=
  mkState (owner st) (avsAddress st) v (puzzleCreators st) (gameState st)
    (gameStartTimestamp st) (gameDuration st) (puzzleCount st) (puzzles st)
    (allPlayers st) (playerStats st) (_tokenIds st) (baseTokenURI st)
    (finalRank st) (erc721_owners st) (erc721_balances st) (this st) (events st).

Definition set_puzzleCreators (v : gmap N bool) (st : State) : State :=
  mkState (owner st) (avsAddress st) (avsSigner st) v (gameState st)
    (gameStartTimestamp st) (gameDuration st) (puzzleCount st) (puzzles st)
    (allPlayers st) (playerStats st) (_tokenIds st) (baseTokenURI st)
    (finalRank st) (erc721_owners st) (erc721_balances st) (this st) (events st).

Definition set_gameState (v : GameState) (st : State) : State :=
  mkState (owner st) (avsAddress st) (avsSigner st) (puzzleCreators st) v
    (gameStartTimestamp st) (gameDuration st) (puzzleCount st) (puzzles st)
    (allPlayers st) (playerStats st) (_tokenIds st) (baseTokenURI st)
    (finalRank st) (erc721_owners st) (erc721_balances st) (this st) (events st).

Definition set_gameStartTimestamp (v : N) (st : State) : State :=
  mkState (owner st) (avsAddress st) (avsSigner st) (puzzleCreators st)
    (gameState st) v (gameDuration st) (puzzleCount st) (puzzles st)
    (allPlayers st) (playerStats st) (_tokenIds st) (baseTokenURI st)
    (finalRank st) (erc721_owners st) (erc721_balances st) (this st) (events st).

Definition set_gameDuration (v : N) (st : State) : State :=
  mkState (owner st) (avsAddress st) (avsSigner st) (puzzleCreators st)
    (gameState st) (gameStartTimestamp st) v (puzzleCount st) (puzzles st)
    (allPlayers st) (playerStats st) (_tokenIds st) (baseTokenURI st)
    (finalRank st) (erc721_owners st) (erc721_balances st) (this st) (events st).

Definition set_puzzleCount (v : N) (st : State) : State :=
  mkState (owner st) (avsAddress st) (avsSigner st) (puzzleCreators st)
    (gameState st) (gameStartTimestamp st) (gameDuration st) v (puzzles st)
    (allPlayers st) (playerStats st) (_tokenIds st) (baseTokenURI st)
    (finalRank st) (erc721_owners st) (erc721_balances st) (this st) (events st).

Definition set_puzzles (v : gmap N Puzzle) (st : State) : State :=
  mkState (owner st) (avsAddress st) (avsSigner st) (puzzleCreators st)
    (gameState st) (gameStartTimestamp st) (gameDuration st) (puzzleCount st) v
    (allPlayers st) (playerStats st) (_tokenIds st) (baseTokenURI st)
    (finalRank st) (erc721_owners st) (erc721_balances st) (this st) (events st).

Definition set_allPlayers (v : list address) (st : State) : State :=
  mkState (owner st) (avsAddress st) (avsSigner st) (puzzleCreators st)
    (gameState st) (gameStartTimestamp st) (gameDuration st) (puzzleCount st)
    (puzzles st) v (playerStats st) (_tokenIds st) (baseTokenURI st)
    (finalRank st) (erc721_owners st) (erc721_balances st) (this st) (events st).

Definition set_playerStats (v : gmap N PlayerStats) (st : State) : State :=
  mkState (owner st) (avsAddress st) (avsSigner st) (puzzleCreators st)
    (gameState st) (gameStartTimestamp st) (gameDuration st) (puzzleCount st)
    (puzzles st) (allPlayers st) v (_tokenIds st) (baseTokenURI st)
    (finalRank st) (erc721_owners st) (erc721_balances st) (this st) (events st).

Definition set_tokenIds (v : N) (st : State) : State :=
  mkState (owner st) (avsAddress st) (avsSigner st) (puzzleCreators st)
    (gameState st) (gameStartTimestamp st) (gameDuration st) (puzzleCount st)
    (puzzles st) (allPlayers st) (playerStats st) v (baseTokenURI st)
    (finalRank st) (erc721_owners st) (erc721_balances st) (this st) (events st).

Definition set_finalRank (v : gmap N N) (st : State) : State :=
  mkState (owner st) (avsAddress st) (avsSigner st) (puzzleCreators st)
    (gameState st) (gameStartTimestamp st) (gameDuration st) (puzzleCount st)
    (puzzles st) (allPlayers st) (playerStats st) (_tokenIds st)
    (baseTokenURI st) v (erc721_owners st) (erc721_balances st) (this st)
    (events st).

Definition set_erc721_owners (v : gmap N N) (st : State) : State :=
  mkState (owner st) (avsAddress st) (avsSigner st) (puzzleCreators st)
    (gameState st) (gameStartTimestamp st) (gameDuration st) (puzzleCount st)
    (puzzles st) (allPlayers st) (playerStats st) (_tokenIds st)
    (baseTokenURI st) (finalRank st) v (erc721_balances st) (this st)
    (events st).

Definition set_erc721_balances (v : gmap N N) (st : State) : State :=
  mkState (owner st) (avsAddress st) (avsSigner st) (puzzleCreators st)
    (gameState st) (gameStartTimestamp st) (gameDuration st) (puzzleCount st)
    (puzzles st) (allPlayers st) (playerStats st) (_tokenIds st)
    (baseTokenURI st) (finalRank st) (erc721_owners st) v (this st)
    (events st).

Definition set_events (v : list Event) (st : State) : State :=
  mkState (owner st) (avsAddress st) (avsSigner st) (puzzleCreators st)
    (gameState st) (gameStartTimestamp st) (gameDuration st) (puzzleCount st)
    (puzzles st) (allPlayers st) (playerStats st) (_tokenIds st)
    (baseTokenURI st) (finalRank st) (erc721_owners st) (erc721_balances st)
    (this st) v.

(** Writes through a [storage] reference to one player's stats. *)

Definition set_stats (p : address) (s : PlayerStats) (st : State) : State :=
  set_playerStats (<[p := s]> (playerStats st)) st.

Definition with_score (v : N) (s : PlayerStats) : PlayerStats :=
  mkStats v (puzzleIndex s) (claimedNFT s) (isActivePlayer s) (lastSolveTime s).
Definition with_puzzleIndex (v : N) (s : PlayerStats) : PlayerStats :=
  mkStats (score s) v (claimedNFT s) (isActivePlayer s) (lastSolveTime s).
Definition with_claimedNFT (v : bool) (s : PlayerStats) : PlayerStats :=
  mkStats (score s) (puzzleIndex s) v (isActivePlayer s) (lastSolveTime s).
Definition with_isActivePlayer (v : bool) (s : PlayerStats) : PlayerStats :=
  mkStats (score s) (puzzleIndex s) (claimedNFT s) v (lastSolveTime s).
Definition with_lastSolveTime (v : N) (s : PlayerStats) : PlayerStats :=
  mkStats (score s) (puzzleIndex s) (claimedNFT s) (isActivePlayer s) v.

(** ** The execution monad *)

(** A failed call: a [require]/[revert] with its reason string, or a compiler
    inserted panic (0x11 arithmetic overflow, 0x32 index out of bounds). *)
Inductive Failure :=
  | Revert (reason : string)
  | Panic (code : N).

(** Both outcomes carry the storage as it is at that point of the execution;
    discarding the storage of a failed call is the ledger's job ([transact]). *)
Inductive result (A : Type) :=
  | Ok (a : A) (st : State)
  | Fail (f : Failure) (st : State).
Arguments Ok {A} a st.
Arguments Fail {A} f st.

Definition M (A : Type) : Type := State → result A.

Global Instance M_ret : MRet M := λ A a st, Ok a st.
Global Instance M_bind : MBind M := λ A B k m st,
  match m st with
  | Ok a st' => k a st'
  | Fail f st' => Fail f st'
  end.

Definition gets {A} (f : State → A) : M A := λ st, Ok (f st) st.
Definition modify (f : State → State) : M unit := λ st, Ok tt (f st).
Definition throw {A} (f : Failure) : M A := λ st, Fail f st.

Definition require (b : bool) (reason : string) : M unit :=
  if b then mret tt else throw (Revert reason).

Definition emit (e : Event) : M unit :=
  modify (λ st, set_events (events st ++ [e]) st).

Definition checked_add (a b : N) : M N :=
  if a + b <=? MAX_UINT256 then mret (a + b) else throw (Panic 17).

Definition checked_sub (a b : N) : M N :=
  if b <=? a then mret (a - b) else throw (Panic 17).

(** [a[i]] on a memory array: panics out of range. *)
Definition index {A} (a : list A) (i : nat) : M A :=
  match a !! i with
  | Some x => mret x
  | None => throw (Panic 50)
  end.

(** [for (i = lo; i < hi; i++) body], for a bound that the body leaves alone. *)
Definition for_range {S} (lo hi : nat) (body : nat → S → S) (s : S) : S :=
  foldl (λ s i, body i s) s (seq lo (hi - lo)).

(** The environment of one call. [receiver_accepts] is the answer of
    [to.onERC721Received] during a safe mint ([true] for a plain account);
    a recipient that calls back into the contract from there is not
    modelled. *)
Record Env := mkEnv {
  msg_sender : address;
  block_timestamp : N;
  receiver_accepts : bool
}.

(** keccak256 over the packed encoding of the attested tuple, the Ethereum
    signed-message prefixing, and signer recovery ([None]: ECDSA reverts). *)
Record Crypto := mkCrypto {
  keccak256_packed : address → address → N → bool → N → bytes32;
  toEthSignedMessageHash : bytes32 → bytes32;
  recover : bytes32 → bytes → option address
}.

(** ** The contract *)

Section Contract.
Context (crypto : Crypto).

(** [constructor(_name, _symbol, _baseTokenURI)], deployed by [deployer] at
    address [self]. ERC721's name and symbol are stored by the base contract
    and never read here. *)
Definition constructor (deployer self : address) (_baseTokenURI : string) : State :=
  mkState deployer 0 0 ∅ NOT_STARTED 0 0 0 ∅ [] ∅ 0 _baseTokenURI ∅ ∅ ∅ self
    [OwnershipTransferred 0 deployer; OwnershipTransferred deployer deployer].

(** *** Modifiers *)

Definition onlyWhenActive (env : Env) : M unit :=
  gs ← gets gameState;
  require (bool_decide (gs = ACTIVE)) "Game is not active";;
  start ← gets gameStartTimestamp;
  duration ← gets gameDuration;
  deadline ← checked_add start duration;
  require (block_timestamp env <=? deadline) "Time is up".

Definition onlyPuzzleCreator (env : Env) : M unit :=
  st ← gets id;
  require (is_creator st (msg_sender env) || bool_decide (msg_sender env = owner st))
    "Not a puzzle creator nor owner".

(** Ownable's modifier. *)
Definition onlyOwner (env : Env) : M unit :=
  o ← gets owner;
  require (bool_decide (o = msg_sender env)) "Ownable: caller is not the owner".

(** *** Admin functions *)

Definition setPuzzleCreator (env : Env) (_creator : address) (_isCreator : bool) : M unit :=
  onlyOwner env;;
  modify (λ st, set_puzzleCreators (<[_creator := _isCreator]> (puzzleCreators st)) st).

Definition setAvsAddress (env : Env) (_avsAddress : address) : M unit :=
  onlyOwner env;;
  modify (set_avsAddress _avsAddress).

Definition setAvsSigner (env : Env) (_avsSigner : address) : M unit :=
  onlyOwner env;;
  modify (set_avsSigner _avsSigner).

Definition startGame (env : Env) (_durationInSeconds : N) : M unit :=
  onlyOwner env;;
  gs ← gets gameState;
  (if bool_decide (gs = ACTIVE) then throw (Revert "Game is already active") else mret tt);;
  (if bool_decide (gs = ENDED) then throw (Revert "Game has already ended") else mret tt);;
  modify (set_gameDuration _durationInSeconds);;
  modify (set_gameStartTimestamp (block_timestamp env));;
  modify (set_gameState ACTIVE);;
  emit (GameStarted (block_timestamp env) _durationInSeconds).

Definition endGame (env : Env) : M unit :=
  onlyOwner env;;
  gs ← gets gameState;
  require (bool_decide (gs = ACTIVE)) "Game not active";;
  modify (set_gameState ENDED);;
  emit (GameEnded (block_timestamp env)).

(** The ownership calls inherited from OpenZeppelin's Ownable, as the library
    documents them (the contract imports it; its source is not part of the
    repository). *)

Definition transferOwnership (env : Env) (newOwner : address) : M unit :=
  onlyOwner env;;
  require (negb (bool_decide (newOwner = 0))) "Ownable: new owner is the zero address";;
  old ← gets owner;
  modify (set_owner newOwner);;
  emit (OwnershipTransferred old newOwner).

Definition renounceOwnership (env : Env) : M unit :=
  onlyOwner env;;
  old ← gets owner;
  modify (set_owner 0);;
  emit (OwnershipTransferred old 0).

(** *** Puzzle setup *)

Definition setPuzzleHash (env : Env) (puzzleId : N) (_puzzleHash : bytes32) (_basePoints : N) : M unit :=
  onlyPuzzleCreator env;;
  modify (λ st, set_puzzles (<[puzzleId := mkPuzzle _puzzleHash _basePoints true]> (puzzles st)) st);;
  count ← gets puzzleCount;
  (if count <=? puzzleId
   then next ← checked_add puzzleId 1; modify (set_puzzleCount next)
   else mret tt);;
  emit (PuzzleHashSet puzzleId _puzzleHash _basePoints).

(** *** Off-chain verification and submit *)

Definition submitResult (env : Env) (player : address) (puzzleId : N)
    (correct : bool) (timeRemaining : N) (signature : bytes) : M unit :=
  onlyWhenActive env;;
  (* 1) the caller is the AVS transaction address *)
  avs ← gets avsAddress;
  require (bool_decide (msg_sender env = avs)) "Caller is not AVS address";;
  (* 2) the signature comes from avsSigner *)
  self ← gets this;
  let messageHash := keccak256_packed crypto self player puzzleId correct timeRemaining in
  let ethSignedHash := toEthSignedMessageHash crypto messageHash in
  (* ECDSA.recover reverts on a malformed signature *)
  recovered ← (match recover crypto ethSignedHash signature with
               | Some a => mret a
               | None => throw (Revert "ECDSA: invalid signature")
               end);
  signer ← gets avsSigner;
  require (bool_decide (recovered = signer)) "Invalid AVS signature";;
  (* 3) puzzle logic; [stats] is a storage reference to playerStats[player] *)
  first ← gets (λ st, negb (isActivePlayer (stats_of st player)));
  (if (first : bool)
   then modify (λ st, set_stats player (with_isActivePlayer true (stats_of st player)) st);;
        modify (λ st, set_allPlayers (allPlayers st ++ [player]) st)
   else mret tt);;
  expected ← gets (λ st, puzzleIndex (stats_of st player));
  require (bool_decide (puzzleId = expected)) "Wrong puzzle index";;
  puzzle ← gets (λ st, puzzle_of st puzzleId);
  require (active puzzle) "Puzzle not active";;
  (if correct
   then
     let pointsAwarded := basePoints puzzle in
     let bonus := timeRemaining / 60 in
     pointsAwarded ← checked_add pointsAwarded bonus;
     old ← gets (λ st, score (stats_of st player));
     new ← checked_add old pointsAwarded;
     modify (λ st, set_stats player (with_score new (stats_of st player)) st);;
     idx ← gets (λ st, puzzleIndex (stats_of st player));
     idx' ← checked_add idx 1;
     modify (λ st, set_stats player (with_puzzleIndex idx' (stats_of st player)) st);;
     modify (λ st, set_stats player (with_lastSolveTime (block_timestamp env) (stats_of st player)) st)
   else
     let penalty := 2 in
     old ← gets (λ st, score (stats_of st player));
     if penalty <=? old
     then new ← checked_sub old penalty;
          modify (λ st, set_stats player (with_score new (stats_of st player)) st)
     else modify (λ st, set_stats player (with_score 0 (stats_of st player)) st));;
  newScore ← gets (λ st, score (stats_of st player));
  emit (ResultSubmitted player correct newScore).

(** *** Tie-breaking and final ranks *)

Definition isBetter (st : State) (a b : address) : bool :=
  (* 1) score, descending *)
  if score (stats_of st b) <? score (stats_of st a) then true
  else if score (stats_of st a) <? score (stats_of st b) then false
  (* 2) puzzleIndex, descending *)
  else if puzzleIndex (stats_of st b) <? puzzleIndex (stats_of st a) then true
  else if puzzleIndex (stats_of st a) <? puzzleIndex (stats_of st b) then false
  (* 3) lastSolveTime, ascending *)
  else if lastSolveTime (stats_of st a) <? lastSolveTime (stats_of st b) then true
  else if lastSolveTime (stats_of st b) <? lastSolveTime (stats_of st a) then false
  (* tied *)
  else false.

Definition areTied (st : State) (a b : address) : bool :=
  (score (stats_of st a) =? score (stats_of st b))
  && (puzzleIndex (stats_of st a) =? puzzleIndex (stats_of st b))
  && (lastSolveTime (stats_of st a) =? lastSolveTime (stats_of st b)).

(** [gameState == ENDED || block.timestamp > gameStartTimestamp + gameDuration]:
    the sum is only evaluated (and overflow-checked) when the left disjunct is
    false. *)
Definition game_over (env : Env) : M bool :=
  gs ← gets gameState;
  if bool_decide (gs = ENDED) then mret true
  else
    start ← gets gameStartTimestamp;
    duration ← gets gameDuration;
    deadline ← checked_add start duration;
    mret (deadline <? block_timestamp env).

(** The copy of the roster into a fresh memory array. *)
Definition copy_players (players : list address) : list address :=
  for_range 0 (length players)
    (λ i (a : list address), <[i := default 0 (players !! i)]> a)
    (replicate (length players) 0).

(** The body of the inner sorting loop: exchange positions [i] and [j] when
    the player at [j] is better. *)
Definition exchange (st : State) (i j : nat) (a : list address) : list address :=
  match a !! j, a !! i with
  | Some pj, Some pi =>
      if isBetter st pj pi then <[j := pi]> (<[i := pj]> a) else a
  | _, _ => a
  end.

Definition sort_players (st : State) (a : list address) : list address :=
  for_range 0 (length a)
    (λ i a, for_range (i + 1) (length a) (λ j a, exchange st i j a) a) a.

(** The body of the rank loop at position [k >= 1]. *)
Definition assign_rank (sorted : list address) (k : nat) (st : State) : State :=
  match sorted !! k, sorted !! (k - 1)%nat with
  | Some pk, Some prev =>
      if areTied st pk prev
      then set_finalRank (<[pk := rank_of st prev]> (finalRank st)) st
      else set_finalRank (<[pk := N.of_nat (k + 1)]> (finalRank st)) st
  | _, _ => st
  end.

Definition finalizeRanks (env : Env) : M unit :=
  over ← game_over env;
  require over "Game not ended yet";;
  players ← gets allPlayers;
  let sortedPlayers := copy_players players in
  st ← gets id;
  let sortedPlayers := sort_players st sortedPlayers in
  (* assign ranks, competition style *)
  best ← index sortedPlayers 0;
  modify (λ st, set_finalRank (<[best := 1]> (finalRank st)) st);;
  modify (for_range 1 (length sortedPlayers) (assign_rank sortedPlayers));;
  emit RanksFinalized.

(** *** NFT claim *)

(** Modelled from the spec: OpenZeppelin's [ERC721._safeMint] is imported by
    the contract and not part of its sources. It binds a token identifier
    that does not exist yet to a non-zero recipient, and reverts when the
    recipient refuses the token. *)
Definition _safeMint (env : Env) (to : address) (tokenId : N) : M unit :=
  require (negb (bool_decide (to = 0))) "ERC721: mint to the zero address";;
  current ← gets (λ st, ownerOf st tokenId);
  require (bool_decide (current = 0)) "ERC721: token already minted";;
  bal ← gets (λ st, balanceOf st to);
  bal' ← checked_add bal 1;
  modify (λ st, set_erc721_balances (<[to := bal']> (erc721_balances st)) st);;
  modify (λ st, set_erc721_owners (<[tokenId := to]> (erc721_owners st)) st);;
  emit (Transfer 0 to tokenId);;
  require (receiver_accepts env) "ERC721: transfer to non ERC721Receiver implementer".

Definition claimNFT (env : Env) : M unit :=
  over ← game_over env;
  require over "Game not ended yet";;
  rank ← gets (λ st, rank_of st (msg_sender env));
  require (0 <? rank) "Rank not assigned yet. finalizeRanks first.";;
  claimed ← gets (λ st, claimedNFT (stats_of st (msg_sender env)));
  require (negb claimed) "Already claimed NFT";;
  modify (λ st, set_stats (msg_sender env) (with_claimedNFT true (stats_of st (msg_sender env))) st);;
  old ← gets _tokenIds;
  newTokenId ← checked_add old 1;
  modify (set_tokenIds newTokenId);;
  _safeMint env (msg_sender env) newTokenId;;
  rank ← gets (λ st, rank_of st (msg_sender env));
  emit (NFTClaimed (msg_sender env) newTokenId rank).

(** *** View functions *)

Definition _baseURI (st : State) : string := baseTokenURI st.

Definition getPlayerCount (st : State) : N := N.of_nat (length (allPlayers st)).

Definition timeLeft (env : Env) : M N :=
  gs ← gets gameState;
  if negb (bool_decide (gs = ACTIVE)) then mret 0
  else
    start ← gets gameStartTimestamp;
    duration ← gets gameDuration;
    endTime ← checked_add start duration;
    if endTime <=? block_timestamp env then mret 0
    else checked_sub endTime (block_timestamp env).

(** *** Transactions *)

Inductive Call :=
  | SetPuzzleCreator (_creator : address) (_isCreator : bool)
  | SetAvsAddress (_avsAddress : address)
  | SetAvsSigner (_avsSigner : address)
  | StartGame (_durationInSeconds : N)
  | EndGame
  | TransferOwnership (newOwner : address)
  | RenounceOwnership
  | SetPuzzleHash (puzzleId : N) (_puzzleHash : bytes32) (_basePoints : N)
  | SubmitResult (player : address) (puzzleId : N) (correct : bool)
      (timeRemaining : N) (signature : bytes)
  | FinalizeRanks
  | ClaimNFT.

Definition dispatch (env : Env) (c : Call) : M unit :=
  match c with
  | SetPuzzleCreator a b => setPuzzleCreator env a b
  | SetAvsAddress a => setAvsAddress env a
  | SetAvsSigner a => setAvsSigner env a
  | StartGame d => startGame env d
  | EndGame => endGame env
  | TransferOwnership a => transferOwnership env a
  | RenounceOwnership => renounceOwnership env
  | SetPuzzleHash i h p => setPuzzleHash env i h p
  | SubmitResult p i c t s => submitResult env p i c t s
  | FinalizeRanks => finalizeRanks env
  | ClaimNFT => claimNFT env
  end.

Inductive Receipt :=
  | Success
  | Reverted (f : Failure).

(** One call as the ledger applies it: all of its writes, or none. *)
Definition transact (env : Env) (st : State) (c : Call) : State * Receipt :=
  match dispatch env c st with
  | Ok _ st' => (st', Success)
  | Fail f _ => (st, Reverted f)
  end.

(** A history of calls, applied in order. *)
Definition execute (st : State) (txs : list (Env * Call)) : State :=
  foldl (λ st tx, (transact tx.1 st tx.2).1) st txs.

End Contract.

(** ** A small instance for concrete runs

    A stand-in for the cryptographic primitives, used only to evaluate the
    contract on explicit inputs: a signature is the signer's one-byte address
    followed by the low byte of the signed hash. *)

Definition demo_keccak (self player puzzleId : N) (correct : bool) (timeRemaining : N) : N :=
  (self + 3 * player + 5 * puzzleId + (if correct then 7 else 0) + 11 * timeRemaining)
    mod 2 ^ 256.

Definition demo_prefix (h : N) : N := (h + 1) mod 2 ^ 256.

Definition demo_byte (n : N) : Byte.byte := default Byte.x00 (Byte.of_N (n mod 256)).

Definition demo_recover (h : N) (sig : list Byte.byte) : option N :=
  match sig with
  | [s; c] =>
      if Byte.to_N c =? h mod 256 then Some (Byte.to_N s) else Some (Byte.to_N s + 256)
  | _ => None
  end.

Definition demo_crypto : Crypto := mkCrypto demo_keccak demo_prefix demo_recover.

Definition demo_sign (key self player puzzleId : N) (correct : bool) (timeRemaining : N)
    : list Byte.byte :=
  [demo_byte key;
   demo_byte (demo_prefix (demo_keccak self player puzzleId correct timeRemaining))].

(** Actors: the owner 1, the relay 2, the judge key 3, players 10, 11, 12;
    the contract lives at 100. *)
Definition at_time (sender t : N) : Env := mkEnv sender t true.

Definition demo_submit (t player puzzleId : N) (correct : bool) (timeRemaining : N)
    : Env * Call :=
  (at_time 2 t,
   SubmitResult player puzzleId correct timeRemaining
     (demo_sign 3 100 player puzzleId correct timeRemaining)).

Definition demo_init : State := constructor 1 100 "https://my-base-uri/".

Definition demo_setup : list (Env * Call) :=
  [(at_time 1 1000, SetAvsAddress 2);
   (at_time 1 1000, SetAvsSigner 3);
   (at_time 1 1000, SetPuzzleHash 0 77 10);
   (at_time 1 1000, StartGame 300)].

(** Players 10 and 11 solve puzzle 0 in the same block, player 12 later. *)
Definition demo_play : list (Env * Call) :=
  [demo_submit 1010 10 0 true 100;
   demo_submit 1010 11 0 true 80;
   demo_submit 1020 12 0 true 100].

Definition demo_finish : list (Env * Call) :=
  [(at_time 1 1100, EndGame); (at_time 50 1200, FinalizeRanks)].

Definition demo_started : State := execute demo_crypto demo_init demo_setup.

Definition demo_first_solve : State :=
  execute demo_crypto demo_started [demo_submit 1010 10 0 true 100].

Definition demo_first_miss : State :=
  execute demo_crypto demo_started [demo_submit 1010 11 0 false 50].

Definition demo_played : State := execute demo_crypto demo_started demo_play.

Definition demo_ended : State :=
  execute demo_crypto demo_played [(at_time 1 1100, EndGame)].

Definition demo_ranked : State :=
  execute demo_crypto demo_init (demo_setup ++ demo_play ++ demo_finish).

Definition demo_claimed : State :=
  execute demo_crypto demo_ranked [(at_time 10 1300, ClaimNFT)].

(** The same history, split at the call that sets puzzle 0. *)
Definition demo_configured : State :=
  execute demo_crypto demo_init
    [(at_time 1 1000, SetAvsAddress 2); (at_time 1 1000, SetAvsSigner 3)].

Definition demo_puzzle_set : State :=
  execute demo_crypto demo_configured [(at_time 1 1000, SetPuzzleHash 0 77 10)].

Definition demo_rest : list (Env * Call) :=
  (at_time 1 1000, StartGame 300)
  :: demo_play ++ demo_finish ++ [(at_time 10 1300, ClaimNFT)].

(** A game started without any puzzle. *)
Definition demo_unset : list (Env * Call) :=
  [(at_time 1 1000, SetAvsAddress 2);
   (at_time 1 1000, SetAvsSigner 3);
   (at_time 1 1000, StartGame 300)].

(** ** Vocabulary of the specification *)

Section Vocabulary.
Context (crypto : Crypto).

(** The digest the judge signs for one attestation. *)
Definition attested (st : State) (player puzzleId : N) (correct : bool)
    (timeRemaining : N) : N :=
  toEthSignedMessageHash crypto
    (keccak256_packed crypto (this st) player puzzleId correct timeRemaining).

(** The stats a successful submission leaves behind. *)
Definition scored (now : N) (pz : Puzzle) (correct : bool) (timeRemaining : N)
    (s : PlayerStats) : PlayerStats :=
  if correct
  then mkStats (score s + (basePoints pz + timeRemaining / 60)) (puzzleIndex s + 1)
         (claimedNFT s) true now
  else mkStats (score s - 2) (puzzleIndex s) (claimedNFT s) true (lastSolveTime s).

(** The finalize/claim guard: the game was ended, or its deadline has passed. *)
Definition ended_or_expired (env : Env) (st : State) : Prop :=
  gameState st = ENDED
  ∨ (gameStartTimestamp st + gameDuration st ≤ MAX_UINT256
     ∧ gameStartTimestamp st + gameDuration st < block_timestamp env).

(** The submission guard of [onlyWhenActive]. *)
Definition active_in_time (env : Env) (st : State) : Prop :=
  gameState st = ACTIVE
  ∧ gameStartTimestamp st + gameDuration st ≤ MAX_UINT256
  ∧ block_timestamp env ≤ gameStartTimestamp st + gameDuration st.

(** The memory array [finalizeRanks] assigns ranks over. *)
Definition sorted_roster (st : State) : list address :=
  sort_players st (copy_players (allPlayers st)).

(** A roster array in which no later player is better than an earlier one. *)
Definition sorted_by (st : State) (a : list N) : Prop :=
  ∀ p q x y, (p < q)%nat → a !! p = Some x → a !! q = Some y → isBetter st y x = false.

(** Invariants of the exchange sort: the positions before [i] are final, and
    position [i] holds the best player seen among the positions before [j]. *)
Definition prefix_sorted (st : State) (i : nat) (a : list N) : Prop :=
  ∀ p q x y, (p < i)%nat → (p < q)%nat →
    a !! p = Some x → a !! q = Some y → isBetter st y x = false.

Definition pivot_leads (st : State) (i j : nat) (a : list N) : Prop :=
  ∀ q x y, (i < q < j)%nat →
    a !! i = Some x → a !! q = Some y → isBetter st y x = false.

(** The competition rank of position [k] of a sorted array. *)
Fixpoint position_rank (st : State) (sorted : list N) (k : nat) : N :=
  match k with
  | O => 1
  | S k' =>
      match sorted !! k, sorted !! k' with
      | Some pk, Some prev =>
          if areTied st pk prev then position_rank st sorted k' else N.of_nat (k + 1)
      | _, _ => 0
      end
  end.

(** Storage that differs from [st] in the finalRank mapping only. *)
Definition only_ranks_differ (st s : State) : Prop :=
  s = set_finalRank (finalRank s) st.

(** Invariant of the rank loop before position [k]. *)
Definition ranks_written (st : State) (sorted : list N) (k : nat) (s : State) : Prop :=
  only_ranks_differ st s
  ∧ (∀ p, sorted !! (k - 1)%nat = Some p →
       finalRank s !! p = Some (position_rank st sorted (k - 1)))
  ∧ (∀ j p, (j < k)%nat → sorted !! j = Some p →
       ∃ j', (j' < k)%nat ∧ sorted !! j' = Some p
             ∧ finalRank s !! p = Some (position_rank st sorted j'))
  ∧ (∀ p, (∀ j, (j < k)%nat → sorted !! j ≠ Some p) →
       finalRank s !! p = finalRank st !! p).

(** The storage after the rank loop of [finalizeRanks]. *)
Definition ranked (st : State) (best : address) : State :=
  for_range 1 (length (sorted_roster st)) (assign_rank (sorted_roster st))
    (set_finalRank (<[best := 1]> (finalRank st)) st).

(** What a successful call leaves in the storage, call by call. *)
Definition call_effect (env : Env) (st : State) (c : Call) (st' : State) : Prop :=
  match c with
  | SetPuzzleCreator a b =>
      st' = set_puzzleCreators (<[a := b]> (puzzleCreators st)) st
  | SetAvsAddress a => st' = set_avsAddress a st
  | SetAvsSigner a => st' = set_avsSigner a st
  | StartGame d =>
      gameState st = NOT_STARTED
      ∧ st' = set_events (events st ++ [GameStarted (block_timestamp env) d])
                (set_gameState ACTIVE
                   (set_gameStartTimestamp (block_timestamp env) (set_gameDuration d st)))
  | EndGame =>
      gameState st = ACTIVE
      ∧ st' = set_events (events st ++ [GameEnded (block_timestamp env)])
                (set_gameState ENDED st)
  | TransferOwnership a =>
      st' = set_events (events st ++ [OwnershipTransferred (owner st) a]) (set_owner a st)
  | RenounceOwnership =>
      st' = set_events (events st ++ [OwnershipTransferred (owner st) 0]) (set_owner 0 st)
  | SetPuzzleHash i h p =>
      ∃ count,
        st' = set_events (events st ++ [PuzzleHashSet i h p])
                (set_puzzleCount count
                   (set_puzzles (<[i := mkPuzzle h p true]> (puzzles st)) st))
  | SubmitResult player i correct t sig =>
      active_in_time env st
      ∧ ∃ s e,
          st' = set_events (events st ++ [ResultSubmitted player correct e])
                  (set_allPlayers
                     (if isActivePlayer (stats_of st player)
                      then allPlayers st else allPlayers st ++ [player])
                     (set_playerStats (<[player := s]> (playerStats st)) st))
          ∧ claimedNFT s = claimedNFT (stats_of st player)
  | FinalizeRanks =>
      ended_or_expired env st
      ∧ ∃ best, sorted_roster st !! 0%nat = Some best
        ∧ st' = set_events (events st ++ [RanksFinalized])
                  (set_finalRank (finalRank (ranked st best)) st)
        ∧ (∀ j p, sorted_roster st !! j = Some p →
             finalRank st' !! p = Some (position_rank st (sorted_roster st) j))
        ∧ (∀ p, p ∉ allPlayers st → finalRank st' !! p = finalRank st !! p)
  | ClaimNFT =>
      let me := msg_sender env in
      let newTokenId := _tokenIds st + 1 in
      ended_or_expired env st
      ∧ 0 < rank_of st me
      ∧ claimedNFT (stats_of st me) = false
      ∧ ownerOf st newTokenId = 0
      ∧ st' =
          set_events
            (events st ++ [Transfer 0 me newTokenId; NFTClaimed me newTokenId (rank_of st me)])
            (set_erc721_owners (<[newTokenId := me]> (erc721_owners st))
               (set_erc721_balances (<[me := balanceOf st me + 1]> (erc721_balances st))
                  (set_tokenIds newTokenId
                     (set_playerStats
                        (<[me := with_claimedNFT true (stats_of st me)]> (playerStats st))
                        st))))
  end.

(** Every token that exists, and every token a claim event reports, was
    numbered by the counter. *)
Definition tokens_counted (st : State) : Prop :=
  (∀ i, ownerOf st i ≠ 0 → 1 ≤ i ≤ _tokenIds st)
  ∧ (∀ p i r, NFTClaimed p i r ∈ events st → 1 ≤ i ≤ _tokenIds st).

(** Before the game starts nobody is on the roster and nobody is ranked. *)
Definition idle_until_started (st : State) : Prop :=
  gameState st = NOT_STARTED → allPlayers st = [] ∧ finalRank st = ∅.

(** Every entry of the puzzle table is an active puzzle. *)
Definition all_set_active (st : State) : Prop :=
  ∀ i pz, puzzles st !! i = Some pz → active pz = true.

(** States the deployed contract can be in. *)
Definition reachable (st : State) : Prop :=
  ∃ deployer self uri txs, st = execute crypto (constructor deployer self uri) txs.

End Vocabulary.

(** ** Further vocabulary: access, invariants of the reachable states *)

(** The order of the lifecycle. *)
Definition phase (g : GameState) : nat :=
  match g with NOT_STARTED => 0 | ACTIVE => 1 | ENDED => 2 end.

(** The access check at the head of each entry point. *)
Definition call_guard (env : Env) (st : State) (c : Call) : Prop :=
  match c with
  | SetPuzzleHash _ _ _ =>
      is_creator st (msg_sender env) = true ∨ msg_sender env = owner st
  | SubmitResult _ _ _ _ _ => msg_sender env = avsAddress st
  | FinalizeRanks | ClaimNFT => True
  | _ => msg_sender env = owner st
  end.

(** A player's standing: the three values the ranking compares. *)
Definition standing (st : State) (p : address) : N * N * N :=
  (score (stats_of st p), puzzleIndex (stats_of st p), lastSolveTime (stats_of st p)).

(** The puzzle count is one past the largest id ever set. *)
Definition count_covers_puzzles (st : State) : Prop :=
  puzzleCount st ≤ MAX_UINT256
  ∧ (∀ i, is_Some (puzzles st !! i) → i < puzzleCount st)
  ∧ (puzzleCount st = 0 ∨ is_Some (puzzles st !! (puzzleCount st - 1))).

(** The roster lists, once each, exactly the players marked active; nobody
    else has stats or a rank. *)
Definition roster_is_exact (st : State) : Prop :=
  NoDup (allPlayers st)
  ∧ (∀ p, p ∈ allPlayers st ↔ isActivePlayer (stats_of st p) = true)
  ∧ (∀ p, p ∉ allPlayers st → playerStats st !! p = None ∧ finalRank st !! p = None).

(** Every puzzle a player has passed is an active entry of the registry. *)
Definition passed_puzzles_active (st : State) : Prop :=
  ∀ p i, i < puzzleIndex (stats_of st p) → active (puzzle_of st i) = true.

(** Recorded solve times do not pass the deadline; before the start there
    are no stats at all. *)
Definition solves_before_deadline (st : State) : Prop :=
  (gameState st = NOT_STARTED → playerStats st = ∅)
  ∧ ∀ p, lastSolveTime (stats_of st p) ≤ gameStartTimestamp st + gameDuration st.

(** The token ids in use are exactly 1 .. _tokenIds, and whoever has claimed
    is a ranked player. *)
Definition tokens_are_sequential (st : State) : Prop :=
  (∀ i, ownerOf st i ≠ 0 ↔ 1 ≤ i ≤ _tokenIds st)
  ∧ (∀ p, claimedNFT (stats_of st p) = true → 0 < rank_of st p).

(** ** Further runs of the demo game *)

(** The owner raises the base points of puzzle 0 during the game, and
    player 10 solves it afterwards. *)
Definition demo_repriced : State :=
  execute demo_crypto demo_started [(at_time 1 1005, SetPuzzleHash 0 77 50)].

Definition demo_repriced_solve : State :=
  execute demo_crypto demo_repriced [demo_submit 1010 10 0 true 100].

(** A second puzzle is set during the game; player 10, who holds 11 points
    for puzzle 0, then gives a wrong answer to it. *)
Definition demo_second_puzzle : State :=
  execute demo_crypto demo_first_solve [(at_time 1 1015, SetPuzzleHash 1 78 20)].

Definition demo_second_miss : State :=
  execute demo_crypto demo_second_puzzle [demo_submit 1020 10 1 false 40].

(** A game started with a duration that pushes the deadline past the
    largest [uint256]. *)
Definition demo_endless : State :=
  execute demo_crypto demo_puzzle_set [(at_time 1 1000, StartGame MAX_UINT256)].

(** The owner makes address 7 a puzzle creator. *)
Definition demo_creator : State :=
  execute demo_crypto demo_init [(at_time 1 1000, SetPuzzleCreator 7 true)].

(** ** The answer judge of the game server

    The server's [/api/checkAnswer] endpoint and its three helpers.  A
    JavaScript string is modelled as the list of its code units, for strings
    whose code units are all below 256 (Latin-1): a character is its code.
    Strings with larger code units are outside the model (lower-casing can
    turn some of them into ASCII letters).  The request body is read at the
    types the handler uses its fields at: a field is absent ([None]) or a
    string, the puzzle id is absent or a number. *)

Abbreviation char := Ascii.ascii (only parsing).

Definition str (s : string) : list char := String.list_ascii_of_string s.

Definition char_code (c : char) : N := Ascii.N_of_ascii c.

Definition in_range (lo hi : N) (c : char) : bool :=
  (lo <=? char_code c) && (char_code c <=? hi).

(** The classes [0-9], [a-z] and [A-Z]. *)
Definition is_digit (c : char) : bool := in_range 48 57 c.
Definition is_lower (c : char) : bool := in_range 97 122 c.
Definition is_upper (c : char) : bool := in_range 65 90 c.

(** [String.prototype.toLowerCase] below 256: the letters A-Z and the
    accented capitals 192-222, the sign 215 apart, move up by 32. *)
Definition lower_char (c : char) : char :=
  if is_upper c || (in_range 192 222 c && negb (char_code c =? 215))
  then Ascii.ascii_of_N (char_code c + 32)
  else c.

Definition toLowerCase (s : list char) : list char := map lower_char s.

(** The class of [/[^a-z0-9]/gi] before negation: with the [i] flag a letter
    of either case belongs to [a-z]. *)
Definition is_alnum (c : char) : bool := is_lower c || is_upper c || is_digit c.

Definition remove_non_alnum (s : list char) : list char :=
  filter (λ c, is_alnum c = true) s.

(** [\s] below 256: TAB, LF, VT, FF, CR, SPACE and NBSP. *)
Definition is_space (c : char) : bool :=
  bool_decide (char_code c ∈ [9; 10; 11; 12; 13; 32; 160]).

Definition SPACE : char := Ascii.ascii_of_N 32.

(** [.replace(/\s+/g, ' ')]: every maximal run of white space becomes one
    space; [in_run] tells that the previous character was white space. *)
Fixpoint collapse_spaces (in_run : bool) (s : list char) : list char :=
  match s with
  | [] => []
  | c :: r =>
      if is_space c
      then if in_run then collapse_spaces true r else SPACE :: collapse_spaces true r
      else c :: collapse_spaces false r
  end.

Fixpoint trim_start (s : list char) : list char :=
  match s with
  | [] => []
  | c :: r => if is_space c then trim_start r else s
  end.

(** [.trim()]: the white space at both ends goes. *)
Definition trim (s : list char) : list char :=
  reverse (trim_start (reverse (trim_start s))).

Definition normalizeAnswer (input : list char) : list char :=
  trim (collapse_spaces false (remove_non_alnum (toLowerCase input))).

Definition extractNumbers (s : list char) : list char :=
  filter (λ c, is_digit c = true) s.

Definition isNumericMatch (guess solution : list char) : bool :=
  let guessNums := extractNumbers guess in
  let solutionNums := extractNumbers solution in
  negb (bool_decide (guessNums = [])) && bool_decide (guessNums = solutionNums).

Definition numberWords : list (list char * list char) :=
  [(str "zero", str "0"); (str "one", str "1"); (str "two", str "2");
   (str "three", str "3"); (str "four", str "4"); (str "five", str "5");
   (str "six", str "6"); (str "seven", str "7"); (str "eight", str "8");
   (str "nine", str "9"); (str "ten", str "10"); (str "eleven", str "11");
   (str "twelve", str "12"); (str "thirteen", str "13"); (str "fourteen", str "14");
   (str "fifteen", str "15"); (str "sixteen", str "16"); (str "seventeen", str "17");
   (str "eighteen", str "18"); (str "nineteen", str "19"); (str "twenty", str "20");
   (str "thirty", str "30"); (str "forty", str "40"); (str "fifty", str "50");
   (str "sixty", str "60"); (str "seventy", str "70"); (str "eighty", str "80");
   (str "ninety", str "90")].

(** [numberWords[key]] *)
Fixpoint number_of (table : list (list char * list char)) (key : list char)
    : option (list char) :=
  match table with
  | [] => None
  | (k, v) :: rest => if bool_decide (k = key) then Some v else number_of rest key
  end.

(** [\w], the characters of a word: letters, digits and the underscore. *)
Definition is_word (c : char) : bool := is_alnum c || (char_code c =? 95).

(** The replacement callback, applied to a whole word.  Every alternative of
    the pattern starts and ends with a letter, so the leading [\b] holds only
    where a run of word characters starts and the trailing [\b] only where
    it ends; the alternatives are tried in turn until the trailing [\b]
    holds.  Hence the matches are the maximal runs of word characters that
    spell, in any case, one of the number words. *)
Definition replace_word (w : list char) : list char :=
  default w (number_of numberWords (toLowerCase w)).

(** [str.replace(/\b(zero|...|ninety)\b/gi, ...)], scanning from the left;
    [word] is the run of word characters read since the last boundary. *)
Fixpoint replace_words (word s : list char) : list char :=
  match s with
  | [] => replace_word word
  | c :: r =>
      if is_word c then replace_words (word ++ [c]) r
      else replace_word word ++ c :: replace_words [] r
  end.

Definition wordsToNumbers (s : list char) : list char := replace_words [] s.

Record Reply := mkReply { reply_correct : bool; reply_message : list char }.

(** The handler of [/api/checkAnswer]: [!x] holds of an absent field and of
    the empty string. *)
Definition checkAnswer (puzzleSolutions : gmap N (list char))
    (username : option (list char)) (puzzleId : option N)
    (userGuess : option (list char)) : Reply :=
  match username, puzzleId, userGuess with
  | Some (_ :: _), Some id, Some ((_ :: _) as guess) =>
      match puzzleSolutions !! id with
      | Some ((_ :: _) as correctSolution) =>
          let cleanGuess := normalizeAnswer (wordsToNumbers guess) in
          let cleanSolution := normalizeAnswer (wordsToNumbers correctSolution) in
          let isCorrect := bool_decide (cleanGuess = cleanSolution) in
          let isCorrect :=
            if negb isCorrect && isNumericMatch cleanGuess cleanSolution
            then true else isCorrect in
          if isCorrect then mkReply true (str "Nice job!")
          else mkReply false
                 (str "Try again. Need: " ++ correctSolution
                  ++ str " (You said: " ++ guess ++ str ")")
      | _ => mkReply false (str "Puzzle not found.")
      end
  | _, _, _ => mkReply false (str "Missing fields.")
  end.

(** ** Reasoning about [M] *)

Lemma bind_Ok {A B} (m : M A) (k : A → M B) st b st' :
  (m ≫= k) st = Ok b st' ↔ ∃ a st1, m st = Ok a st1 ∧ k a st1 = Ok b st'.
Proof.
  unfold mbind, M_bind. split.
  - destruct (m st) as [a st1|f st1]; [eauto | discriminate].
  - intros (a & st1 & -> & H). exact H.
Qed.

Lemma bind_Ok_l {A B} (m : M A) (k : A → M B) st a st1 :
  m st = Ok a st1 → (m ≫= k) st = k a st1.
Proof. unfold mbind, M_bind. by intros ->. Qed.

Lemma gets_Ok {A} (f : State → A) st a st' :
  gets f st = Ok a st' ↔ a = f st ∧ st' = st.
Proof. unfold gets. split; [by inversion 1 | by intros [-> ->]]. Qed.

Lemma modify_Ok (f : State → State) st u st' :
  modify f st = Ok u st' ↔ st' = f st.
Proof. unfold modify. destruct u. split; [by inversion 1 | by intros ->]. Qed.

Lemma mret_Ok {A} (x a : A) st st' :
  (mret x : M A) st = Ok a st' ↔ a = x ∧ st' = st.
Proof. unfold mret, M_ret. split; [by inversion 1 | by intros [-> ->]]. Qed.

Lemma throw_Ok {A} f st (a : A) st' : throw f st = Ok a st' ↔ False.
Proof. unfold throw. split; [discriminate | done]. Qed.

Lemma require_Ok b reason st u st' :
  require b reason st = Ok u st' ↔ b = true ∧ st' = st.
Proof.
  unfold require. destruct b, u; cbn; split.
  - by inversion 1.
  - by intros [_ ->].
  - discriminate.
  - by intros [? _].
Qed.

Lemma emit_Ok e st u st' :
  emit e st = Ok u st' ↔ st' = set_events (events st ++ [e]) st.
Proof. unfold emit. by rewrite modify_Ok. Qed.

Lemma checked_add_Ok a b st c st' :
  checked_add a b st = Ok c st' ↔ a + b ≤ MAX_UINT256 ∧ c = a + b ∧ st' = st.
Proof.
  unfold checked_add. destruct (N.leb_spec (a + b) MAX_UINT256); cbn.
  - split; [by inversion 1 | by intros (_ & -> & ->)].
  - split; [discriminate | lia].
Qed.

Lemma checked_sub_Ok a b st c st' :
  checked_sub a b st = Ok c st' ↔ b ≤ a ∧ c = a - b ∧ st' = st.
Proof.
  unfold checked_sub. destruct (N.leb_spec b a); cbn.
  - split; [by inversion 1 | by intros (_ & -> & ->)].
  - split; [discriminate | lia].
Qed.

Lemma index_Ok {A} (a : list A) i st x st' :
  index a i st = Ok x st' ↔ a !! i = Some x ∧ st' = st.
Proof.
  unfold index. destruct (a !! i); cbn.
  - split; [by inversion 1 | by intros [[= ->] ->]].
  - split; [discriminate | by intros [? _]].
Qed.

(** Successful runs are taken apart one statement at a time. *)
Ltac minv_step :=
  match goal with
  | H : mbind _ _ _ = Ok _ _ |- _ =>
      apply bind_Ok in H as (? & ? & ? & H); cbv beta in H
  | H : gets _ _ = Ok _ _ |- _ => apply gets_Ok in H as [? ?]; subst
  | H : modify _ _ = Ok _ _ |- _ => apply modify_Ok in H; subst
  | H : emit _ _ = Ok _ _ |- _ => apply emit_Ok in H; subst
  | H : require _ _ _ = Ok _ _ |- _ => apply require_Ok in H as [? ?]; subst
  | H : mret _ _ = Ok _ _ |- _ => apply mret_Ok in H as [? ?]; subst
  | H : throw _ _ = Ok _ _ |- _ => by apply throw_Ok in H
  | H : checked_add _ _ _ = Ok _ _ |- _ =>
      apply checked_add_Ok in H as (? & ? & ?); subst
  | H : checked_sub _ _ _ = Ok _ _ |- _ =>
      apply checked_sub_Ok in H as (? & ? & ?); subst
  | H : index _ _ _ = Ok _ _ |- _ => apply index_Ok in H as [? ?]; subst
  | H : (if ?b then _ else _) _ = Ok _ _ |- _ => destruct b eqn:?
  | H : (match ?o with Some _ => _ | None => _ end) _ = Ok _ _ |- _ =>
      destruct o eqn:?
  end.
Ltac minv := repeat minv_step.

Lemma transact_Success (crypto : Crypto) env st c st' :
  transact crypto env st c = (st', Success) ↔ dispatch crypto env c st = Ok tt st'.
Proof.
  unfold transact. destruct (dispatch crypto env c st) as [[] s|f s]; split;
    intros [=]; by subst.
Qed.

Lemma transact_Reverted (crypto : Crypto) env st c st' f :
  transact crypto env st c = (st', Reverted f) ↔
  st' = st ∧ ∃ mid, dispatch crypto env c st = Fail f mid.
Proof.
  unfold transact. destruct (dispatch crypto env c st) as [[] s|f' s]; split.
  - discriminate.
  - by intros [_ [? ?]].
  - intros [= -> ->]. eauto.
  - by intros [-> [? [= -> _]]].
Qed.


(** Normalisation of storage expressions, once the record is destructed. *)
Ltac unfold_views :=
  unfold stats_of, puzzle_of, rank_of, ownerOf, balanceOf, is_creator, set_stats in *.
Ltac st_cbv :=
  cbv [set_owner set_avsAddress set_avsSigner set_puzzleCreators
       set_gameState set_gameStartTimestamp set_gameDuration set_puzzleCount
       set_puzzles set_allPlayers set_playerStats set_tokenIds set_finalRank
       set_erc721_owners set_erc721_balances set_events
       owner avsAddress avsSigner puzzleCreators gameState gameStartTimestamp
       gameDuration puzzleCount puzzles allPlayers playerStats _tokenIds
       baseTokenURI finalRank erc721_owners erc721_balances this events] in *.
Ltac st_norm :=
  unfold_views; st_cbv;
  rewrite ?lookup_insert_eq, ?insert_insert_eq in *; simpl in *.
Ltac case_lookups :=
  repeat match goal with
  | |- context [default _ (?m !! ?k)] =>
      let o := fresh "o" in
      set (o := m !! k) in *; clearbody o; destruct o as [[]|]; simpl in *
  | H : context [default _ (?m !! ?k)] |- _ =>
      let o := fresh "o" in
      set (o := m !! k) in *; clearbody o; destruct o as [[]|]; simpl in *
  end.
Ltac bool_props :=
  repeat match goal with
  | H : bool_decide _ = true |- _ => apply bool_decide_eq_true in H
  | H : bool_decide _ = false |- _ => apply bool_decide_eq_false in H
  | H : negb _ = true |- _ => apply negb_true_iff in H
  | H : negb _ = false |- _ => apply negb_false_iff in H
  | H : (_ <=? _) = true |- _ => apply N.leb_le in H
  | H : (_ <=? _) = false |- _ => apply N.leb_gt in H
  | H : (_ <? _) = true |- _ => apply N.ltb_lt in H
  | H : (_ <? _) = false |- _ => apply N.ltb_ge in H
  | H : (_ || _) = true |- _ => apply orb_true_iff in H
  end.

(** ** Single calls *)

Section Calls.
Context (crypto : Crypto).

Lemma submitResult_Ok env st player puzzleId correct timeRemaining signature st' :
  submitResult crypto env player puzzleId correct timeRemaining signature st = Ok tt st' →
  active_in_time env st
  ∧ msg_sender env = avsAddress st
  ∧ recover crypto (attested crypto st player puzzleId correct timeRemaining) signature
    = Some (avsSigner st)
  ∧ puzzleId = puzzleIndex (stats_of st player)
  ∧ active (puzzle_of st puzzleId) = true
  ∧ st' =
      set_events
        (events st ++
         [ResultSubmitted player correct
            (score (scored (block_timestamp env) (puzzle_of st puzzleId) correct
                      timeRemaining (stats_of st player)))])
        (set_allPlayers
           (if isActivePlayer (stats_of st player)
            then allPlayers st else allPlayers st ++ [player])
           (set_playerStats
              (<[player := scored (block_timestamp env) (puzzle_of st puzzleId)
                             correct timeRemaining (stats_of st player)]>
                 (playerStats st)) st)).
Proof.
  unfold submitResult, onlyWhenActive, attested, scored, active_in_time. intros H.
  minv; bool_props.
  all: destruct st; st_norm; case_lookups.
  all: subst; repeat split; try done; try lia.
  all: match goal with |- context [?a - 2] => by replace (a - 2) with 0 by lia end.
Qed.

Lemma game_over_Ok env st b st' :
  game_over env st = Ok b st' → st' = st ∧ (b = true ↔ ended_or_expired env st).
Proof.
  unfold game_over, ended_or_expired. intros H. minv; bool_props.
  - split; [done | tauto].
  - split; [done |]. rewrite N.ltb_lt. split; [auto | intros [?|[_ ?]]; done].
Qed.

Lemma finalizeRanks_Ok env st st' :
  finalizeRanks env st = Ok tt st' →
  ended_or_expired env st
  ∧ ∃ best, sorted_roster st !! 0%nat = Some best
    ∧ st' = set_events (events (ranked st best) ++ [RanksFinalized]) (ranked st best).
Proof.
  unfold finalizeRanks, ranked, sorted_roster. intros H. minv.
  match goal with H : game_over _ _ = _ |- _ => apply game_over_Ok in H as [-> Hg] end.
  split; [by apply Hg |]. eexists. split; [done |].
  reflexivity.
Qed.

Lemma claimNFT_Ok env st st' :
  claimNFT env st = Ok tt st' →
  let me := msg_sender env in
  let newTokenId := _tokenIds st + 1 in
  ended_or_expired env st
  ∧ 0 < rank_of st me
  ∧ claimedNFT (stats_of st me) = false
  ∧ ownerOf st newTokenId = 0
  ∧ st' =
      set_events
        (events st ++ [Transfer 0 me newTokenId; NFTClaimed me newTokenId (rank_of st me)])
        (set_erc721_owners (<[newTokenId := me]> (erc721_owners st))
           (set_erc721_balances (<[me := balanceOf st me + 1]> (erc721_balances st))
              (set_tokenIds newTokenId
                 (set_playerStats
                    (<[me := with_claimedNFT true (stats_of st me)]> (playerStats st))
                    st)))).
Proof.
  unfold claimNFT, _safeMint. intros H. minv.
  match goal with H : game_over _ _ = _ |- _ => apply game_over_Ok in H as [-> Hg] end.
  bool_props. split; [by apply Hg |].
  destruct st; st_norm. rewrite <- app_assoc. simpl. done.
Qed.

End Calls.

(** ** Properties of a submission *)

Lemma transact_cases (crypto : Crypto) env st c :
  (∃ st', transact crypto env st c = (st', Success))
  ∨ (∃ f, transact crypto env st c = (st, Reverted f)).
Proof.
  unfold transact. destruct (dispatch crypto env c st) as [[] s|f s]; eauto.
Qed.

Lemma transact_fails (crypto : Crypto) env st c :
  (∀ st', transact crypto env st c ≠ (st', Success)) →
  ∃ f, transact crypto env st c = (st, Reverted f).
Proof.
  intros Hno. destruct (transact_cases crypto env st c) as [[st' H]|H]; [|done].
  by destruct (Hno st').
Qed.

Lemma submit_Success (crypto : Crypto) env st player puzzleId correct timeRemaining
    signature st' :
  transact crypto env st (SubmitResult player puzzleId correct timeRemaining signature)
    = (st', Success) →
  submitResult crypto env player puzzleId correct timeRemaining signature st = Ok tt st'.
Proof. intros H. by apply transact_Success in H. Qed.

Lemma stats_of_submitted e r (m : gmap N PlayerStats) st p s q :
  stats_of (set_events e (set_allPlayers r (set_playerStats (<[p := s]> m) st))) q
  = if decide (p = q) then s else default zero_stats (m !! q).
Proof. unfold stats_of. cbn. rewrite lookup_insert. by destruct (decide (p = q)). Qed.

(** C1: a submission that succeeds with [correct = true] passed every guard
    (active game within its deadline, relay caller, judge signature, expected
    puzzle index, active puzzle); it adds exactly
    [basePoints + timeRemaining / 60] to the player's score, advances the
    player's puzzleIndex by exactly one and stamps lastSolveTime with the
    time of the call. *)
Theorem submitResult_correct_awards (crypto : Crypto) env st player puzzleId
    timeRemaining signature st' :
  transact crypto env st (SubmitResult player puzzleId true timeRemaining signature)
    = (st', Success) →
  (active_in_time env st
   ∧ msg_sender env = avsAddress st
   ∧ recover crypto (attested crypto st player puzzleId true timeRemaining) signature
     = Some (avsSigner st)
   ∧ puzzleId = puzzleIndex (stats_of st player)
   ∧ active (puzzle_of st puzzleId) = true)
  ∧ score (stats_of st' player)
    = score (stats_of st player) + (basePoints (puzzle_of st puzzleId) + timeRemaining / 60)
  ∧ puzzleIndex (stats_of st' player) = puzzleIndex (stats_of st player) + 1
  ∧ lastSolveTime (stats_of st' player) = block_timestamp env.
Proof.
  intros H%submit_Success%submitResult_Ok.
  destruct H as (Hgate & Hcaller & Hsig & Hidx & Hact & ->).
  split; [done |].
  rewrite stats_of_submitted, decide_True by done. by cbn.
Qed.

(** C3: a submission succeeds only when the caller is the configured relay
    and the signature over the prefixed hash of (this contract, player,
    puzzleId, correct, timeRemaining) recovers to the configured judge key;
    when either fails, whatever the other, the call reverts and the storage
    is what it was. *)
Theorem submitResult_needs_relay_and_judge (crypto : Crypto) env st player puzzleId
    correct timeRemaining signature :
  (∀ st',
     transact crypto env st (SubmitResult player puzzleId correct timeRemaining signature)
       = (st', Success) →
     msg_sender env = avsAddress st
     ∧ recover crypto (attested crypto st player puzzleId correct timeRemaining) signature
       = Some (avsSigner st))
  ∧ (msg_sender env ≠ avsAddress st →
     ∃ f, transact crypto env st
            (SubmitResult player puzzleId correct timeRemaining signature)
          = (st, Reverted f))
  ∧ (recover crypto (attested crypto st player puzzleId correct timeRemaining) signature
       ≠ Some (avsSigner st) →
     ∃ f, transact crypto env st
            (SubmitResult player puzzleId correct timeRemaining signature)
          = (st, Reverted f)).
Proof.
  assert (Hinv : ∀ st',
    transact crypto env st (SubmitResult player puzzleId correct timeRemaining signature)
      = (st', Success) →
    msg_sender env = avsAddress st
    ∧ recover crypto (attested crypto st player puzzleId correct timeRemaining) signature
      = Some (avsSigner st)).
  { intros st' H%submit_Success%submitResult_Ok. tauto. }
  split; [exact Hinv |].
  split; intros Hbad; apply transact_fails; intros st' H;
    destruct (Hinv st' H); done.
Qed.

(** Running a computation forwards, one statement at a time. *)
Lemma bind_gets {A B} (f : State → A) (k : A → M B) st :
  (gets f ≫= k) st = k (f st) st.
Proof. reflexivity. Qed.

Lemma bind_modify {B} (f : State → State) (k : unit → M B) st :
  (modify f ≫= k) st = k tt (f st).
Proof. reflexivity. Qed.

Lemma bind_emit {B} e (k : unit → M B) st :
  (emit e ≫= k) st = k tt (set_events (events st ++ [e]) st).
Proof. reflexivity. Qed.

Lemma bind_require_true {B} r (k : unit → M B) st :
  (require true r ≫= k) st = k tt st.
Proof. reflexivity. Qed.

Lemma bind_require_false {B} r (k : unit → M B) st :
  (require false r ≫= k) st = Fail (Revert r) st.
Proof. reflexivity. Qed.

Lemma bind_mret {A B} (x : A) (k : A → M B) st : (mret x ≫= k) st = k x st.
Proof. reflexivity. Qed.

Lemma bind_throw {A B} f (k : A → M B) st : ((throw f : M A) ≫= k) st = Fail f st.
Proof. reflexivity. Qed.

Lemma bind_assoc {A B C} (m : M A) (k1 : A → M B) (k2 : B → M C) st :
  ((m ≫= k1) ≫= k2) st = (m ≫= (λ a, k1 a ≫= k2)) st.
Proof. unfold mbind, M_bind. by destruct (m st). Qed.

Lemma bind_checked_add {B} a b (k : N → M B) st :
  a + b ≤ MAX_UINT256 → (checked_add a b ≫= k) st = k (a + b) st.
Proof.
  intros H%N.leb_le. unfold checked_add, mbind, M_bind. by rewrite H.
Qed.

Ltac mfwd :=
  repeat first
    [ rewrite bind_assoc
    | rewrite bind_gets
    | rewrite bind_modify
    | rewrite bind_emit
    | rewrite bind_require_true
    | rewrite bind_require_false
    | rewrite bind_mret
    | rewrite bind_throw
    | rewrite bind_checked_add by done
    | progress cbv beta iota ].

Lemma stats_of_appended r p s st :
  stats_of (set_allPlayers r (set_stats p s st)) p = s.
Proof. unfold stats_of, set_stats. cbn. by rewrite lookup_insert_eq. Qed.

Lemma stats_of_set_stats_same st p s : stats_of (set_stats p s st) p = s.
Proof. unfold stats_of, set_stats. cbn. by rewrite lookup_insert_eq. Qed.

Ltac stats_fwd :=
  repeat first
    [ progress mfwd
    | rewrite stats_of_set_stats_same
    | rewrite stats_of_appended
    | progress cbn [score puzzleIndex claimedNFT isActivePlayer lastSolveTime
                    with_score with_puzzleIndex with_claimedNFT with_isActivePlayer
                    with_lastSolveTime negb]
    | rewrite bind_checked_add by lia ].

(** A submission whose guards all hold runs to the end; only the checked
    additions of a correct answer can still stop it. *)
Lemma submitResult_runs (crypto : Crypto) env st player i correct t sig :
  active_in_time env st →
  msg_sender env = avsAddress st →
  recover crypto (attested crypto st player i correct t) sig = Some (avsSigner st) →
  i = puzzleIndex (stats_of st player) →
  active (puzzle_of st i) = true →
  (correct = true →
   score (stats_of st player) + (basePoints (puzzle_of st i) + t / 60) ≤ MAX_UINT256
   ∧ puzzleIndex (stats_of st player) + 1 ≤ MAX_UINT256) →
  ∃ st', submitResult crypto env player i correct t sig st = Ok tt st'.
Proof.
  intros (Hgs & Hov & Hdl) Hcaller Hsig Hidx Hact Hfit.
  unfold submitResult, onlyWhenActive, attested in *.
  mfwd. rewrite bool_decide_eq_true_2 by done. mfwd.
  apply N.leb_le in Hdl. rewrite Hdl. mfwd.
  rewrite bool_decide_eq_true_2 by done. mfwd.
  rewrite Hsig. mfwd.
  rewrite bool_decide_eq_true_2 by done. mfwd.
  destruct (isActivePlayer (stats_of st player)) eqn:Hfirst; cbn [negb]; stats_fwd.
  - rewrite bool_decide_eq_true_2 by done. mfwd. rewrite Hact. mfwd.
    destruct correct.
    + destruct (Hfit eq_refl) as [Hs Hi]. stats_fwd. eauto.
    + stats_fwd. destruct (2 <=? score (stats_of st player)) eqn:Hpen; stats_fwd.
      * unfold checked_sub. rewrite Hpen. stats_fwd. eauto.
      * eauto.
  - rewrite bool_decide_eq_true_2 by done. mfwd.
    change (puzzle_of (set_allPlayers _ (set_stats _ _ st)) i) with (puzzle_of st i).
    rewrite Hact. mfwd.
    destruct correct.
    + destruct (Hfit eq_refl) as [Hs Hi]. stats_fwd. eauto.
    + stats_fwd. destruct (2 <=? score (stats_of st player)) eqn:Hpen; stats_fwd.
      * unfold checked_sub. rewrite Hpen. stats_fwd. eauto.
      * eauto.
Qed.

(** C2: a submission that succeeds with [correct = false] leaves the score at
    [max(0, score - 2)], which is never negative, and leaves puzzleIndex and
    lastSolveTime as they were.  The penalty never stops the call: a wrong
    answer that is attested for the player's current, active puzzle is
    accepted whatever the score, which then drops by 2 when it is at least 2
    and becomes 0 otherwise. *)
Theorem submitResult_incorrect_penalty (crypto : Crypto) env st player puzzleId
    timeRemaining signature :
  (∀ st',
     transact crypto env st (SubmitResult player puzzleId false timeRemaining signature)
       = (st', Success) →
     Z.of_N (score (stats_of st' player))
       = Z.max 0 (Z.of_N (score (stats_of st player)) - 2)
     ∧ puzzleIndex (stats_of st' player) = puzzleIndex (stats_of st player)
     ∧ lastSolveTime (stats_of st' player) = lastSolveTime (stats_of st player))
  ∧ (active_in_time env st →
     msg_sender env = avsAddress st →
     recover crypto (attested crypto st player puzzleId false timeRemaining) signature
       = Some (avsSigner st) →
     puzzleId = puzzleIndex (stats_of st player) →
     active (puzzle_of st puzzleId) = true →
     ∃ st',
       transact crypto env st (SubmitResult player puzzleId false timeRemaining signature)
         = (st', Success)
       ∧ score (stats_of st' player)
         = if 2 <=? score (stats_of st player)
           then score (stats_of st player) - 2 else 0).
Proof.
  assert (Hvalues : ∀ st',
    transact crypto env st (SubmitResult player puzzleId false timeRemaining signature)
      = (st', Success) →
    score (stats_of st' player) = score (stats_of st player) - 2
    ∧ puzzleIndex (stats_of st' player) = puzzleIndex (stats_of st player)
    ∧ lastSolveTime (stats_of st' player) = lastSolveTime (stats_of st player)).
  { intros st' H%submit_Success%submitResult_Ok.
    destruct H as (_ & _ & _ & _ & _ & ->).
    rewrite stats_of_submitted, decide_True by done. by cbn. }
  split.
  - intros st' H. destruct (Hvalues st' H) as (Hscore & Hindex & Htime).
    split; [lia | done].
  - intros Hgate Hcaller Hsig Hidx Hact.
    destruct (submitResult_runs crypto env st player puzzleId false timeRemaining
                signature Hgate Hcaller Hsig Hidx Hact) as [st' Hrun]; [done |].
    assert (H : transact crypto env st
                  (SubmitResult player puzzleId false timeRemaining signature)
                = (st', Success)).
    { unfold transact, dispatch. by rewrite Hrun. }
    exists st'. split; [done |].
    destruct (Hvalues st' H) as (Hscore & _). rewrite Hscore.
    destruct (N.leb_spec 2 (score (stats_of st player))); lia.
Qed.

(** C4: a submission for another index than the player's current
    puzzleIndex, or for a puzzle that is not active, reverts and leaves the
    storage as it was. For a first-time player whose submission passes the
    earlier guards, the run itself does mark the player active and append it
    to the roster before it fails; the revert discards both writes. *)
Theorem submitResult_wrong_puzzle_reverts (crypto : Crypto) env st player puzzleId
    correct timeRemaining signature :
  puzzleId ≠ puzzleIndex (stats_of st player) ∨ active (puzzle_of st puzzleId) = false →
  (∃ f, transact crypto env st
          (SubmitResult player puzzleId correct timeRemaining signature)
        = (st, Reverted f))
  ∧ (active_in_time env st →
     msg_sender env = avsAddress st →
     recover crypto (attested crypto st player puzzleId correct timeRemaining) signature
       = Some (avsSigner st) →
     isActivePlayer (stats_of st player) = false →
     ∃ f mid,
       submitResult crypto env player puzzleId correct timeRemaining signature st
         = Fail f mid
       ∧ (f = Revert "Wrong puzzle index" ∨ f = Revert "Puzzle not active")
       ∧ allPlayers mid = allPlayers st ++ [player]
       ∧ isActivePlayer (stats_of mid player) = true
       ∧ allPlayers st ≠ allPlayers mid).
Proof.
  intros Hbad. split.
  - apply transact_fails. intros st' H%submit_Success%submitResult_Ok.
    destruct H as (_ & _ & _ & Hidx & Hact & _).
    destruct Hbad as [Hbad|Hbad]; [done | congruence].
  - intros (Hgs & Hov & Hdl) Hcaller Hsig Hfirst.
    unfold submitResult, onlyWhenActive, attested in *.
    mfwd. rewrite bool_decide_eq_true_2 by done. mfwd.
    apply N.leb_le in Hdl. rewrite Hdl. mfwd.
    rewrite bool_decide_eq_true_2 by done. mfwd.
    rewrite Hsig. mfwd.
    rewrite bool_decide_eq_true_2 by done. mfwd.
    rewrite Hfirst. cbn [negb]. mfwd.
    rewrite stats_of_appended.
    assert (Hne : allPlayers st ≠ allPlayers st ++ [player]).
    { intros Heq%(f_equal length). rewrite length_app in Heq. cbn in Heq. lia. }
    destruct (decide (puzzleId = puzzleIndex (stats_of st player))) as [Heq|Hneq].
    + destruct Hbad as [Hbad|Hbad]; [done |].
      rewrite bool_decide_eq_true_2 by done. mfwd.
      change (puzzle_of (set_allPlayers _ (set_stats _ _ st)) puzzleId)
        with (puzzle_of st puzzleId).
      rewrite Hbad. mfwd.
      do 2 eexists. split; [reflexivity |].
      rewrite stats_of_appended. cbn. auto.
    + rewrite bool_decide_eq_false_2 by done. mfwd.
      do 2 eexists. split; [reflexivity |].
      rewrite stats_of_appended. cbn. auto.
Qed.

(** ** The two windows *)

Lemma finalize_Success (crypto : Crypto) env st st' :
  transact crypto env st FinalizeRanks = (st', Success) →
  finalizeRanks env st = Ok tt st'.
Proof. intros H. by apply transact_Success in H. Qed.

Lemma claim_Success (crypto : Crypto) env st st' :
  transact crypto env st ClaimNFT = (st', Success) → claimNFT env st = Ok tt st'.
Proof. intros H. by apply transact_Success in H. Qed.

Lemma windows_disjoint env st : active_in_time env st → ended_or_expired env st → False.
Proof.
  unfold active_in_time, ended_or_expired.
  intros (Hgs & _ & Hle) [Hended|[_ Hlt]]; [congruence | lia].
Qed.

(** C8: at any storage and time, a submission can only succeed while the game
    is ACTIVE and [now <= gameStartTimestamp + gameDuration]; finalizeRanks
    and claimNFT can only succeed once the game is ENDED or
    [now > gameStartTimestamp + gameDuration]; so no storage and time admits
    a successful submission together with a successful finalize or claim. *)
Theorem submission_and_final_windows_disjoint (crypto : Crypto) env st player puzzleId
    correct timeRemaining signature :
  let submit := SubmitResult player puzzleId correct timeRemaining signature in
  ((transact crypto env st submit).2 = Success →
     gameState st = ACTIVE
     ∧ block_timestamp env ≤ gameStartTimestamp st + gameDuration st)
  ∧ ((transact crypto env st FinalizeRanks).2 = Success →
     gameState st = ENDED
     ∨ gameStartTimestamp st + gameDuration st < block_timestamp env)
  ∧ ((transact crypto env st ClaimNFT).2 = Success →
     gameState st = ENDED
     ∨ gameStartTimestamp st + gameDuration st < block_timestamp env)
  ∧ ¬ ((transact crypto env st submit).2 = Success
       ∧ ((transact crypto env st FinalizeRanks).2 = Success
          ∨ (transact crypto env st ClaimNFT).2 = Success)).
Proof.
  intros submit.
  assert (Hs : (transact crypto env st submit).2 = Success → active_in_time env st).
  { destruct (transact crypto env st submit) as [st' r] eqn:H. cbn. intros ->.
    apply submit_Success, submitResult_Ok in H. tauto. }
  assert (Hf : (transact crypto env st FinalizeRanks).2 = Success →
               ended_or_expired env st).
  { destruct (transact crypto env st FinalizeRanks) as [st' r] eqn:H. cbn. intros ->.
    apply finalize_Success, finalizeRanks_Ok in H. tauto. }
  assert (Hc : (transact crypto env st ClaimNFT).2 = Success →
               ended_or_expired env st).
  { destruct (transact crypto env st ClaimNFT) as [st' r] eqn:H. cbn. intros ->.
    apply claim_Success, claimNFT_Ok in H. cbv zeta in H. tauto. }
  repeat split.
  - by destruct (Hs H) as (? & _ & _).
  - by destruct (Hs H) as (_ & _ & ?).
  - intros H. destruct (Hf H) as [?|[_ ?]]; auto.
  - intros H. destruct (Hc H) as [?|[_ ?]]; auto.
  - intros [H1 [H2|H2]]; eapply windows_disjoint; eauto.
Qed.

(** C9: with an empty roster finalizeRanks never succeeds: the call reverts,
    and when the game is ENDED or past its deadline the failure is the
    out-of-bounds panic raised by reading position 0 of the empty sorted
    array. *)
Theorem finalizeRanks_empty_roster_reverts (crypto : Crypto) env st :
  allPlayers st = [] →
  (∃ f, transact crypto env st FinalizeRanks = (st, Reverted f))
  ∧ (ended_or_expired env st →
     transact crypto env st FinalizeRanks = (st, Reverted (Panic 50))).
Proof.
  intros Hempty.
  assert (Hsorted : sorted_roster st = []).
  { unfold sorted_roster. by rewrite Hempty. }
  split.
  - apply transact_fails. intros st' H%finalize_Success%finalizeRanks_Ok.
    destruct H as (_ & best & Hbest & _). by rewrite Hsorted in Hbest.
  - intros Hgate. unfold transact, dispatch, finalizeRanks, game_over.
    mfwd. destruct Hgate as [Hended|[Hov Hlt]].
    + rewrite bool_decide_eq_true_2 by done. mfwd.
      by rewrite Hempty.
    + destruct (bool_decide (gameState st = ENDED)); mfwd.
      * by rewrite Hempty.
      * apply N.ltb_lt in Hlt. rewrite Hlt. mfwd.
        by rewrite Hempty.
Qed.

(** ** Loops *)

Lemma for_range_empty {T} lo hi (body : nat → T → T) s :
  (hi ≤ lo)%nat → for_range lo hi body s = s.
Proof. intros H. unfold for_range. by replace (hi - lo)%nat with 0%nat by lia. Qed.

Lemma for_range_snoc {T} lo hi (body : nat → T → T) s :
  (lo ≤ hi)%nat → for_range lo (S hi) body s = body hi (for_range lo hi body s).
Proof.
  intros H. unfold for_range.
  replace (S hi - lo)%nat with (S (hi - lo)) by lia.
  rewrite seq_S, foldl_snoc. by replace (lo + (hi - lo))%nat with hi by lia.
Qed.

Lemma for_range_invariant {T} (P : nat → T → Prop) lo hi (body : nat → T → T) s :
  (lo ≤ hi)%nat →
  P lo s →
  (∀ i s, (lo ≤ i < hi)%nat → P i s → P (S i) (body i s)) →
  P hi (for_range lo hi body s).
Proof.
  intros Hle. induction Hle as [|m Hle IH]; intros H0 Hstep.
  - by rewrite for_range_empty.
  - rewrite for_range_snoc by done. apply Hstep; [lia |].
    apply IH; [done |]. intros i s' Hi. apply Hstep. lia.
Qed.

Lemma copy_players_id players : copy_players players = players.
Proof.
  unfold copy_players.
  pose (P := λ (i : nat) (a : list N),
    length a = length players ∧ ∀ j, (j < i)%nat → a !! j = players !! j).
  assert (H : P (length players)
    (for_range 0 (length players)
       (λ i (a : list N), <[i := default 0 (players !! i)]> a)
       (replicate (length players) 0))).
  { apply for_range_invariant; [lia | |].
    - split; [by rewrite length_replicate | lia].
    - intros i a Hi [Hlen Hpre]. split; [by rewrite length_insert |].
      intros j Hj. destruct (decide (j = i)) as [->|Hne].
      + rewrite list_lookup_insert_eq by lia.
        destruct (lookup_lt_is_Some_2 players i) as [x ->]; [lia | done].
      + rewrite list_lookup_insert_ne by done. apply Hpre. lia. }
  destruct H as [Hlen Hpre]. apply list_eq. intros j.
  destruct (decide (j < length players)%nat) as [Hj|Hj]; [by apply Hpre |].
  rewrite !lookup_ge_None_2; [done | lia | lia].
Qed.

(** ** The comparator *)

Lemma isBetter_spec st a b :
  isBetter st a b = true ↔
  score (stats_of st b) < score (stats_of st a)
  ∨ (score (stats_of st a) = score (stats_of st b)
     ∧ (puzzleIndex (stats_of st b) < puzzleIndex (stats_of st a)
        ∨ (puzzleIndex (stats_of st a) = puzzleIndex (stats_of st b)
           ∧ lastSolveTime (stats_of st a) < lastSolveTime (stats_of st b)))).
Proof.
  unfold isBetter.
  repeat match goal with
  | |- context [?x <? ?y] => destruct (N.ltb_spec x y)
  end; split; intros; try done; try lia.
Qed.

Lemma areTied_spec st a b :
  areTied st a b = true ↔
  score (stats_of st a) = score (stats_of st b)
  ∧ puzzleIndex (stats_of st a) = puzzleIndex (stats_of st b)
  ∧ lastSolveTime (stats_of st a) = lastSolveTime (stats_of st b).
Proof. unfold areTied. rewrite !andb_true_iff, !N.eqb_eq. tauto. Qed.

Lemma isBetter_false st a b :
  isBetter st a b = false ↔ ¬ (isBetter st a b = true).
Proof. by destruct (isBetter st a b). Qed.

Lemma isBetter_asym st a b : isBetter st a b = true → isBetter st b a = false.
Proof. rewrite isBetter_false, !isBetter_spec. lia. Qed.

Lemma isBetter_trans st a b c :
  isBetter st a b = true → isBetter st b c = true → isBetter st a c = true.
Proof. rewrite !isBetter_spec. lia. Qed.

Lemma not_better_tied st a b :
  isBetter st a b = false → isBetter st b a = false → areTied st a b = true.
Proof. rewrite !isBetter_false, !isBetter_spec, areTied_spec. lia. Qed.

Lemma tied_not_better st a b : areTied st a b = true → isBetter st a b = false.
Proof. rewrite isBetter_false, isBetter_spec, areTied_spec. lia. Qed.

(** ** The exchange sort *)

Lemma exchange_length st i j a : length (exchange st i j a) = length a.
Proof.
  unfold exchange. repeat case_match; by rewrite ?length_insert.
Qed.

Lemma exchange_perm st i j a : exchange st i j a ≡ₚ a.
Proof.
  unfold exchange. repeat case_match; try done.
  by apply Permutation_insert_swap.
Qed.

Lemma exchange_step st i j a :
  (i < j)%nat →
  prefix_sorted st i a → pivot_leads st i j a →
  prefix_sorted st i (exchange st i j a) ∧ pivot_leads st i (S j) (exchange st i j a).
Proof.
  intros Hij Hpre Hpiv. unfold exchange.
  destruct (a !! j) as [pj|] eqn:Hj; [destruct (a !! i) as [pi|] eqn:Hi |].
  - destruct (isBetter st pj pi) eqn:Hb.
    + assert (Hlj : (j < length a)%nat) by eauto using lookup_lt_Some.
      assert (Hli : (i < length a)%nat) by eauto using lookup_lt_Some.
      assert (Hlook : ∀ k, <[j:=pi]> (<[i:=pj]> a) !! k =
                if decide (k = j) then Some pi
                else if decide (k = i) then Some pj else a !! k).
      { intros k. repeat case_decide; subst.
        - by rewrite list_lookup_insert_eq by (by rewrite length_insert).
        - rewrite list_lookup_insert_ne by done.
          by rewrite list_lookup_insert_eq.
        - by rewrite !list_lookup_insert_ne by done. }
      split.
      * intros p q x y Hp Hpq. rewrite !Hlook.
        rewrite (decide_False (P := p = j)), (decide_False (P := p = i)) by lia.
        intros Hx. repeat case_decide; intros Hy; simplify_eq.
        -- apply (Hpre p i x y); [lia | lia | done | done].
        -- apply (Hpre p j x y); [lia | lia | done | done].
        -- by apply (Hpre p q x y).
      * intros q x y Hq. rewrite !Hlook.
        rewrite (decide_False (P := i = j)), (decide_True (P := i = i)) by lia.
        intros [= <-]. rewrite (decide_False (P := q = i)) by lia.
        case_decide; intros Hy; simplify_eq.
        -- by apply isBetter_asym.
        -- apply isBetter_false. intros Hbq.
           assert (isBetter st y pi = true) by eauto using isBetter_trans.
           assert (isBetter st y pi = false) by (apply (Hpiv q pi y); [lia | done | done]).
           congruence.
    + split; [done |]. intros q x y Hq Hx Hy.
      destruct (decide (q = j)) as [->|Hne]; [congruence |].
      apply (Hpiv q x y); [lia | done | done].
  - split; [done |]. intros q x y Hq Hx Hy. congruence.
  - split; [done |]. intros q x y Hq Hx Hy.
    destruct (decide (q = j)) as [->|Hne]; [congruence |].
    apply (Hpiv q x y); [lia | done | done].
Qed.

Lemma inner_loop_spec st i a :
  prefix_sorted st i a →
  let a' := for_range (i + 1) (length a) (λ j a, exchange st i j a) a in
  length a' = length a ∧ a' ≡ₚ a ∧ prefix_sorted st (S i) a'.
Proof.
  intros Hpre a'.
  destruct (decide (i + 1 ≤ length a)%nat) as [Hle|Hgt].
  - pose (P := λ (j : nat) (b : list N),
      length b = length a ∧ b ≡ₚ a ∧ prefix_sorted st i b ∧ pivot_leads st i j b).
    assert (H : P (length a) a').
    { apply for_range_invariant; [done | |].
      - repeat split; [done | done |]. intros q x y Hq. lia.
      - intros j b Hj (Hlen & Hperm & Hp & Hpiv).
        destruct (exchange_step st i j b) as [Hp' Hpiv']; [lia | done | done |].
        repeat split; [by rewrite exchange_length | by rewrite exchange_perm | done | done]. }
    destruct H as (Hlen & Hperm & Hp & Hpiv). repeat split; [done | done |].
    intros p q x y Hpi Hpq Hx Hy.
    destruct (decide (p = i)) as [->|Hne].
    + apply (Hpiv q x y); [|done|done].
      apply lookup_lt_Some in Hy. lia.
    + apply (Hp p q x y); [lia | done | done | done].
  - subst a'. rewrite for_range_empty by lia. repeat split; [done |].
    intros p q x y Hpi Hpq Hx Hy.
    assert (q < length a)%nat by eauto using lookup_lt_Some.
    apply (Hpre p q x y); [lia | done | done | done].
Qed.

Lemma sort_players_spec st a :
  length (sort_players st a) = length a
  ∧ sort_players st a ≡ₚ a
  ∧ sorted_by st (sort_players st a).
Proof.
  unfold sort_players.
  pose (P := λ (i : nat) (b : list N),
    length b = length a ∧ b ≡ₚ a ∧ prefix_sorted st i b).
  assert (H : P (length a)
    (for_range 0 (length a)
       (λ i b, for_range (i + 1) (length b) (λ j b, exchange st i j b) b) a)).
  { apply for_range_invariant; [lia | |].
    - repeat split; [done |]. intros p q x y Hp. lia.
    - intros i b Hi (Hlen & Hperm & Hp).
      destruct (inner_loop_spec st i b Hp) as (Hlen' & Hperm' & Hp').
      repeat split; [congruence | by rewrite Hperm' | done]. }
  destruct H as (Hlen & Hperm & Hp). repeat split; [done | done |].
  intros p q x y Hpq Hx Hy. apply (Hp p q x y); [|done..].
  apply lookup_lt_Some in Hy. lia.
Qed.

(** ** The rank loop *)

Lemma only_ranks_differ_set st s v :
  only_ranks_differ st s → only_ranks_differ st (set_finalRank v s).
Proof. unfold only_ranks_differ. intros ->. reflexivity. Qed.

Lemma only_ranks_differ_tied st s a b :
  only_ranks_differ st s → areTied s a b = areTied st a b.
Proof. unfold only_ranks_differ. intros ->. reflexivity. Qed.

Lemma assign_rank_step st sorted k s pk prev :
  only_ranks_differ st s →
  sorted !! S k = Some pk → sorted !! k = Some prev →
  finalRank s !! prev = Some (position_rank st sorted k) →
  assign_rank sorted (S k) s
  = set_finalRank (<[pk := position_rank st sorted (S k)]> (finalRank s)) s.
Proof.
  intros Hframe Hpk Hprev Hrank. unfold assign_rank.
  replace (S k - 1)%nat with k by lia. rewrite Hpk, Hprev.
  rewrite (only_ranks_differ_tied st s) by done.
  cbn [position_rank]. rewrite Hpk, Hprev.
  unfold rank_of. rewrite Hrank. cbn. by destruct (areTied st pk prev).
Qed.

Lemma rank_loop_spec st sorted best :
  sorted !! 0%nat = Some best →
  ranks_written st sorted (length sorted)
    (for_range 1 (length sorted) (assign_rank sorted)
       (set_finalRank (<[best := 1]> (finalRank st)) st)).
Proof.
  intros Hbest.
  assert (Hlen : (1 ≤ length sorted)%nat).
  { apply lookup_lt_Some in Hbest. lia. }
  apply (for_range_invariant (ranks_written st sorted)); [done | |].
  - repeat split.
    + intros p. cbn [Nat.sub finalRank set_finalRank position_rank].
      rewrite Hbest. intros [= <-]. by rewrite lookup_insert_eq.
    + intros j p Hj Hp. assert (j = 0)%nat as -> by lia.
      exists 0%nat. rewrite Hbest in Hp. injection Hp as <-.
      repeat split; [lia | done |].
      cbn [finalRank set_finalRank position_rank]. by rewrite lookup_insert_eq.
    + intros p Hp. cbn [finalRank set_finalRank].
      rewrite lookup_insert_ne; [done |].
      intros <-. by apply (Hp 0%nat); [lia |].
  - intros k s Hk (Hframe & Hlast & Hseen & Hrest).
    destruct k as [|k]; [lia |].
    replace (S k - 1)%nat with k in Hlast by lia.
    destruct (lookup_lt_is_Some_2 sorted (S k)) as [pk Hpk]; [lia |].
    destruct (lookup_lt_is_Some_2 sorted k) as [prev Hprev]; [lia |].
    rewrite (assign_rank_step st sorted k s pk prev) by auto.
    split; [by apply only_ranks_differ_set |].
    replace (S (S k) - 1)%nat with (S k) by lia.
    repeat split.
    + intros p. rewrite Hpk. intros [= <-]. cbn [finalRank set_finalRank].
      by rewrite lookup_insert_eq.
    + intros j p Hj Hp. cbn [finalRank set_finalRank].
      destruct (decide (p = pk)) as [->|Hne].
      * exists (S k). rewrite lookup_insert_eq. repeat split; [lia | done].
      * assert (j ≠ S k) by congruence.
        destruct (Hseen j p) as (j' & Hj' & Hp' & Hr); [lia | done |].
        exists j'. rewrite lookup_insert_ne by done. repeat split; [lia | done | done].
    + intros p Hp. cbn [finalRank set_finalRank].
      rewrite lookup_insert_ne.
      * apply Hrest. intros j Hj. apply Hp. lia.
      * intros <-. by apply (Hp (S k)); [lia |].
Qed.

Lemma areTied_refl st a : areTied st a a = true.
Proof. by apply areTied_spec. Qed.

Lemma areTied_sym st a b : areTied st a b = areTied st b a.
Proof.
  apply eq_true_iff_eq. rewrite !areTied_spec. 
  split; intros (-> & -> & ->); done.
Qed.

Lemma position_rank_tied st sorted j j' x y :
  sorted_by st sorted →
  (j ≤ j')%nat →
  sorted !! j = Some x → sorted !! j' = Some y →
  areTied st x y = true →
  position_rank st sorted j' = position_rank st sorted j.
Proof.
  intros Hsorted Hle. revert y. induction Hle as [|m Hle IH]; intros y Hx Hy Htied.
  - done.
  - destruct (lookup_lt_is_Some_2 sorted m) as [z Hz].
    { apply lookup_lt_Some in Hy. lia. }
    assert (Hyz : isBetter st y z = false).
    { apply (Hsorted m (S m) z y); [lia | done | done]. }
    assert (Hzx : isBetter st z x = false).
    { destruct (decide (j = m)) as [->|Hne].
      - rewrite Hx in Hz. injection Hz as <-.
        apply tied_not_better, areTied_refl.
      - apply (Hsorted j m x z); [lia | done | done]. }
    assert (Hties : areTied st y z = true ∧ areTied st x z = true).
    { revert Hyz Hzx Htied.
      rewrite !isBetter_false, !isBetter_spec, !areTied_spec. lia. }
    destruct Hties as [Htyz Htxz].
    cbn [position_rank]. rewrite Hy, Hz, Htyz. by apply (IH z).
Qed.

Lemma sorted_roster_spec st :
  sorted_roster st ≡ₚ allPlayers st ∧ sorted_by st (sorted_roster st).
Proof.
  unfold sorted_roster. rewrite copy_players_id.
  destruct (sort_players_spec st (allPlayers st)) as (_ & ? & ?). done.
Qed.

Lemma ranked_spec st best :
  sorted_roster st !! 0%nat = Some best →
  only_ranks_differ st (ranked st best)
  ∧ (∀ j p, sorted_roster st !! j = Some p →
       finalRank (ranked st best) !! p = Some (position_rank st (sorted_roster st) j))
  ∧ (∀ p, p ∉ allPlayers st → finalRank (ranked st best) !! p = finalRank st !! p).
Proof.
  intros Hbest. unfold ranked.
  destruct (rank_loop_spec st (sorted_roster st) best Hbest)
    as (Hframe & _ & Hseen & Hrest).
  destruct (sorted_roster_spec st) as [Hperm Hsorted].
  repeat split; [done | |].
  - intros j p Hp.
    destruct (Hseen j p) as (j' & _ & Hp' & ->); [by eapply lookup_lt_Some | done |].
    f_equal. destruct (decide (j ≤ j')%nat).
    + by apply (position_rank_tied st _ j j' p p); auto using areTied_refl.
    + symmetry. apply (position_rank_tied st _ j' j p p); auto using areTied_refl. lia.
  - intros p Hp. apply Hrest. intros j _ Hj. apply Hp.
    rewrite <- Hperm. by eapply list_elem_of_lookup_2.
Qed.

(** ** Final ranks *)

Lemma finalized_state (crypto : Crypto) env st st' :
  transact crypto env st FinalizeRanks = (st', Success) →
  ended_or_expired env st
  ∧ ∃ best, sorted_roster st !! 0%nat = Some best
    ∧ st' = set_events (events st ++ [RanksFinalized])
              (set_finalRank (finalRank (ranked st best)) st)
    ∧ (∀ j p, sorted_roster st !! j = Some p →
         finalRank st' !! p = Some (position_rank st (sorted_roster st) j))
    ∧ (∀ p, p ∉ allPlayers st → finalRank st' !! p = finalRank st !! p).
Proof.
  intros H%finalize_Success%finalizeRanks_Ok.
  destruct H as (Hgate & best & Hbest & ->). split; [done |].
  exists best. split; [done |].
  destruct (ranked_spec st best Hbest) as (Hframe & Hranks & Hrest).
  split; [|split; [exact Hranks | exact Hrest]].
  unfold only_ranks_differ in Hframe. rewrite Hframe at 1 2. reflexivity.
Qed.

Lemma sorted_by_lex st a i j x y :
  sorted_by st a → (i < j)%nat → a !! i = Some x → a !! j = Some y →
  score (stats_of st y) < score (stats_of st x)
  ∨ (score (stats_of st x) = score (stats_of st y)
     ∧ (puzzleIndex (stats_of st y) < puzzleIndex (stats_of st x)
        ∨ (puzzleIndex (stats_of st x) = puzzleIndex (stats_of st y)
           ∧ lastSolveTime (stats_of st x) ≤ lastSolveTime (stats_of st y)))).
Proof.
  intros Hsorted Hij Hx Hy.
  specialize (Hsorted i j x y Hij Hx Hy).
  revert Hsorted. rewrite isBetter_false, isBetter_spec. lia.
Qed.

(** C5: after a successful finalizeRanks the ranks are the competition ranks
    of the roster sorted by score (descending), then puzzleIndex
    (descending), then lastSolveTime (ascending): position 0 has rank 1; each
    later position has its predecessor's rank when the two players have the
    same score, puzzleIndex and lastSolveTime, and its 1-based position
    otherwise; hence two roster players with the same three values end with
    the same rank. Ranks can skip numbers: some game ends with the ranks
    1, 1, 3 along its sorted roster. *)
Theorem finalizeRanks_competition_ranks (crypto : Crypto) :
  (∀ env st st',
     transact crypto env st FinalizeRanks = (st', Success) →
     sorted_roster st ≡ₚ allPlayers st
     ∧ (∀ p, stats_of st' p = stats_of st p)
     ∧ (∀ i j x y, (i < j)%nat →
          sorted_roster st !! i = Some x → sorted_roster st !! j = Some y →
          score (stats_of st y) < score (stats_of st x)
          ∨ (score (stats_of st x) = score (stats_of st y)
             ∧ (puzzleIndex (stats_of st y) < puzzleIndex (stats_of st x)
                ∨ (puzzleIndex (stats_of st x) = puzzleIndex (stats_of st y)
                   ∧ lastSolveTime (stats_of st x) ≤ lastSolveTime (stats_of st y)))))
     ∧ (∀ best, sorted_roster st !! 0%nat = Some best → rank_of st' best = 1)
     ∧ (∀ k pk prev,
          sorted_roster st !! S k = Some pk → sorted_roster st !! k = Some prev →
          rank_of st' pk
          = if areTied st pk prev then rank_of st' prev else N.of_nat (S k) + 1)
     ∧ (∀ p q, p ∈ allPlayers st → q ∈ allPlayers st →
          score (stats_of st p) = score (stats_of st q) →
          puzzleIndex (stats_of st p) = puzzleIndex (stats_of st q) →
          lastSolveTime (stats_of st p) = lastSolveTime (stats_of st q) →
          rank_of st' p = rank_of st' q))
  ∧ (∃ env st st',
       transact crypto env st FinalizeRanks = (st', Success)
       ∧ rank_of st' <$> sorted_roster st = [1; 1; 3]).
Proof.
  split; [|exists (at_time 50 1200), demo_ended, demo_ranked;
            split; vm_compute; reflexivity].
  intros env st st' H. destruct (finalized_state crypto env st st' H)
    as (_ & best & Hbest & Hst' & Hranks & _).
  destruct (sorted_roster_spec st) as [Hperm Hsorted].
  assert (Hrank : ∀ j p, sorted_roster st !! j = Some p →
            rank_of st' p = position_rank st (sorted_roster st) j).
  { intros j p Hp. unfold rank_of. by rewrite (Hranks j p Hp). }
  split; [done |]. split; [by rewrite Hst' |].
  split; [eauto using sorted_by_lex |].
  split; [intros b Hb; by rewrite (Hrank 0%nat b Hb) |].
  split.
  - intros k pk prev Hpk Hprev.
    rewrite (Hrank (S k) pk Hpk), (Hrank k prev Hprev).
    cbn [position_rank]. rewrite Hpk, Hprev.
    destruct (areTied st pk prev); [done | lia].
  - intros p q Hp Hq Hs Hi Ht.
    assert (Htied : areTied st p q = true) by (by apply areTied_spec).
    rewrite <- Hperm in Hp, Hq.
    apply list_elem_of_lookup in Hp as [i Hi'], Hq as [j Hj'].
    rewrite (Hrank i p Hi'), (Hrank j q Hj').
    destruct (decide (i ≤ j)%nat).
    + symmetry. by apply (position_rank_tied st _ i j p q).
    + apply (position_rank_tied st _ j i q p); [done | lia | done | done |].
      by rewrite areTied_sym.
Qed.

Lemma game_over_pass env st :
  ended_or_expired env st → game_over env st = Ok true st.
Proof.
  intros Hgate. unfold game_over. mfwd.
  destruct (decide (gameState st = ENDED)) as [He|Hne].
  - by rewrite bool_decide_eq_true_2.
  - rewrite bool_decide_eq_false_2 by done. destruct Hgate as [?|[Hov Hlt]]; [done |].
    mfwd. apply N.ltb_lt in Hlt. by rewrite Hlt.
Qed.

Lemma ended_or_expired_later env env' st st' :
  ended_or_expired env st →
  block_timestamp env ≤ block_timestamp env' →
  gameState st' = gameState st → 
  gameStartTimestamp st' = gameStartTimestamp st →
  gameDuration st' = gameDuration st →
  ended_or_expired env' st'.
Proof.
  unfold ended_or_expired. intros Hgate Hle -> -> ->.
  destruct Hgate as [?|[? ?]]; [by left | right; lia].
Qed.

(** C6: nothing stops a second finalizeRanks after a successful one, and it
    leaves the finalRank mapping exactly as the first run left it. *)
Theorem finalizeRanks_twice_same_ranks (crypto : Crypto) env1 env2 st st1 :
  transact crypto env1 st FinalizeRanks = (st1, Success) →
  block_timestamp env1 ≤ block_timestamp env2 →
  ∃ st2, transact crypto env2 st1 FinalizeRanks = (st2, Success)
         ∧ finalRank st2 = finalRank st1.
Proof.
  intros H1 Htime.
  destruct (finalized_state crypto env1 st st1 H1)
    as (Hgate & best & Hbest & Hst1 & Hranks & Hrest).
  assert (Hgate2 : ended_or_expired env2 st1).
  { apply (ended_or_expired_later env1 env2 st); [done | done |..]; by rewrite Hst1. }
  assert (Hroster : sorted_roster st1 = sorted_roster st) by (by rewrite Hst1).
  assert (Hplayers : allPlayers st1 = allPlayers st) by (by rewrite Hst1).
  assert (Hpos : ∀ j, position_rank st1 (sorted_roster st) j
                      = position_rank st (sorted_roster st) j).
  { intros j. rewrite Hst1. induction j as [|j IH]; [done |].
    cbn [position_rank]. by rewrite IH. }
  assert (Hrun : ∃ st2, transact crypto env2 st1 FinalizeRanks = (st2, Success)).
  { unfold transact, dispatch, finalizeRanks.
    rewrite (bind_Ok_l _ _ _ _ _ (game_over_pass env2 st1 Hgate2)). mfwd.
    change (sort_players (id st1) (copy_players (allPlayers st1)))
      with (sorted_roster st1).
    rewrite Hroster. unfold index at 1. rewrite Hbest. mfwd. eauto. }
  destruct Hrun as [st2 H2]. exists st2. split; [done |].
  destruct (finalized_state crypto env2 st1 st2 H2)
    as (_ & best2 & _ & _ & Hranks2 & Hrest2).
  rewrite Hroster in Hranks2. rewrite Hplayers in Hrest2.
  destruct (sorted_roster_spec st) as [Hperm _].
  apply map_eq. intros p.
  destruct (decide (p ∈ allPlayers st)) as [Hin|Hout].
  - rewrite <- Hperm in Hin. apply list_elem_of_lookup in Hin as [j Hj].
    by rewrite (Hranks2 j p Hj), (Hranks j p Hj), Hpos.
  - by apply Hrest2.
Qed.

(** ** What each successful call writes *)

Lemma transact_effect (crypto : Crypto) env st c st' :
  transact crypto env st c = (st', Success) → call_effect env st c st'.
Proof.
  intros H. destruct c; cbn [call_effect].
  1-8: apply transact_Success in H; cbn [dispatch] in H.
  - unfold setPuzzleCreator, onlyOwner in H. by minv.
  - unfold setAvsAddress, onlyOwner in H. by minv.
  - unfold setAvsSigner, onlyOwner in H. by minv.
  - unfold startGame, onlyOwner in H. minv; bool_props.
    split; [by destruct (gameState st) | by destruct st].
  - unfold endGame, onlyOwner in H. minv; bool_props. done.
  - unfold transferOwnership, onlyOwner in H. minv. by destruct st.
  - unfold renounceOwnership, onlyOwner in H. minv. by destruct st.
  - unfold setPuzzleHash, onlyPuzzleCreator in H. minv.
    + eexists. by destruct st.
    + exists (puzzleCount st). by destruct st.
  - apply submit_Success, submitResult_Ok in H.
    destruct H as (Hgate & _ & _ & _ & _ & ->). split; [done |].
    do 2 eexists. split; [reflexivity |]. unfold scored. by destruct correct.
  - by apply (finalized_state crypto env).
  - by apply claim_Success, claimNFT_Ok in H.
Qed.

Ltac effect_cases H :=
  apply transact_effect in H;
  match type of H with
  | call_effect _ _ ?c _ => tryif is_var c then destruct c else idtac
  end;
  cbn [call_effect] in H; cbv zeta in H;
  repeat match goal with
  | H : _ ∧ _ |- _ => destruct H
  | H : ∃ _, _ |- _ => destruct H
  end; subst.

Lemma execute_invariant (crypto : Crypto) (P : State → Prop) st txs :
  (∀ env s c s', P s → transact crypto env s c = (s', Success) → P s') →
  P st → P (execute crypto st txs).
Proof.
  intros Hstep. revert st. induction txs as [|[env c] txs IH]; intros st HP; [done |].
  cbn. apply IH.
  destruct (transact_cases crypto env st c) as [[st' H]|[f H]]; rewrite H; cbn; eauto.
Qed.

Lemma reachable_invariant (crypto : Crypto) (P : State → Prop) st :
  (∀ deployer self uri, P (constructor deployer self uri)) →
  (∀ env s c s', P s → transact crypto env s c = (s', Success) → P s') →
  reachable crypto st → P st.
Proof.
  intros Hinit Hstep (deployer & self & uri & txs & ->).
  by apply execute_invariant.
Qed.

Lemma execute_nil (crypto : Crypto) st : execute crypto st [] = st.
Proof. reflexivity. Qed.

Lemma execute_app (crypto : Crypto) st txs1 txs2 :
  execute crypto st (txs1 ++ txs2) = execute crypto (execute crypto st txs1) txs2.
Proof. unfold execute. by rewrite foldl_app. Qed.

Lemma reachable_execute (crypto : Crypto) st txs :
  reachable crypto st → reachable crypto (execute crypto st txs).
Proof.
  intros (deployer & self & uri & txs0 & ->).
  exists deployer, self, uri, (txs0 ++ txs). by rewrite execute_app.
Qed.

(** *** Puzzles *)

Lemma step_puzzles (crypto : Crypto) env st c st' :
  transact crypto env st c = (st', Success) →
  puzzles st' = puzzles st
  ∨ ∃ i h p, c = SetPuzzleHash i h p
             ∧ puzzles st' = <[i := mkPuzzle h p true]> (puzzles st).
Proof.
  intros H. effect_cases H; cbn; first [by left | right; by do 3 eexists].
Qed.

Lemma step_active (crypto : Crypto) env st c st' i :
  transact crypto env st c = (st', Success) →
  active (puzzle_of st i) = true → active (puzzle_of st' i) = true.
Proof.
  intros H Hact. unfold puzzle_of in *.
  destruct (step_puzzles crypto env st c st' H) as [->|(i' & h & p & _ & ->)]; [done |].
  rewrite lookup_insert. by case_decide.
Qed.

(** *** Player flags, ranks and tokens *)

Lemma step_claimed (crypto : Crypto) env st c st' p :
  transact crypto env st c = (st', Success) →
  claimedNFT (stats_of st p) = true → claimedNFT (stats_of st' p) = true.
Proof.
  intros H Hc. effect_cases H; try done.
  - rewrite stats_of_submitted. case_decide; subst; [congruence | done].
  - unfold stats_of in *. cbn. rewrite lookup_insert. by case_decide.
Qed.

Lemma position_rank_pos st sorted j p :
  sorted !! j = Some p → 0 < position_rank st sorted j.
Proof.
  revert p. induction j as [|j IH]; intros p Hp; cbn [position_rank]; [lia |].
  rewrite Hp. destruct (lookup_lt_is_Some_2 sorted j) as [prev Hprev].
  { apply lookup_lt_Some in Hp. lia. }
  rewrite Hprev. destruct (areTied st p prev); [by apply (IH prev) | lia].
Qed.

Lemma step_rank_pos (crypto : Crypto) env st c st' p :
  transact crypto env st c = (st', Success) →
  0 < rank_of st p → 0 < rank_of st' p.
Proof.
  intros H Hr. effect_cases H; try done.
  unfold rank_of in *.
  destruct (decide (p ∈ allPlayers st)) as [Hin|Hout].
  - destruct (sorted_roster_spec st) as [Hperm _]. rewrite <- Hperm in Hin.
    apply list_elem_of_lookup in Hin as [j Hj].
    match goal with H : ∀ j p, _ → _ = Some _ |- _ => rewrite (H j p Hj) end.
    cbn. by apply (position_rank_pos st _ j p).
  - match goal with H : ∀ p, _ ∉ _ → _ |- _ => by rewrite (H p Hout) end.
Qed.

Lemma step_timeline (crypto : Crypto) env st c st' :
  transact crypto env st c = (st', Success) →
  gameState st ≠ NOT_STARTED →
  gameState st' ≠ NOT_STARTED
  ∧ gameStartTimestamp st' = gameStartTimestamp st
  ∧ gameDuration st' = gameDuration st
  ∧ (gameState st = ENDED → gameState st' = ENDED).
Proof. intros H Hgs. by effect_cases H. Qed.

Lemma step_tokenIds (crypto : Crypto) env st c st' :
  transact crypto env st c = (st', Success) → _tokenIds st ≤ _tokenIds st'.
Proof. intros H. effect_cases H; cbn; lia. Qed.

Lemma step_tokens_counted (crypto : Crypto) env st c st' :
  tokens_counted st →
  transact crypto env st c = (st', Success) → tokens_counted st'.
Proof.
  intros [Hown Hev] H. effect_cases H; (split; [try done | cbn; try done]).
  all: try (intros p i r [Hin|Hin%list_elem_of_singleton]%elem_of_app; [eauto | done]).
  - intros i. unfold ownerOf. cbn. rewrite lookup_insert.
    case_decide; [lia |]. intros Hi. specialize (Hown i Hi). lia.
  - intros p i r [Hin|Hin]%elem_of_app.
    + specialize (Hev p i r Hin). lia.
    + apply elem_of_cons in Hin as [|Hin%list_elem_of_singleton]; [done |].
      injection Hin as -> -> ->. lia.
Qed.

Lemma step_idle_until_started (crypto : Crypto) env st c st' :
  idle_until_started st →
  transact crypto env st c = (st', Success) → idle_until_started st'.
Proof.
  unfold idle_until_started. intros Hidle H.
  effect_cases H; try done.
  - unfold active_in_time in *. cbn. intros. destruct_and!. congruence.
  - cbn. intros Hgs. destruct (Hidle Hgs) as [Hroster _].
    unfold sorted_roster in *. by rewrite Hroster in *.
Qed.

(** ** Failed runs *)

Lemma bind_Fail {A B} (m : M A) (k : A → M B) st f s :
  (m ≫= k) st = Fail f s →
  m st = Fail f s ∨ ∃ a st1, m st = Ok a st1 ∧ k a st1 = Fail f s.
Proof.
  unfold mbind, M_bind. destruct (m st) as [a st1|f' st1]; [by eauto 6 | ].
  intros [= -> ->]. by left.
Qed.

Lemma require_Fail b r st f s :
  require b r st = Fail f s → b = false ∧ f = Revert r ∧ s = st.
Proof. unfold require. destruct b; cbn; [discriminate | by intros [= <- <-]]. Qed.

Lemma gets_Fail {A} (g : State → A) st f s : gets g st = Fail f s → False.
Proof. discriminate. Qed.

Lemma modify_Fail g st f s : modify g st = Fail f s → False.
Proof. discriminate. Qed.

Lemma emit_Fail e st f s : emit e st = Fail f s → False.
Proof. discriminate. Qed.

Lemma mret_Fail {A} (x : A) st f s : (mret x : M A) st = Fail f s → False.
Proof. discriminate. Qed.

Lemma throw_Fail {A} f' st f s : (throw f' : M A) st = Fail f s → f = f' ∧ s = st.
Proof. by intros [= <- <-]. Qed.

Lemma checked_add_Fail a b st f s : checked_add a b st = Fail f s → f = Panic 17.
Proof. unfold checked_add. destruct (a + b <=? MAX_UINT256); [discriminate | by intros [= <- _]]. Qed.

Lemma checked_sub_Fail a b st f s : checked_sub a b st = Fail f s → f = Panic 17.
Proof. unfold checked_sub. destruct (b <=? a); [discriminate | by intros [= <- _]]. Qed.

Ltac finv_step :=
  match goal with
  | H : mbind _ _ _ = Fail _ _ |- _ =>
      apply bind_Fail in H as [H|(? & ? & ? & H)]; cbv beta in H
  | H : gets _ _ = Fail _ _ |- _ => by apply gets_Fail in H
  | H : modify _ _ = Fail _ _ |- _ => by apply modify_Fail in H
  | H : emit _ _ = Fail _ _ |- _ => by apply emit_Fail in H
  | H : mret _ _ = Fail _ _ |- _ => by apply mret_Fail in H
  | H : throw _ _ = Fail _ _ |- _ => apply throw_Fail in H as [? ?]; subst
  | H : checked_add _ _ _ = Fail _ _ |- _ => apply checked_add_Fail in H
  | H : checked_sub _ _ _ = Fail _ _ |- _ => apply checked_sub_Fail in H
  | H : require _ _ _ = Fail _ _ |- _ => apply require_Fail in H as (? & ? & ?); subst
  | H : (if ?b then _ else _) _ = Fail _ _ |- _ => destruct b eqn:?
  | H : (match ?o with Some _ => _ | None => _ end) _ = Fail _ _ |- _ =>
      destruct o eqn:?
  | H : Revert _ = Revert _ |- _ => by inversion H
  | H : Panic _ = Revert _ |- _ => by inversion H
  | H : Revert _ = Panic _ |- _ => by inversion H
  | _ => minv_step
  end.
Ltac finv := repeat finv_step.

Lemma puzzle_not_active_reason (crypto : Crypto) env st player puzzleId correct
    timeRemaining signature mid :
  submitResult crypto env player puzzleId correct timeRemaining signature st
    = Fail (Revert "Puzzle not active") mid →
  active (puzzle_of st puzzleId) = false.
Proof.
  unfold submitResult, onlyWhenActive. intros H. finv.
Qed.

(** ** Puzzles stay active *)

Lemma step_all_set_active (crypto : Crypto) env st c st' :
  all_set_active st →
  transact crypto env st c = (st', Success) → all_set_active st'.
Proof.
  unfold all_set_active. intros Hall H i pz.
  destruct (step_puzzles crypto env st c st' H) as [->|(i' & h & p & _ & ->)]; [eauto |].
  rewrite lookup_insert. case_decide; [by intros [= <-] | eauto].
Qed.

Lemma set_puzzle_active (crypto : Crypto) env st i h p st' :
  transact crypto env st (SetPuzzleHash i h p) = (st', Success) →
  active (puzzle_of st' i) = true.
Proof.
  intros H. effect_cases H. unfold puzzle_of.
  cbn [puzzles set_events set_puzzleCount set_puzzles]. by rewrite lookup_insert_eq.
Qed.

Lemma execute_active (crypto : Crypto) st txs i :
  active (puzzle_of st i) = true → active (puzzle_of (execute crypto st txs) i) = true.
Proof.
  apply (execute_invariant crypto (λ s, active (puzzle_of s i) = true)).
  intros env s c s' Hs H. by apply (step_active crypto env s c s').
Qed.

(** C10: setPuzzleHash is the only call that writes the puzzle table, and it
    writes [active = true]; a puzzle that was set is therefore active in every
    later storage, and a submission is rejected as "Puzzle not active" only
    for an id whose entry was never written by any earlier call. *)
Theorem puzzles_never_deactivated (crypto : Crypto) :
  (∀ env st c st',
     transact crypto env st c = (st', Success) →
     puzzles st' = puzzles st
     ∨ ∃ i h p, c = SetPuzzleHash i h p
                ∧ puzzles st' = <[i := mkPuzzle h p true]> (puzzles st))
  ∧ (∀ env st i h p st' txs,
       transact crypto env st (SetPuzzleHash i h p) = (st', Success) →
       active (puzzle_of (execute crypto st' txs) i) = true)
  ∧ (∀ deployer self uri txs env player i correct timeRemaining signature,
       transact crypto env (execute crypto (constructor deployer self uri) txs)
         (SubmitResult player i correct timeRemaining signature)
       = (execute crypto (constructor deployer self uri) txs,
          Reverted (Revert "Puzzle not active")) →
       puzzles (execute crypto (constructor deployer self uri) txs) !! i = None
       ∧ ∀ pre e h p post,
           txs = pre ++ (e, SetPuzzleHash i h p) :: post →
           (transact crypto e (execute crypto (constructor deployer self uri) pre)
              (SetPuzzleHash i h p)).2 ≠ Success).
Proof.
  split; [apply step_puzzles |]. split.
  - intros env st i h p st' txs H.
    by apply execute_active, (set_puzzle_active crypto env st i h p).
  - intros deployer self uri txs env player i correct timeRemaining signature H.
    apply transact_Reverted in H as [_ [mid H]]. cbn [dispatch] in H.
    apply puzzle_not_active_reason in H.
    set (st := execute crypto (constructor deployer self uri) txs) in *.
    split.
    + assert (Hall : all_set_active st).
      { apply (reachable_invariant crypto); [by intros ? ? ? ? ? | | by repeat eexists ].
        intros ? ? ? ?. apply step_all_set_active. }
      destruct (puzzles st !! i) as [pz|] eqn:Hpz; [|done].
      unfold puzzle_of in H. rewrite Hpz in H. cbn in H.
      by rewrite (Hall i pz Hpz) in H.
    + intros pre e h p post -> Hset. subst st.
      rewrite execute_app in H. cbn [execute foldl] in H. cbn [fst snd] in H.
      destruct (transact crypto e (execute crypto (constructor deployer self uri) pre)
                  (SetPuzzleHash i h p)) as [st1 r] eqn:Hstep.
      cbn in Hset. subst r. cbn [fst] in H.
      fold (execute crypto st1 post) in H.
      rewrite (execute_active crypto st1 post i) in H; [done |].
      by apply (set_puzzle_active crypto e
                  (execute crypto (constructor deployer self uri) pre) i h p).
Qed.

(** ** One reward per player *)

Lemma reachable_tokens_counted (crypto : Crypto) st :
  reachable crypto st → tokens_counted st.
Proof.
  apply (reachable_invariant crypto).
  - intros deployer self uri. split.
    + intros i. unfold ownerOf. cbn. by rewrite lookup_empty.
    + intros p i r. cbn. rewrite !elem_of_cons, elem_of_nil. by intros [|[|]].
  - intros env s c s'. apply step_tokens_counted.
Qed.

Lemma reachable_idle_until_started (crypto : Crypto) st :
  reachable crypto st → idle_until_started st.
Proof.
  apply (reachable_invariant crypto).
  - by intros deployer self uri _.
  - intros env s c s'. apply step_idle_until_started.
Qed.

Lemma ranked_after_start (crypto : Crypto) st p :
  reachable crypto st → 0 < rank_of st p → gameState st ≠ NOT_STARTED.
Proof.
  intros Hreach Hrank Hgs.
  destruct (reachable_idle_until_started crypto st Hreach Hgs) as [_ Hnone].
  unfold rank_of in Hrank. rewrite Hnone, lookup_empty in Hrank. cbn in Hrank. lia.
Qed.

Lemma window_stays_open env env' st s :
  ended_or_expired env st →
  block_timestamp env ≤ block_timestamp env' →
  gameStartTimestamp s = gameStartTimestamp st →
  gameDuration s = gameDuration st →
  (gameState st = ENDED → gameState s = ENDED) →
  ended_or_expired env' s.
Proof.
  unfold ended_or_expired. intros Hgate Hle -> -> Hended.
  destruct Hgate as [?|[? ?]]; [left; auto | right; lia].
Qed.

Lemma claim_again_reverts env st :
  ended_or_expired env st →
  0 < rank_of st (msg_sender env) →
  claimedNFT (stats_of st (msg_sender env)) = true →
  ∃ mid, claimNFT env st = Fail (Revert "Already claimed NFT") mid.
Proof.
  intros Hgate Hrank%N.ltb_lt Hclaimed. unfold claimNFT.
  rewrite (bind_Ok_l _ _ _ _ _ (game_over_pass env st Hgate)). mfwd.
  rewrite Hrank. mfwd. rewrite Hclaimed. cbn [negb]. mfwd. eauto.
Qed.

(** C7: a claim succeeds only when the game is ENDED or past its deadline, the
    caller is ranked and has not claimed yet; it marks the caller as having
    claimed and mints the next token number, which no existing token and no
    earlier claim carries; after that, whatever calls follow, another claim by
    the same caller never succeeds, and from the time of the first claim on it
    fails with "Already claimed NFT". *)
Theorem claimNFT_only_once (crypto : Crypto) env st st' :
  reachable crypto st →
  transact crypto env st ClaimNFT = (st', Success) →
  (ended_or_expired env st
   ∧ 0 < rank_of st (msg_sender env)
   ∧ claimedNFT (stats_of st (msg_sender env)) = false)
  ∧ claimedNFT (stats_of st' (msg_sender env)) = true
  ∧ (_tokenIds st' = _tokenIds st + 1
     ∧ ownerOf st' (_tokenIds st') = msg_sender env
     ∧ NFTClaimed (msg_sender env) (_tokenIds st') (rank_of st (msg_sender env))
       ∈ events st'
     ∧ (∀ i, ownerOf st i ≠ 0 → i < _tokenIds st')
     ∧ (∀ p i r, NFTClaimed p i r ∈ events st → i < _tokenIds st'))
  ∧ (∀ txs env2,
       msg_sender env2 = msg_sender env →
       (∀ st2, transact crypto env2 (execute crypto st' txs) ClaimNFT ≠ (st2, Success))
       ∧ (block_timestamp env ≤ block_timestamp env2 →
          transact crypto env2 (execute crypto st' txs) ClaimNFT
          = (execute crypto st' txs, Reverted (Revert "Already claimed NFT")))).
Proof.
  intros Hreach H.
  destruct (reachable_tokens_counted crypto st Hreach) as [Hown Hev].
  pose proof (claimNFT_Ok env st st' (claim_Success crypto env st st' H)) as Hok.
  cbv zeta in Hok. destruct Hok as (Hgate & Hrank & Hfresh & Hfree & Hst').
  assert (Hclaimed : claimedNFT (stats_of st' (msg_sender env)) = true).
  { rewrite Hst'. unfold stats_of. cbn. by rewrite lookup_insert_eq. }
  assert (Hrank' : 0 < rank_of st' (msg_sender env)) by (by rewrite Hst').
  assert (Hstarted : gameState st ≠ NOT_STARTED) by eauto using ranked_after_start.
  split; [done |]. split; [done |]. split.
  - rewrite Hst'. cbn [_tokenIds set_events set_erc721_owners set_erc721_balances
                       set_tokenIds events].
    split; [done |]. split.
    { unfold ownerOf. cbn. by rewrite lookup_insert_eq. }
    split.
    { rewrite elem_of_app, !elem_of_cons. auto. }
    split.
    + intros i Hi. specialize (Hown i Hi). lia.
    + intros p i r Hi. specialize (Hev p i r Hi). lia.
  - intros txs env2 Hsender.
    set (later := execute crypto st' txs).
    assert (Hlater : claimedNFT (stats_of later (msg_sender env)) = true
                     ∧ 0 < rank_of later (msg_sender env)
                     ∧ (gameState later ≠ NOT_STARTED
                        ∧ gameStartTimestamp later = gameStartTimestamp st
                        ∧ gameDuration later = gameDuration st
                        ∧ (gameState st = ENDED → gameState later = ENDED))).
    { apply (execute_invariant crypto
               (λ s, claimedNFT (stats_of s (msg_sender env)) = true
                     ∧ 0 < rank_of s (msg_sender env)
                     ∧ (gameState s ≠ NOT_STARTED
                        ∧ gameStartTimestamp s = gameStartTimestamp st
                        ∧ gameDuration s = gameDuration st
                        ∧ (gameState st = ENDED → gameState s = ENDED)))).
      - intros e s c s' (Hc & Hr & Hns & Hs & Hd & He) Hstep.
        destruct (step_timeline crypto e s c s' Hstep Hns) as (Hns' & Hs' & Hd' & He').
        split; [by apply (step_claimed crypto e s c s') |].
        split; [by apply (step_rank_pos crypto e s c s') |].
        repeat split; [done | congruence | congruence | auto].
      - split; [done |]. split; [done |]. by rewrite Hst'. }
    destruct Hlater as (Hc & Hr & _ & Hs & Hd & He). split.
    + intros st2 H2%claim_Success%claimNFT_Ok. cbv zeta in H2.
      destruct H2 as (_ & _ & Hno & _). rewrite Hsender in Hno. congruence.
    + intros Htime.
      assert (Hgate2 : ended_or_expired env2 later) by eauto using window_stays_open.
      destruct (claim_again_reverts env2 later) as [mid Hfail];
        [done | by rewrite Hsender | by rewrite Hsender |].
      unfold transact, dispatch. by rewrite Hfail.
Qed.

(** ** The properties on a concrete game *)

Lemma submitResult_correct_awards_witness :
  score (stats_of demo_first_solve 10) = 11
  ∧ puzzleIndex (stats_of demo_first_solve 10) = 1
  ∧ lastSolveTime (stats_of demo_first_solve 10) = 1010.
Proof.
  destruct (submitResult_correct_awards demo_crypto (at_time 2 1010) demo_started
              10 0 100 (demo_sign 3 100 10 0 true 100) demo_first_solve)
    as (_ & Hscore & Hindex & Htime).
  { vm_compute. reflexivity. }
  rewrite Hscore, Hindex, Htime. vm_compute. auto.
Defined.

Lemma submitResult_incorrect_penalty_witness :
  (score (stats_of demo_second_miss 10) = 9
   ∧ puzzleIndex (stats_of demo_second_miss 10) = 1
   ∧ lastSolveTime (stats_of demo_second_miss 10) = 1010)
  ∧ score (stats_of demo_first_miss 11) = 0
  ∧ ∃ st',
      transact demo_crypto (at_time 2 1020) demo_second_puzzle
        (SubmitResult 10 1 false 40 (demo_sign 3 100 10 1 false 40))
      = (st', Success)
      ∧ score (stats_of st' 10) = 9.
Proof.
  destruct (submitResult_incorrect_penalty demo_crypto (at_time 2 1020)
              demo_second_puzzle 10 1 40 (demo_sign 3 100 10 1 false 40))
    as [Hlose Hruns].
  destruct (submitResult_incorrect_penalty demo_crypto (at_time 2 1010) demo_started
              11 0 50 (demo_sign 3 100 11 0 false 50)) as [Hfloor _].
  split; [|split].
  - destruct (Hlose demo_second_miss) as (Hscore & Hindex & Htime).
    { vm_compute. reflexivity. }
    rewrite Hindex, Htime. split; [|vm_compute; auto].
    apply N2Z.inj. rewrite Hscore. vm_compute. reflexivity.
  - destruct (Hfloor demo_first_miss) as (Hscore & _).
    { vm_compute. reflexivity. }
    apply N2Z.inj. rewrite Hscore. vm_compute. reflexivity.
  - destruct Hruns as (st' & Hrun & Hscore).
    + repeat split; vm_compute; (reflexivity || discriminate).
    + vm_compute. reflexivity.
    + vm_compute. reflexivity.
    + vm_compute. reflexivity.
    + vm_compute. reflexivity.
    + exists st'. split; [exact Hrun |]. rewrite Hscore. vm_compute. reflexivity.
Defined.

Lemma submitResult_needs_relay_and_judge_witness :
  (msg_sender (at_time 2 1010) = avsAddress demo_started
   ∧ recover demo_crypto (attested demo_crypto demo_started 10 0 true 100)
       (demo_sign 3 100 10 0 true 100)
     = Some (avsSigner demo_started))
  ∧ (∃ f, transact demo_crypto (at_time 10 1010) demo_started
            (SubmitResult 10 0 true 100 (demo_sign 3 100 10 0 true 100))
          = (demo_started, Reverted f))
  ∧ (∃ f, transact demo_crypto (at_time 2 1010) demo_started
            (SubmitResult 10 0 true 100 (demo_sign 4 100 10 0 true 100))
          = (demo_started, Reverted f)).
Proof.
  split; [|split].
  - apply (proj1 (submitResult_needs_relay_and_judge demo_crypto (at_time 2 1010)
                    demo_started 10 0 true 100 (demo_sign 3 100 10 0 true 100))
             demo_first_solve).
    vm_compute. reflexivity.
  - apply (proj1 (proj2 (submitResult_needs_relay_and_judge demo_crypto (at_time 10 1010)
                    demo_started 10 0 true 100 (demo_sign 3 100 10 0 true 100)))).
    vm_compute. discriminate.
  - apply (proj2 (proj2 (submitResult_needs_relay_and_judge demo_crypto (at_time 2 1010)
                    demo_started 10 0 true 100 (demo_sign 4 100 10 0 true 100)))).
    vm_compute. discriminate.
Defined.

Lemma submitResult_wrong_puzzle_reverts_witness :
  (∃ f, transact demo_crypto (at_time 2 1010) demo_started
          (SubmitResult 10 1 true 100 (demo_sign 3 100 10 1 true 100))
        = (demo_started, Reverted f))
  ∧ ∃ f mid,
      submitResult demo_crypto (at_time 2 1010) 10 1 true 100
        (demo_sign 3 100 10 1 true 100) demo_started
      = Fail f mid
      ∧ (f = Revert "Wrong puzzle index" ∨ f = Revert "Puzzle not active")
      ∧ allPlayers mid = allPlayers demo_started ++ [10]
      ∧ isActivePlayer (stats_of mid 10) = true
      ∧ allPlayers demo_started ≠ allPlayers mid.
Proof.
  destruct (submitResult_wrong_puzzle_reverts demo_crypto (at_time 2 1010) demo_started
              10 1 true 100 (demo_sign 3 100 10 1 true 100)) as [Hrevert Hmid].
  { left. vm_compute. discriminate. }
  split; [exact Hrevert |]. apply Hmid.
  - repeat split; vm_compute; congruence.
  - vm_compute. reflexivity.
  - vm_compute. reflexivity.
  - vm_compute. reflexivity.
Defined.

Lemma submission_and_final_windows_disjoint_witness :
  (gameState demo_started = ACTIVE
   ∧ block_timestamp (at_time 2 1010)
     ≤ gameStartTimestamp demo_started + gameDuration demo_started)
  ∧ (gameState demo_ended = ENDED
     ∨ gameStartTimestamp demo_ended + gameDuration demo_ended
       < block_timestamp (at_time 50 1200))
  ∧ (gameState demo_ranked = ENDED
     ∨ gameStartTimestamp demo_ranked + gameDuration demo_ranked
       < block_timestamp (at_time 10 1300)).
Proof.
  split; [|split].
  - apply (proj1 (submission_and_final_windows_disjoint demo_crypto (at_time 2 1010)
                    demo_started 10 0 true 100 (demo_sign 3 100 10 0 true 100))).
    vm_compute. reflexivity.
  - apply (proj1 (proj2 (submission_and_final_windows_disjoint demo_crypto
                    (at_time 50 1200) demo_ended 10 0 true 100 []))).
    vm_compute. reflexivity.
  - apply (proj1 (proj2 (proj2 (submission_and_final_windows_disjoint demo_crypto
                    (at_time 10 1300) demo_ranked 10 0 true 100 [])))).
    vm_compute. reflexivity.
Defined.

Lemma finalizeRanks_empty_roster_reverts_witness :
  transact demo_crypto (at_time 50 2000) demo_started FinalizeRanks
  = (demo_started, Reverted (Panic 50)).
Proof.
  apply (proj2 (finalizeRanks_empty_roster_reverts demo_crypto (at_time 50 2000)
                  demo_started eq_refl)).
  right. split; vm_compute; congruence.
Defined.

(** Ranks can skip numbers: two tied winners, then rank 3. *)
Lemma finalizeRanks_competition_ranks_witness :
  rank_of demo_ranked 10 = 1
  ∧ rank_of demo_ranked 11 = rank_of demo_ranked 10
  ∧ rank_of demo_ranked 12 = 3.
Proof.
  destruct (proj1 (finalizeRanks_competition_ranks demo_crypto) (at_time 50 1200)
              demo_ended demo_ranked)
    as (_ & _ & _ & Hbest & Hnext & Hties).
  { vm_compute. reflexivity. }
  split; [|split].
  - apply Hbest. vm_compute. reflexivity.
  - apply Hties;
      [ apply list_elem_of_lookup; exists 1%nat; vm_compute; reflexivity
      | apply list_elem_of_lookup; exists 0%nat; vm_compute; reflexivity
      | vm_compute; reflexivity .. ].
  - rewrite (Hnext 1%nat 12 11); vm_compute; reflexivity.
Defined.

Lemma finalizeRanks_twice_same_ranks_witness :
  ∃ st2, transact demo_crypto (at_time 60 1300) demo_ranked FinalizeRanks = (st2, Success)
         ∧ finalRank st2 = finalRank demo_ranked.
Proof.
  apply (finalizeRanks_twice_same_ranks demo_crypto (at_time 50 1200) (at_time 60 1300)
           demo_ended demo_ranked).
  - vm_compute. reflexivity.
  - vm_compute. discriminate.
Defined.

Lemma claimNFT_only_once_witness :
  claimedNFT (stats_of demo_claimed 10) = true
  ∧ _tokenIds demo_claimed = 1
  ∧ transact demo_crypto (at_time 10 1400) demo_claimed ClaimNFT
    = (demo_claimed, Reverted (Revert "Already claimed NFT")).
Proof.
  destruct (claimNFT_only_once demo_crypto (at_time 10 1300) demo_ranked demo_claimed)
    as (_ & Hclaimed & (Hid & _) & Hlater).
  { exists 1, 100, "https://my-base-uri/"%string,
      (demo_setup ++ demo_play ++ demo_finish). reflexivity. }
  { vm_compute. reflexivity. }
  split; [exact Hclaimed |]. split; [rewrite Hid; vm_compute; reflexivity |].
  pose proof (proj2 (Hlater [] (at_time 10 1400) eq_refl)) as Hagain.
  rewrite execute_nil in Hagain. apply Hagain. vm_compute. discriminate.
Defined.

Lemma puzzles_never_deactivated_witness :
  active (puzzle_of (execute demo_crypto demo_puzzle_set demo_rest) 0) = true
  ∧ puzzles (execute demo_crypto demo_init demo_unset) !! 0 = None.
Proof.
  destruct (puzzles_never_deactivated demo_crypto) as (_ & Hstays & Hunset).
  split.
  - apply (Hstays (at_time 1 1000) demo_configured 0 77 10 demo_puzzle_set demo_rest).
    vm_compute. reflexivity.
  - apply (Hunset 1 100 "https://my-base-uri/"%string demo_unset (at_time 2 1010)
             10 0 true 100 (demo_sign 3 100 10 0 true 100)).
    vm_compute. reflexivity.
Defined.

(** * Further properties of the contract *)

Lemma demo_reachable txs : reachable demo_crypto (execute demo_crypto demo_init txs).
Proof. by exists 1, 100, "https://my-base-uri/"%string, txs. Qed.

(** ** Who may call what *)

Lemma onlyOwner_Ok env st u st' :
  onlyOwner env st = Ok u st' → msg_sender env = owner st ∧ st' = st.
Proof. unfold onlyOwner. intros H. minv. bool_props. done. Qed.

Lemma transact_guard (crypto : Crypto) env st c st' :
  transact crypto env st c = (st', Success) → call_guard env st c.
Proof.
  intros H. destruct c; cbn [call_guard]; try done.
  1-7: apply transact_Success in H; cbn [dispatch] in H.
  - unfold setPuzzleCreator in H. minv. by apply onlyOwner_Ok in H0 as [? _].
  - unfold setAvsAddress in H. minv. by apply onlyOwner_Ok in H0 as [? _].
  - unfold setAvsSigner in H. minv. by apply onlyOwner_Ok in H0 as [? _].
  - unfold startGame in H.
    apply bind_Ok in H as (? & ? & H0 & _). by apply onlyOwner_Ok in H0 as [? _].
  - unfold endGame in H.
    apply bind_Ok in H as (? & ? & H0 & _). by apply onlyOwner_Ok in H0 as [? _].
  - unfold transferOwnership in H.
    apply bind_Ok in H as (? & ? & H0 & _). by apply onlyOwner_Ok in H0 as [? _].
  - unfold renounceOwnership in H.
    apply bind_Ok in H as (? & ? & H0 & _). by apply onlyOwner_Ok in H0 as [? _].
  - apply transact_Success in H. cbn [dispatch] in H.
    unfold setPuzzleHash, onlyPuzzleCreator in H.
    apply bind_Ok in H as (? & ? & H0 & _). minv. bool_props.
    destruct H as [?|?%bool_decide_eq_true]; auto.
  - apply submit_Success, submitResult_Ok in H. tauto.
Qed.

(** X1: A successful call that changes the relay address, the judge key, the
    set of puzzle creators, the game state, the start time or the duration
    was sent by the owner. *)
Theorem roles_and_lifecycle_are_owner_only (crypto : Crypto) env st c st' :
  transact crypto env st c = (st', Success) →
  avsAddress st' ≠ avsAddress st ∨ avsSigner st' ≠ avsSigner st
  ∨ puzzleCreators st' ≠ puzzleCreators st ∨ gameState st' ≠ gameState st
  ∨ gameStartTimestamp st' ≠ gameStartTimestamp st
  ∨ gameDuration st' ≠ gameDuration st →
  msg_sender env = owner st.
Proof.
  intros H Hchg. pose proof (transact_guard crypto env st c st' H) as Hg.
  effect_cases H; cbn in Hg; try done; cbn in Hchg;
    by repeat (destruct Hchg as [Hchg|Hchg]; [done |]).
Qed.

Lemma roles_and_lifecycle_are_owner_only_witness :
  msg_sender (at_time 1 1000) = owner demo_puzzle_set.
Proof.
  apply (roles_and_lifecycle_are_owner_only demo_crypto (at_time 1 1000) demo_puzzle_set
           (StartGame 300) demo_started).
  - vm_compute. reflexivity.
  - do 3 right. left. vm_compute. discriminate.
Defined.

(** X2: A successful call that changes the puzzle table or the puzzle count
    is a setPuzzleHash sent by a puzzle creator or by the owner. *)
Theorem puzzle_table_is_creator_only (crypto : Crypto) env st c st' :
  transact crypto env st c = (st', Success) →
  puzzles st' ≠ puzzles st ∨ puzzleCount st' ≠ puzzleCount st →
  (is_creator st (msg_sender env) = true ∨ msg_sender env = owner st)
  ∧ ∃ i h p, c = SetPuzzleHash i h p.
Proof.
  intros H Hchg. pose proof (transact_guard crypto env st c st' H) as Hg.
  effect_cases H; cbn in Hg; cbn in Hchg;
    try (by destruct Hchg as [Hchg|Hchg]).
  split; [done |]. by do 3 eexists.
Qed.

Lemma puzzle_table_is_creator_only_witness :
  (is_creator demo_configured (msg_sender (at_time 1 1000)) = true
   ∨ msg_sender (at_time 1 1000) = owner demo_configured)
  ∧ ∃ i h p, SetPuzzleHash 0 77 10 = SetPuzzleHash i h p.
Proof.
  apply (puzzle_table_is_creator_only demo_crypto (at_time 1 1000) demo_configured
           (SetPuzzleHash 0 77 10) demo_puzzle_set).
  - vm_compute. reflexivity.
  - right. vm_compute. discriminate.
Defined.

(** X3: Each part of the game data has its own writers.  Player stats change
    only through a submission by the relay while the game is running, or
    through a claim once it is over; the roster changes only through such a
    submission, which appends the submitted player; ranks change only through
    finalizeRanks once the game is over; the token counter changes only
    through a claim once the game is over.  (The owner table of the tokens is
    left out: the transfer functions the contract inherits write it too.) *)
Theorem game_data_writers (crypto : Crypto) env st c st' :
  transact crypto env st c = (st', Success) →
  (playerStats st' ≠ playerStats st →
     (active_in_time env st ∧ msg_sender env = avsAddress st
      ∧ ∃ player i correct t sig, c = SubmitResult player i correct t sig)
     ∨ (ended_or_expired env st ∧ c = ClaimNFT))
  ∧ (allPlayers st' ≠ allPlayers st →
     active_in_time env st ∧ msg_sender env = avsAddress st
     ∧ ∃ player i correct t sig,
         c = SubmitResult player i correct t sig
         ∧ allPlayers st' = allPlayers st ++ [player])
  ∧ (finalRank st' ≠ finalRank st → ended_or_expired env st ∧ c = FinalizeRanks)
  ∧ (_tokenIds st' ≠ _tokenIds st → ended_or_expired env st ∧ c = ClaimNFT).
Proof.
  intros H. pose proof (transact_guard crypto env st c st' H) as Hg.
  effect_cases H; cbn in Hg; cbn; (split; [|split; [|split]]); intros Hne;
    try (by destruct Hne).
  - left. split; [done |]. split; [done |]. by do 5 eexists.
  - split; [done |]. split; [done |]. do 5 eexists. split; [done |].
    by destruct (isActivePlayer (stats_of st player)).
  - done.
  - by right.
  - done.
Qed.

Lemma game_data_writers_witness :
  active_in_time (at_time 2 1010) demo_started
  ∧ msg_sender (at_time 2 1010) = avsAddress demo_started
  ∧ ∃ player i correct t sig,
      SubmitResult 10 0 true 100 (demo_sign 3 100 10 0 true 100)
      = SubmitResult player i correct t sig
      ∧ allPlayers demo_first_solve = allPlayers demo_started ++ [player].
Proof.
  destruct (game_data_writers demo_crypto (at_time 2 1010) demo_started
              (SubmitResult 10 0 true 100 (demo_sign 3 100 10 0 true 100))
              demo_first_solve) as (_ & Hroster & _).
  { vm_compute. reflexivity. }
  apply Hroster. vm_compute. discriminate.
Defined.

(** ** The lifecycle *)

Lemma step_phase (crypto : Crypto) env st c st' :
  transact crypto env st c = (st', Success) →
  (phase (gameState st) ≤ phase (gameState st'))%nat.
Proof.
  intros H. effect_cases H; cbn; try done.
  - match goal with H : gameState _ = _ |- _ => rewrite H end. cbn. lia.
  - match goal with H : gameState _ = _ |- _ => rewrite H end. cbn. lia.
Qed.

Lemma execute_phase (crypto : Crypto) st txs :
  (phase (gameState st) ≤ phase (gameState (execute crypto st txs)))%nat
  ∧ (gameState st ≠ NOT_STARTED →
     gameStartTimestamp (execute crypto st txs) = gameStartTimestamp st
     ∧ gameDuration (execute crypto st txs) = gameDuration st).
Proof.
  split.
  - apply (execute_invariant crypto
             (λ s, (phase (gameState st) ≤ phase (gameState s))%nat)); [|done].
    intros env s c s' Hs H. pose proof (step_phase crypto env s c s' H). lia.
  - intros Hstarted.
    assert (gameState (execute crypto st txs) ≠ NOT_STARTED
            ∧ gameStartTimestamp (execute crypto st txs) = gameStartTimestamp st
            ∧ gameDuration (execute crypto st txs) = gameDuration st) as (_ & ? & ?);
      [|done].
    apply (execute_invariant crypto
             (λ s, gameState s ≠ NOT_STARTED
                   ∧ gameStartTimestamp s = gameStartTimestamp st
                   ∧ gameDuration s = gameDuration st)); [|done].
    intros env s c s' (Hs & Ht & Hd) H.
    destruct (step_timeline crypto env s c s' H Hs) as (? & ? & ? & _).
    repeat split; [done | congruence | congruence].
Qed.

(** X4: Along any history the game state only moves forward (NOT_STARTED,
    ACTIVE, ENDED), and once the game has left NOT_STARTED its start time and
    duration never change again. *)
Theorem lifecycle_never_rewinds (crypto : Crypto) st txs :
  (phase (gameState st) ≤ phase (gameState (execute crypto st txs)))%nat
  ∧ (gameState st ≠ NOT_STARTED →
     gameStartTimestamp (execute crypto st txs) = gameStartTimestamp st
     ∧ gameDuration (execute crypto st txs) = gameDuration st).
Proof. apply execute_phase. Qed.

Lemma startGame_fails_once_started env st d :
  gameState st ≠ NOT_STARTED →
  ∃ f mid, startGame env d st = Fail f mid
           ∧ (msg_sender env = owner st →
              f = Revert (if bool_decide (gameState st = ACTIVE)
                          then "Game is already active"
                          else "Game has already ended")).
Proof.
  intros Hstarted. unfold startGame, onlyOwner. mfwd.
  destruct (decide (owner st = msg_sender env)) as [Heq|Hne].
  - rewrite bool_decide_eq_true_2 by done. mfwd.
    destruct (gameState st) eqn:Hgs; [done | |].
    + rewrite (bool_decide_eq_true_2 (ACTIVE = ACTIVE)) by done. mfwd. eauto.
    + rewrite (bool_decide_eq_false_2 (ENDED = ACTIVE)) by done. mfwd.
      rewrite (bool_decide_eq_true_2 (ENDED = ENDED)) by done. mfwd. eauto.
  - rewrite bool_decide_eq_false_2 by done. mfwd.
    do 2 eexists. split; [done |]. congruence.
Qed.

(** X5: startGame succeeds only for the owner of a game that has not
    started; whatever is called afterwards, the game is never NOT_STARTED
    again, its start time stays the block time of that call and its duration
    stays the duration given, and every further startGame reverts (for the
    owner with the reason that the game is already active, or has already
    ended). *)
Theorem startGame_only_once (crypto : Crypto) env st d st' :
  transact crypto env st (StartGame d) = (st', Success) →
  (msg_sender env = owner st ∧ gameState st = NOT_STARTED)
  ∧ ∀ txs,
      gameState (execute crypto st' txs) ≠ NOT_STARTED
      ∧ gameStartTimestamp (execute crypto st' txs) = block_timestamp env
      ∧ gameDuration (execute crypto st' txs) = d
      ∧ ∀ env2 d2,
          ∃ f, transact crypto env2 (execute crypto st' txs) (StartGame d2)
               = (execute crypto st' txs, Reverted f)
               ∧ (msg_sender env2 = owner (execute crypto st' txs) →
                  f = Revert "Game is already active"
                  ∨ f = Revert "Game has already ended").
Proof.
  intros H. pose proof (transact_guard crypto env st _ st' H) as Hg. cbn in Hg.
  effect_cases H. split; [done |]. intros txs.
  match goal with |- context [execute crypto ?s txs] => set (s1 := s) end.
  destruct (execute_phase crypto s1 txs) as [Hphase Hwindow].
  destruct (Hwindow ltac:(done)) as [Hs Hd].
  assert (Hstarted : gameState (execute crypto s1 txs) ≠ NOT_STARTED).
  { intros Heq. rewrite Heq in Hphase. cbn in Hphase. lia. }
  repeat split; [done | by rewrite Hs | by rewrite Hd |].
  intros env2 d2.
  destruct (startGame_fails_once_started env2 (execute crypto s1 txs) d2 Hstarted)
    as (f & mid & Hfail & Hreason).
  exists f. split.
  - unfold transact, dispatch. by rewrite Hfail.
  - intros Howner. rewrite (Hreason Howner). case_bool_decide; auto.
Qed.

Lemma startGame_only_once_witness :
  gameStartTimestamp (execute demo_crypto demo_started demo_play)
  = block_timestamp (at_time 1 1000)
  ∧ gameDuration (execute demo_crypto demo_started demo_play) = 300.
Proof.
  destruct (startGame_only_once demo_crypto (at_time 1 1000) demo_puzzle_set 300
              demo_started) as [_ Hlater].
  { vm_compute. reflexivity. }
  destruct (Hlater demo_play) as (_ & Hs & Hd & _). split; [exact Hs | exact Hd].
Defined.

(** ** Once the game is over *)

Lemma execute_invariant_when (crypto : Crypto) (Q : Env → Prop) (P : State → Prop)
    st txs :
  (∀ env s c s', Q env → P s → transact crypto env s c = (s', Success) → P s') →
  P st → Forall (λ tx, Q tx.1) txs → P (execute crypto st txs).
Proof.
  intros Hstep. revert st. induction txs as [|[env c] txs IH]; intros st HP HQ; [done |].
  apply Forall_cons in HQ as [Hq HQ]. cbn. apply IH; [|done].
  destruct (transact_cases crypto env st c) as [[st' H]|[f H]]; rewrite H; cbn; eauto.
Qed.

Lemma step_standing_frozen (crypto : Crypto) env st c st' :
  transact crypto env st c = (st', Success) →
  ¬ active_in_time env st →
  allPlayers st' = allPlayers st ∧ ∀ p, standing st' p = standing st p.
Proof.
  intros H Hover. effect_cases H; try done.
  split; [done |]. intros p. unfold standing, stats_of. cbn.
  rewrite lookup_insert. case_decide; by subst.
Qed.

Lemma submit_fails_when_not_active (crypto : Crypto) env st player i correct t sig :
  gameState st ≠ ACTIVE →
  transact crypto env st (SubmitResult player i correct t sig)
  = (st, Reverted (Revert "Game is not active")).
Proof.
  intros Hgs. unfold transact, dispatch, submitResult, onlyWhenActive. mfwd.
  by rewrite bool_decide_eq_false_2.
Qed.

(** X6: endGame succeeds only for the owner of an active game; whatever is
    called afterwards, the game stays ENDED, the roster and every player's
    score, puzzle index and last solve time stay as they were, and every
    submission reverts with the reason that the game is not active. *)
Theorem endGame_is_final (crypto : Crypto) env st st' :
  transact crypto env st EndGame = (st', Success) →
  (msg_sender env = owner st ∧ gameState st = ACTIVE)
  ∧ ∀ txs,
      gameState (execute crypto st' txs) = ENDED
      ∧ allPlayers (execute crypto st' txs) = allPlayers st
      ∧ (∀ p, standing (execute crypto st' txs) p = standing st p)
      ∧ (∀ env2 player i correct t sig,
           transact crypto env2 (execute crypto st' txs)
             (SubmitResult player i correct t sig)
           = (execute crypto st' txs, Reverted (Revert "Game is not active"))).
Proof.
  intros H. pose proof (transact_guard crypto env st _ st' H) as Hg. cbn in Hg.
  effect_cases H. split; [done |]. intros txs.
  match goal with |- context [execute crypto ?s txs] => set (s1 := s) end.
  assert (Hinv : gameState (execute crypto s1 txs) = ENDED
                 ∧ allPlayers (execute crypto s1 txs) = allPlayers st
                 ∧ ∀ p, standing (execute crypto s1 txs) p = standing st p).
  { apply (execute_invariant crypto
             (λ s, gameState s = ENDED ∧ allPlayers s = allPlayers st
                   ∧ ∀ p, standing s p = standing st p)); [|done].
    intros e s c s' (Hgs & Hroster & Hstand) Hstep.
    destruct (step_timeline crypto e s c s' Hstep) as (_ & _ & _ & Hended);
      [by rewrite Hgs |].
    destruct (step_standing_frozen crypto e s c s' Hstep) as [Hr Hs].
    { intros (Hact & _). congruence. }
    repeat split; [auto | congruence |]. intros p. by rewrite Hs. }
  destruct Hinv as (Hgs & Hroster & Hstand). repeat split; [done..|].
  intros env2 player i correct t sig.
  apply submit_fails_when_not_active. by rewrite Hgs.
Qed.

Lemma endGame_is_final_witness :
  transact demo_crypto (at_time 2 1150)
    (execute demo_crypto demo_ended [(at_time 50 1200, FinalizeRanks)])
    (SubmitResult 12 1 true 10 (demo_sign 3 100 12 1 true 10))
  = (execute demo_crypto demo_ended [(at_time 50 1200, FinalizeRanks)],
     Reverted (Revert "Game is not active")).
Proof.
  destruct (endGame_is_final demo_crypto (at_time 1 1100) demo_played demo_ended)
    as [_ Hlater].
  { vm_compute. reflexivity. }
  destruct (Hlater [(at_time 50 1200, FinalizeRanks)]) as (_ & _ & _ & Hsubmit).
  apply Hsubmit.
Defined.

Lemma for_range_ext {T} lo hi (f g : nat → T → T) s :
  (∀ i x, f i x = g i x) → for_range lo hi f s = for_range lo hi g s.
Proof.
  intros Hfg. unfold for_range. generalize (seq lo (hi - lo)). intros l.
  revert s. induction l as [|i l IH]; intros s; [done |]. cbn. by rewrite Hfg, IH.
Qed.

Lemma standing_eq st s p :
  standing s p = standing st p →
  score (stats_of s p) = score (stats_of st p)
  ∧ puzzleIndex (stats_of s p) = puzzleIndex (stats_of st p)
  ∧ lastSolveTime (stats_of s p) = lastSolveTime (stats_of st p).
Proof. unfold standing. by intros [= -> -> ->]. Qed.

Lemma isBetter_ext st s a b :
  (∀ p, standing s p = standing st p) → isBetter s a b = isBetter st a b.
Proof.
  intros H. unfold isBetter.
  destruct (standing_eq st s a (H a)) as (-> & -> & ->).
  by destruct (standing_eq st s b (H b)) as (-> & -> & ->).
Qed.

Lemma areTied_ext st s a b :
  (∀ p, standing s p = standing st p) → areTied s a b = areTied st a b.
Proof.
  intros H. unfold areTied.
  destruct (standing_eq st s a (H a)) as (-> & -> & ->).
  by destruct (standing_eq st s b (H b)) as (-> & -> & ->).
Qed.

Lemma sort_players_ext st s a :
  (∀ p, standing s p = standing st p) → sort_players s a = sort_players st a.
Proof.
  intros H. unfold sort_players. apply for_range_ext. intros i x.
  apply for_range_ext. intros j y. unfold exchange.
  destruct (y !! j) as [pj|]; [|done]. destruct (y !! i) as [pi|]; [|done].
  by rewrite (isBetter_ext st s).
Qed.

Lemma position_rank_ext st s l j :
  (∀ p, standing s p = standing st p) → position_rank s l j = position_rank st l j.
Proof.
  intros H. induction j as [|j IH]; [done |]. cbn [position_rank].
  destruct (l !! S j) as [pk|]; [|done]. destruct (l !! j) as [prev|]; [|done].
  by rewrite (areTied_ext st s), IH.
Qed.

Lemma step_finalRank_other (crypto : Crypto) env st c st' :
  transact crypto env st c = (st', Success) →
  c ≠ FinalizeRanks → finalRank st' = finalRank st.
Proof. intros H Hc. by effect_cases H. Qed.

Lemma finalize_needs_roster (crypto : Crypto) env st st' :
  transact crypto env st FinalizeRanks = (st', Success) → allPlayers st ≠ [].
Proof.
  intros H Hempty. destruct (finalized_state crypto env st st' H) as (_ & b & Hb & _).
  unfold sorted_roster in Hb. by rewrite Hempty in Hb.
Qed.

(** X7: Once finalizeRanks has succeeded on a reachable state, no later
    history (at block times not before that call) changes any rank, the
    roster, or a player's score, puzzle index and last solve time: calling
    finalizeRanks again writes the same ranks. *)
Theorem ranks_are_final (crypto : Crypto) env st st1 txs :
  reachable crypto st →
  transact crypto env st FinalizeRanks = (st1, Success) →
  Forall (λ tx, block_timestamp env ≤ block_timestamp tx.1) txs →
  finalRank (execute crypto st1 txs) = finalRank st1
  ∧ allPlayers (execute crypto st1 txs) = allPlayers st
  ∧ ∀ p, standing (execute crypto st1 txs) p = standing st p.
Proof.
  intros Hreach H Hlater.
  destruct (finalized_state crypto env st st1 H)
    as (Hgate & best & Hbest & Hst1 & Hranks & Hrest).
  assert (Hstarted : gameState st ≠ NOT_STARTED).
  { intros Hgs.
    destruct (reachable_idle_until_started crypto st Hreach Hgs) as [Hroster _].
    by apply (finalize_needs_roster crypto env st st1). }
  pose (J := λ s, gameState s ≠ NOT_STARTED
                  ∧ gameStartTimestamp s = gameStartTimestamp st
                  ∧ gameDuration s = gameDuration st
                  ∧ (gameState st = ENDED → gameState s = ENDED)
                  ∧ allPlayers s = allPlayers st
                  ∧ (∀ p, standing s p = standing st p)
                  ∧ finalRank s = finalRank st1).
  assert (HJ : J (execute crypto st1 txs)).
  { apply (execute_invariant_when crypto
             (λ e, block_timestamp env ≤ block_timestamp e) J); [| |done].
    - intros e s c s' Htime (Hns & Hs & Hd & He & Hroster & Hstand & Hfr) Hstep.
      destruct (step_timeline crypto e s c s' Hstep Hns) as (Hns' & Hs' & Hd' & He').
      assert (Hover : ended_or_expired e s) by eauto using window_stays_open.
      destruct (step_standing_frozen crypto e s c s' Hstep) as [Hr' Hst'].
      { intros Hact. by apply (windows_disjoint e s). }
      repeat split; [done | congruence | congruence | auto | congruence | |].
      + intros p. by rewrite Hst'.
      + assert (c = FinalizeRanks ∨ c ≠ FinalizeRanks) as [->|Hc]
          by (destruct c; auto).
        * destruct (finalized_state crypto e s s' Hstep)
            as (_ & b' & _ & _ & Hranks' & Hrest').
          assert (Hsorted : sorted_roster s = sorted_roster st).
          { unfold sorted_roster. rewrite Hroster. by apply sort_players_ext. }
          rewrite Hsorted in Hranks'. rewrite Hroster in Hrest'.
          destruct (sorted_roster_spec st) as [Hperm _].
          apply map_eq. intros p.
          destruct (decide (p ∈ allPlayers st)) as [Hin|Hout].
          -- rewrite <- Hperm in Hin. apply list_elem_of_lookup in Hin as [j Hj].
             rewrite (Hranks' j p Hj), (Hranks j p Hj).
             by rewrite (position_rank_ext st s).
          -- by rewrite (Hrest' p Hout), Hfr.
        * rewrite (step_finalRank_other crypto e s c s' Hstep Hc). done.
    - unfold J. rewrite Hst1. repeat split; done. }
  destruct HJ as (_ & _ & _ & _ & ? & ? & ?). done.
Qed.

Lemma ranks_are_final_witness :
  finalRank (execute demo_crypto demo_ranked [(at_time 10 1300, ClaimNFT)])
  = finalRank demo_ranked.
Proof.
  destruct (ranks_are_final demo_crypto (at_time 50 1200) demo_ended demo_ranked
              [(at_time 10 1300, ClaimNFT)]) as (Hranks & _).
  - unfold demo_ended, demo_played, demo_started.
    do 2 apply reachable_execute. apply demo_reachable.
  - vm_compute. reflexivity.
  - constructor; [vm_compute; discriminate | constructor].
  - exact Hranks.
Defined.

(** ** The puzzle registry *)

Lemma setPuzzleHash_Ok env st i h p st' :
  setPuzzleHash env i h p st = Ok tt st' →
  (puzzleCount st ≤ i → i + 1 ≤ MAX_UINT256)
  ∧ st' = set_events (events st ++ [PuzzleHashSet i h p])
            (set_puzzleCount (N.max (puzzleCount st) (i + 1))
               (set_puzzles (<[i := mkPuzzle h p true]> (puzzles st)) st)).
Proof.
  unfold setPuzzleHash, onlyPuzzleCreator. intros H. minv; bool_props.
  all: cbn [puzzleCount set_puzzles] in *.
  - split; [done |]. destruct st; cbn in *. by rewrite N.max_r by lia.
  - split; [lia |]. destruct st; cbn in *. by rewrite N.max_l by lia.
Qed.

Lemma step_count_covers_puzzles (crypto : Crypto) env st c st' :
  count_covers_puzzles st →
  transact crypto env st c = (st', Success) → count_covers_puzzles st'.
Proof.
  intros (Hmax & Hbelow & Htop) H.
  destruct c; try (effect_cases H; by repeat split).
  apply transact_Success in H. cbn [dispatch] in H.
  apply setPuzzleHash_Ok in H as [Hfit ->]. unfold count_covers_puzzles. cbn.
  split; [lia |]. split.
  - intros i. rewrite lookup_insert. case_decide; [subst; lia |].
    intros Hi. specialize (Hbelow i Hi). lia.
  - right. destruct (N.max_spec (puzzleCount st) (puzzleId + 1)) as [[? ->]|[? ->]].
    + replace (puzzleId + 1 - 1) with puzzleId by lia. by rewrite lookup_insert_eq.
    + destruct Htop as [?|Htop]; [lia |].
      rewrite lookup_insert. by case_decide.
Qed.

Lemma reachable_count_covers_puzzles (crypto : Crypto) st :
  reachable crypto st → count_covers_puzzles st.
Proof.
  apply (reachable_invariant crypto count_covers_puzzles).
  - intros deployer self uri. repeat split; cbn; [done | | by left].
    intros i. rewrite lookup_empty. by intros [? ?].
  - intros env s c s'. apply step_count_covers_puzzles.
Qed.

(** X8: In every reachable state the puzzle count fits a uint256, every
    puzzle that was ever set has an id below the count, and the count is zero
    or one past an id that was set. *)
Theorem puzzle_count_covers_registry (crypto : Crypto) st :
  reachable crypto st →
  puzzleCount st ≤ MAX_UINT256
  ∧ (∀ i, is_Some (puzzles st !! i) → i < puzzleCount st)
  ∧ (puzzleCount st = 0 ∨ is_Some (puzzles st !! (puzzleCount st - 1))).
Proof. apply reachable_count_covers_puzzles. Qed.

Lemma puzzle_count_covers_registry_witness :
  puzzleCount demo_ranked ≤ MAX_UINT256
  ∧ (∀ i, is_Some (puzzles demo_ranked !! i) → i < puzzleCount demo_ranked)
  ∧ (puzzleCount demo_ranked = 0
     ∨ is_Some (puzzles demo_ranked !! (puzzleCount demo_ranked - 1))).
Proof.
  apply (puzzle_count_covers_registry demo_crypto demo_ranked). apply demo_reachable.
Defined.

(** X9: Puzzle id 2^256 - 1 can never be set: in every reachable state
    setPuzzleHash with that id reverts, and for a caller who passes the
    creator check it does so with the arithmetic panic 0x11, raised by
    puzzleId + 1. *)
Theorem setPuzzleHash_largest_id_reverts (crypto : Crypto) env st h p :
  reachable crypto st →
  (∃ f, transact crypto env st (SetPuzzleHash MAX_UINT256 h p) = (st, Reverted f))
  ∧ (is_creator st (msg_sender env) = true ∨ msg_sender env = owner st →
     transact crypto env st (SetPuzzleHash MAX_UINT256 h p) = (st, Reverted (Panic 17))).
Proof.
  intros Hreach.
  destruct (reachable_count_covers_puzzles crypto st Hreach) as (Hmax & _ & _).
  split.
  - apply transact_fails. intros st' H. apply transact_Success in H.
    cbn [dispatch] in H. apply setPuzzleHash_Ok in H as [Hfit _].
    specialize (Hfit Hmax). lia.
  - intros Hauth. unfold transact, dispatch, setPuzzleHash, onlyPuzzleCreator. mfwd.
    replace (is_creator st (msg_sender env) || bool_decide (msg_sender env = owner st))
      with true.
    2: { symmetry. apply orb_true_iff. destruct Hauth as [?|?]; [by left |].
         right. by apply bool_decide_eq_true. }
    mfwd. cbn [puzzleCount set_puzzles].
    apply N.leb_le in Hmax. rewrite Hmax. mfwd.
    unfold checked_add. 
    replace (MAX_UINT256 + 1 <=? MAX_UINT256) with false
      by (symmetry; apply N.leb_gt; lia).
    mfwd. done.
Qed.

Lemma setPuzzleHash_largest_id_reverts_witness :
  transact demo_crypto (at_time 1 1000) demo_started (SetPuzzleHash MAX_UINT256 77 10)
  = (demo_started, Reverted (Panic 17)).
Proof.
  destruct (setPuzzleHash_largest_id_reverts demo_crypto (at_time 1 1000) demo_started
              77 10) as [_ Hpanic].
  { apply demo_reachable. }
  apply Hpanic. right. vm_compute. reflexivity.
Defined.

(** X10: setPuzzleHash overwrites one entry and leaves every other puzzle, the
    game state and all player stats alone: it may be called during the game
    and on an id that is already set, and a correct solve of that id
    submitted afterwards is awarded the new base points plus the time bonus. *)
Theorem setPuzzleHash_reprices_next_solve (crypto : Crypto) env1 env2 st st1 st2
    player i h p t sig :
  transact crypto env1 st (SetPuzzleHash i h p) = (st1, Success) →
  transact crypto env2 st1 (SubmitResult player i true t sig) = (st2, Success) →
  puzzle_of st1 i = mkPuzzle h p true
  ∧ (∀ j, j ≠ i → puzzle_of st1 j = puzzle_of st j)
  ∧ gameState st1 = gameState st
  ∧ playerStats st1 = playerStats st
  ∧ score (stats_of st2 player) = score (stats_of st player) + (p + t / 60).
Proof.
  intros H1 H2. apply transact_Success in H1. cbn [dispatch] in H1.
  apply setPuzzleHash_Ok in H1 as [_ Hst1].
  assert (Hpz : puzzle_of st1 i = mkPuzzle h p true).
  { rewrite Hst1. unfold puzzle_of. cbn. by rewrite lookup_insert_eq. }
  destruct (submitResult_Ok crypto env2 st1 player i true t sig st2
              (submit_Success crypto env2 st1 player i true t sig st2 H2))
    as (_ & _ & _ & _ & _ & ->).
  rewrite stats_of_submitted, decide_True by done. cbn. rewrite Hpz. cbn.
  split; [done |]. split.
  { intros j Hj. rewrite Hst1. unfold puzzle_of. cbn. by rewrite lookup_insert_ne. }
  by rewrite Hst1.
Qed.

Lemma setPuzzleHash_reprices_next_solve_witness :
  score (stats_of demo_repriced_solve 10)
  = score (stats_of demo_started 10) + (50 + 100 / 60).
Proof.
  destruct (setPuzzleHash_reprices_next_solve demo_crypto (at_time 1 1005)
              (at_time 2 1010) demo_started demo_repriced demo_repriced_solve
              10 0 77 50 100 (demo_sign 3 100 10 0 true 100))
    as (_ & _ & _ & _ & Hscore).
  { vm_compute. reflexivity. }
  { vm_compute. reflexivity. }
  exact Hscore.
Defined.

(** ** The roster *)

Lemma step_roster_is_exact (crypto : Crypto) env st c st' :
  roster_is_exact st →
  transact crypto env st c = (st', Success) → roster_is_exact st'.
Proof.
  intros (Hnodup & Hact & Hout) H.
  destruct c; try (effect_cases H; done).
  - (* submitResult *)
    apply submit_Success, submitResult_Ok in H as (_ & _ & _ & _ & _ & ->).
    set (s' := scored _ _ _ _ _).
    assert (Hs' : isActivePlayer s' = true) by (unfold s', scored; by destruct correct).
    assert (Hroster : ∀ p,
      p ∈ (if isActivePlayer (stats_of st player)
           then allPlayers st else allPlayers st ++ [player])
      ↔ p = player ∨ p ∈ allPlayers st).
    { intros p. destruct (isActivePlayer (stats_of st player)) eqn:Hp.
      - split; [auto |]. intros [->|?]; [by apply Hact | done].
      - rewrite elem_of_app, list_elem_of_singleton. tauto. }
    unfold roster_is_exact.
    cbn [allPlayers set_events set_allPlayers set_playerStats playerStats finalRank].
    split; [|split].
    + destruct (isActivePlayer (stats_of st player)) eqn:Hp; [done |].
      apply NoDup_app. split; [done |]. split; [|apply NoDup_singleton].
      intros p Hin ->%list_elem_of_singleton.
      apply Hact in Hin. congruence.
    + intros p. rewrite Hroster, stats_of_submitted.
      case_decide; [subst; tauto |]. fold (stats_of st p).
      rewrite <- (Hact p). split; [intros [?|?]; [congruence | done] | auto].
    + intros p. rewrite Hroster. intros Hp.
      assert (p ≠ player) by (intros ->; apply Hp; auto).
      rewrite lookup_insert_ne by done. apply Hout. intros ?. apply Hp. auto.
  - (* finalizeRanks *)
    effect_cases H. unfold roster_is_exact. cbn [allPlayers set_events set_finalRank playerStats].
    split; [done |]. split; [done |]. intros p Hp.
    destruct (Hout p Hp) as [Hs Hr]. split; [done |].
    match goal with H : ∀ p, _ ∉ _ → _ |- _ => by rewrite (H p Hp) end.
  - (* claimNFT *)
    effect_cases H.
    assert (Hme : msg_sender env ∈ allPlayers st).
    { destruct (decide (msg_sender env ∈ allPlayers st)) as [?|Hno]; [done |].
      destruct (Hout _ Hno) as [_ Hr]. unfold rank_of in *. rewrite Hr in *.
      cbn in *. lia. }
    unfold roster_is_exact. cbn [allPlayers set_events set_erc721_owners
      set_erc721_balances set_tokenIds set_playerStats playerStats finalRank].
    split; [done |]. split.
    + intros p. unfold stats_of at 1. cbn [playerStats set_events set_erc721_owners
        set_erc721_balances set_tokenIds set_playerStats].
      rewrite lookup_insert. case_decide; [subst; cbn; by rewrite <- Hact |].
      apply Hact.
    + intros p Hp. assert (msg_sender env ≠ p) by congruence.
      rewrite lookup_insert_ne by done. by apply Hout.
Qed.

Lemma reachable_roster_is_exact (crypto : Crypto) st :
  reachable crypto st → roster_is_exact st.
Proof.
  apply (reachable_invariant crypto roster_is_exact).
  - intros deployer self uri. unfold roster_is_exact, stats_of. cbn.
    split; [apply NoDup_nil_2 |]. split.
    + intros p. rewrite lookup_empty. cbn. split; [by intros ?%elem_of_nil | done].
    + intros p _. by rewrite !lookup_empty.
  - intros env s c s'. apply step_roster_is_exact.
Qed.

(** X11: In every reachable state the roster has no duplicates, lists exactly
    the players whose stats are marked active, and a player who is not on it
    has all-zero stats and no rank. *)
Theorem roster_lists_active_players_once (crypto : Crypto) st :
  reachable crypto st →
  NoDup (allPlayers st)
  ∧ (∀ p, p ∈ allPlayers st ↔ isActivePlayer (stats_of st p) = true)
  ∧ (∀ p, p ∉ allPlayers st → stats_of st p = zero_stats ∧ rank_of st p = 0).
Proof.
  intros (Hnodup & Hact & Hout)%reachable_roster_is_exact.
  split; [done |]. split; [done |]. intros p Hp.
  destruct (Hout p Hp) as [Hs Hr]. unfold stats_of, rank_of. by rewrite Hs, Hr.
Qed.

Lemma roster_lists_active_players_once_witness :
  NoDup (allPlayers demo_played)
  ∧ (∀ p, p ∈ allPlayers demo_played ↔ isActivePlayer (stats_of demo_played p) = true)
  ∧ (∀ p, p ∉ allPlayers demo_played →
          stats_of demo_played p = zero_stats ∧ rank_of demo_played p = 0).
Proof.
  apply (roster_lists_active_players_once demo_crypto demo_played).
  unfold demo_played, demo_started. apply reachable_execute, demo_reachable.
Defined.

Lemma step_roster_grows (crypto : Crypto) env st c st' :
  transact crypto env st c = (st', Success) →
  allPlayers st `prefix_of` allPlayers st'.
Proof.
  intros H. effect_cases H; try done.
  cbn. destruct (isActivePlayer (stats_of st player)); [done |].
  by apply prefix_app_r.
Qed.

(** X12: Along any history the roster only grows at its end: the old roster is
    a prefix of the new one, and getPlayerCount never decreases. *)
Theorem roster_only_grows (crypto : Crypto) st txs :
  allPlayers st `prefix_of` allPlayers (execute crypto st txs)
  ∧ getPlayerCount st ≤ getPlayerCount (execute crypto st txs).
Proof.
  assert (Hprefix : allPlayers st `prefix_of` allPlayers (execute crypto st txs)).
  { apply (execute_invariant crypto (λ s, allPlayers st `prefix_of` allPlayers s));
      [|done].
    intros env s c s' Hs H. etrans; [done |]. by apply (step_roster_grows crypto env s c). }
  split; [done |]. unfold getPlayerCount.
  apply prefix_length in Hprefix. lia.
Qed.

Lemma claim_unranked_reverts env st :
  ended_or_expired env st →
  rank_of st (msg_sender env) = 0 →
  ∃ mid, claimNFT env st
         = Fail (Revert "Rank not assigned yet. finalizeRanks first.") mid.
Proof.
  intros Hgate Hrank. unfold claimNFT.
  rewrite (bind_Ok_l _ _ _ _ _ (game_over_pass env st Hgate)). mfwd.
  rewrite Hrank. cbn. mfwd. eauto.
Qed.

(** X13: In every reachable state claimNFT reverts for a caller who is not on
    the roster; once the game is over the reason is that no rank was
    assigned. *)
Theorem outsider_cannot_claim (crypto : Crypto) env st :
  reachable crypto st →
  msg_sender env ∉ allPlayers st →
  (∃ f, transact crypto env st ClaimNFT = (st, Reverted f))
  ∧ (ended_or_expired env st →
     transact crypto env st ClaimNFT
     = (st, Reverted (Revert "Rank not assigned yet. finalizeRanks first."))).
Proof.
  intros (_ & _ & Hout)%reachable_roster_is_exact Hme.
  destruct (Hout _ Hme) as [_ Hr].
  assert (Hrank : rank_of st (msg_sender env) = 0) by (unfold rank_of; by rewrite Hr).
  split.
  - apply transact_fails. intros st' H%claim_Success%claimNFT_Ok. cbv zeta in H.
    destruct H as (_ & Hpos & _). lia.
  - intros Hgate. destruct (claim_unranked_reverts env st Hgate Hrank) as [mid Hfail].
    unfold transact, dispatch. by rewrite Hfail.
Qed.

Lemma outsider_cannot_claim_witness :
  transact demo_crypto (at_time 50 1300) demo_ranked ClaimNFT
  = (demo_ranked, Reverted (Revert "Rank not assigned yet. finalizeRanks first.")).
Proof.
  destruct (outsider_cannot_claim demo_crypto (at_time 50 1300) demo_ranked)
    as [_ Hreason].
  { apply demo_reachable. }
  { apply (bool_decide_unpack _). vm_compute. exact I. }
  apply Hreason. left. vm_compute. reflexivity.
Defined.

(** ** Progress through the puzzles *)

Lemma step_progress (crypto : Crypto) env st c st' p :
  transact crypto env st c = (st', Success) →
  puzzleIndex (stats_of st p) ≤ puzzleIndex (stats_of st' p).
Proof.
  intros H. destruct c; try (effect_cases H; done).
  - apply submit_Success, submitResult_Ok in H as (_ & _ & _ & _ & _ & ->).
    rewrite stats_of_submitted. case_decide; [subst | done].
    unfold scored. destruct correct; cbn; lia.
  - effect_cases H. unfold stats_of at 2. cbn. rewrite lookup_insert.
    case_decide; [subst | done]. done.
Qed.

Lemma execute_progress (crypto : Crypto) st txs p :
  puzzleIndex (stats_of st p) ≤ puzzleIndex (stats_of (execute crypto st txs) p).
Proof.
  apply (execute_invariant crypto
           (λ s, puzzleIndex (stats_of st p) ≤ puzzleIndex (stats_of s p))); [|done].
  intros env s c s' Hs H. pose proof (step_progress crypto env s c s' p H). lia.
Qed.

(** X14: After a correct solve of puzzle i by a player was accepted, that
    player's puzzle index stays above i along any history, and every later
    submission for that player and a puzzle id up to i reverts. *)
Theorem solved_puzzle_cannot_be_resubmitted (crypto : Crypto) env st st1
    player i t sig :
  transact crypto env st (SubmitResult player i true t sig) = (st1, Success) →
  ∀ txs env2 i2 correct2 t2 sig2,
    i2 ≤ i →
    i < puzzleIndex (stats_of (execute crypto st1 txs) player)
    ∧ ∃ f, transact crypto env2 (execute crypto st1 txs)
             (SubmitResult player i2 correct2 t2 sig2)
           = (execute crypto st1 txs, Reverted f).
Proof.
  intros H txs env2 i2 correct2 t2 sig2 Hle.
  destruct (submitResult_Ok crypto env st player i true t sig st1
              (submit_Success crypto env st player i true t sig st1 H))
    as (_ & _ & _ & Hidx & _ & Hst1).
  assert (Hnext : puzzleIndex (stats_of st1 player) = i + 1).
  { rewrite Hst1, stats_of_submitted, decide_True by done. cbn. lia. }
  pose proof (execute_progress crypto st1 txs player) as Hmono.
  split; [lia |]. apply transact_fails.
  intros st2 H2%submit_Success%submitResult_Ok.
  destruct H2 as (_ & _ & _ & Hidx2 & _). lia.
Qed.

Lemma solved_puzzle_cannot_be_resubmitted_witness :
  0 < puzzleIndex
        (stats_of (execute demo_crypto demo_first_solve [demo_submit 1010 11 0 true 80]) 10)
  ∧ ∃ f,
      transact demo_crypto (at_time 2 1020)
        (execute demo_crypto demo_first_solve [demo_submit 1010 11 0 true 80])
        (SubmitResult 10 0 true 90 (demo_sign 3 100 10 0 true 90))
      = (execute demo_crypto demo_first_solve [demo_submit 1010 11 0 true 80],
         Reverted f).
Proof.
  apply (solved_puzzle_cannot_be_resubmitted demo_crypto (at_time 2 1010) demo_started
           demo_first_solve 10 0 100 (demo_sign 3 100 10 0 true 100)).
  - vm_compute. reflexivity.
  - lia.
Defined.

Lemma step_passed_puzzles_active (crypto : Crypto) env st c st' :
  passed_puzzles_active st →
  transact crypto env st c = (st', Success) → passed_puzzles_active st'.
Proof.
  unfold passed_puzzles_active. intros Hinv H p i.
  destruct c; try (effect_cases H; by apply Hinv).
  - (* setPuzzleHash *)
    intros Hi. apply (step_active crypto env st _ st' i H).
    apply (Hinv p). effect_cases H. done.
  - (* submitResult *)
    apply submit_Success, submitResult_Ok in H as (_ & _ & _ & Hidx & Hact & ->).
    rewrite stats_of_submitted.
    change (puzzle_of (set_events _ _) i) with (puzzle_of st i).
    case_decide; [subst p | by apply Hinv].
    unfold scored. destruct correct; cbn; [|by apply Hinv].
    intros Hi. destruct (decide (i = puzzleIndex (stats_of st player))) as [->|Hne].
    + by rewrite <- Hidx.
    + apply (Hinv player). lia.
  - (* claimNFT *)
    effect_cases H. unfold stats_of at 1. cbn [playerStats set_events set_erc721_owners
      set_erc721_balances set_tokenIds set_playerStats].
    change (puzzle_of (set_events _ _) i) with (puzzle_of st i).
    rewrite lookup_insert. case_decide; [subst; cbn |]; apply Hinv.
Qed.

(** X15: In every reachable state every puzzle id below a player's puzzle
    index is an active entry of the puzzle table, and the puzzle index is at
    most the puzzle count. *)
Theorem passed_puzzles_are_registered (crypto : Crypto) st p :
  reachable crypto st →
  (∀ i, i < puzzleIndex (stats_of st p) → active (puzzle_of st i) = true)
  ∧ puzzleIndex (stats_of st p) ≤ puzzleCount st.
Proof.
  intros Hreach.
  assert (Hinv : passed_puzzles_active st).
  { revert Hreach. apply (reachable_invariant crypto passed_puzzles_active).
    - intros deployer self uri q i. unfold stats_of. cbn. rewrite lookup_empty. cbn. lia.
    - intros env s c s'. apply step_passed_puzzles_active. }
  destruct (reachable_count_covers_puzzles crypto st Hreach) as (_ & Hbelow & _).
  split; [apply Hinv |].
  destruct (N.eq_dec (puzzleIndex (stats_of st p)) 0) as [->|Hpos]; [lia |].
  assert (Hlast : active (puzzle_of st (puzzleIndex (stats_of st p) - 1)) = true)
    by (apply (Hinv p); lia).
  unfold puzzle_of in Hlast.
  destruct (puzzles st !! (puzzleIndex (stats_of st p) - 1)) as [pz|] eqn:Hpz; [|done].
  assert (puzzleIndex (stats_of st p) - 1 < puzzleCount st) by (apply Hbelow; eauto).
  lia.
Qed.

Lemma passed_puzzles_are_registered_witness :
  (∀ i, i < puzzleIndex (stats_of demo_played 10) → active (puzzle_of demo_played i) = true)
  ∧ puzzleIndex (stats_of demo_played 10) ≤ puzzleCount demo_played.
Proof.
  apply (passed_puzzles_are_registered demo_crypto demo_played 10).
  unfold demo_played, demo_started. apply reachable_execute, demo_reachable.
Defined.

Lemma step_solves_before_deadline (crypto : Crypto) env st c st' :
  idle_until_started st →
  solves_before_deadline st →
  transact crypto env st c = (st', Success) → solves_before_deadline st'.
Proof.
  intros Hnone Hinv H. destruct c; try (effect_cases H; exact Hinv);
    destruct Hinv as [Hidle Hle].
  - (* startGame *)
    effect_cases H. split; [cbn; intros; congruence |]. intros p. unfold stats_of. cbn.
    rewrite Hidle by done. rewrite lookup_empty. cbn. lia.
  - (* endGame *)
    effect_cases H. split; [cbn; intros; congruence |]. apply Hle.
  - (* submitResult *)
    apply submit_Success, submitResult_Ok in H as ((Hgs & _ & Hnow) & _ & _ & _ & _ & ->).
    split; [cbn; intros; congruence |]. intros p. rewrite stats_of_submitted.
    cbn [gameStartTimestamp gameDuration set_events set_allPlayers set_playerStats].
    case_decide; [subst p | apply Hle].
    unfold scored. destruct correct; cbn; [done | apply Hle].
  - (* claimNFT *)
    effect_cases H. split.
    + cbn. intros Hgs. destruct (Hnone Hgs) as [_ Hranks].
      unfold rank_of in *. rewrite Hranks, lookup_empty in *. cbn in *. lia.
    + intros p. unfold stats_of at 1. cbn. rewrite lookup_insert.
      case_decide; [subst; cbn |]; apply Hle.
Qed.

(** X16: In every reachable state a player's last solve time is at most the
    start time plus the duration of the game. *)
Theorem solve_times_within_deadline (crypto : Crypto) st p :
  reachable crypto st →
  lastSolveTime (stats_of st p) ≤ gameStartTimestamp st + gameDuration st.
Proof.
  intros Hreach.
  assert (Hinv : idle_until_started st ∧ solves_before_deadline st).
  { revert Hreach.
    apply (reachable_invariant crypto
             (λ s, idle_until_started s ∧ solves_before_deadline s)).
    - intros deployer self uri. split; [done |]. split; [done |].
      intros q. unfold stats_of. cbn. rewrite lookup_empty. cbn. lia.
    - intros env s c s' [Hidle Hs] H. split.
      + by apply (step_idle_until_started crypto env s c).
      + by apply (step_solves_before_deadline crypto env s c). }
  destruct Hinv as [_ [_ Hle]]. apply Hle.
Qed.

Lemma solve_times_within_deadline_witness :
  lastSolveTime (stats_of demo_played 12)
  ≤ gameStartTimestamp demo_played + gameDuration demo_played.
Proof.
  apply (solve_times_within_deadline demo_crypto demo_played 12).
  unfold demo_played, demo_started. apply reachable_execute, demo_reachable.
Defined.

(** ** Ranks as counts *)

Lemma position_rank_le st sorted j p :
  sorted !! j = Some p → position_rank st sorted j ≤ N.of_nat j + 1.
Proof.
  revert p. induction j as [|j IH]; intros p Hp; cbn [position_rank]; [lia |].
  rewrite Hp. destruct (lookup_lt_is_Some_2 sorted j) as [prev Hprev].
  { apply lookup_lt_Some in Hp. lia. }
  rewrite Hprev. destruct (areTied st p prev); [|lia].
  specialize (IH prev Hprev). lia.
Qed.

Lemma isBetter_irrefl st a : isBetter st a a = false.
Proof. apply isBetter_false. rewrite isBetter_spec. lia. Qed.

Lemma isBetter_tied_r st q a b :
  areTied st a b = true → isBetter st q a = isBetter st q b.
Proof.
  intros (Hs & Hi & Ht)%areTied_spec. unfold isBetter. by rewrite Hs, Hi, Ht.
Qed.

Lemma better_iff_before st sorted k j x y :
  sorted_by st sorted →
  sorted !! k = Some x → sorted !! j = Some y →
  isBetter st y x = true ↔ N.of_nat j + 1 < position_rank st sorted k.
Proof.
  intros Hsorted. revert x. induction k as [|k IH]; intros x Hx Hy.
  - cbn [position_rank]. split; [|lia]. intros Hb.
    destruct j as [|j].
    + rewrite Hx in Hy. injection Hy as <-. by rewrite isBetter_irrefl in Hb.
    + rewrite (Hsorted 0%nat (S j) x y) in Hb; [done | lia | done | done].
  - destruct (lookup_lt_is_Some_2 sorted k) as [prev Hprev].
    { apply lookup_lt_Some in Hx. lia. }
    cbn [position_rank]. rewrite Hx, Hprev.
    destruct (areTied st x prev) eqn:Htied.
    + rewrite (isBetter_tied_r st y x prev Htied). by apply IH.
    + assert (Hxp : isBetter st x prev = false).
      { apply (Hsorted k (S k) prev x); [lia | done | done]. }
      split.
      * intros Hb. destruct (decide (j ≤ k)%nat); [lia |].
        destruct (decide (j = S k)) as [->|Hne].
        -- rewrite Hx in Hy. injection Hy as <-. by rewrite isBetter_irrefl in Hb.
        -- rewrite (Hsorted (S k) j x y) in Hb; [done | lia | done | done].
      * intros Hj. assert (j ≤ k)%nat by lia.
        assert (Hpy : isBetter st prev y = false).
        { destruct (decide (j = k)) as [->|Hne].
          - rewrite Hprev in Hy. injection Hy as <-. apply isBetter_irrefl.
          - apply (Hsorted j k y prev); [lia | done | done]. }
        assert (Hxy : isBetter st x y = false).
        { apply (Hsorted j (S k) y x); [lia | done | done]. }
        destruct (isBetter st y x) eqn:Hyx; [done |].
        exfalso. revert Htied Hxp Hpy Hxy Hyx.
        rewrite !isBetter_false, !isBetter_spec.
        rewrite <- not_true_iff_false, areTied_spec. lia.
Qed.

Lemma filter_prefix_length {A} (P : A → Prop) `{!∀ x, Decision (P x)} (l : list A) m :
  (∀ j y, l !! j = Some y → P y ↔ (j < m)%nat) →
  (m ≤ length l)%nat →
  length (filter P l) = m.
Proof.
  revert m. induction l as [|a l IH]; intros m Hiff Hm.
  - cbn in *. lia.
  - destruct m as [|m].
    + rewrite filter_cons_False.
      * apply IH; [|lia]. intros j y Hj.
        rewrite (Hiff (S j) y Hj). lia.
      * rewrite (Hiff 0%nat a eq_refl). lia.
    + rewrite filter_cons_True.
      * cbn. f_equal. apply IH; [|cbn in Hm; lia]. intros j y Hj.
        rewrite (Hiff (S j) y Hj). lia.
      * rewrite (Hiff 0%nat a eq_refl). lia.
Qed.

Lemma better_count st sorted k x :
  sorted_by st sorted → sorted !! k = Some x →
  position_rank st sorted k
  = 1 + N.of_nat (length (filter (λ q, isBetter st q x = true) sorted)).
Proof.
  intros Hsorted Hx.
  pose proof (position_rank_pos st sorted k x Hx) as Hpos.
  pose proof (position_rank_le st sorted k x Hx) as Hle.
  assert (Hk : (k < length sorted)%nat) by eauto using lookup_lt_Some.
  rewrite (filter_prefix_length _ sorted (N.to_nat (position_rank st sorted k) - 1)).
  - lia.
  - intros j y Hy. rewrite (better_iff_before st sorted k j x y) by done. lia.
  - lia.
Qed.

(** X17: After a successful finalizeRanks the rank of a player on the roster
    is one plus the number of roster entries that isBetter puts strictly
    before that player, in the storage the call started from. *)
Theorem rank_is_one_plus_better_players (crypto : Crypto) env st st' p :
  transact crypto env st FinalizeRanks = (st', Success) →
  p ∈ allPlayers st →
  rank_of st' p
  = 1 + N.of_nat (length (filter (λ q, isBetter st q p = true) (allPlayers st))).
Proof.
  intros H Hp.
  destruct (finalized_state crypto env st st' H) as (_ & _ & _ & _ & Hranks & _).
  destruct (sorted_roster_spec st) as [Hperm Hsorted].
  rewrite <- Hperm in Hp. apply list_elem_of_lookup in Hp as [k Hk].
  unfold rank_of. rewrite (Hranks k p Hk). cbn.
  rewrite (better_count st (sorted_roster st) k p Hsorted Hk).
  by rewrite Hperm.
Qed.

Lemma rank_is_one_plus_better_players_witness :
  rank_of demo_ranked 12
  = 1 + N.of_nat (length (filter (λ q, isBetter demo_ended q 12 = true)
                            (allPlayers demo_ended))).
Proof.
  apply (rank_is_one_plus_better_players demo_crypto (at_time 50 1200)).
  - vm_compute. reflexivity.
  - apply (bool_decide_unpack _). vm_compute. exact I.
Defined.

Lemma finalize_runs (crypto : Crypto) env st :
  allPlayers st ≠ [] → ended_or_expired env st →
  ∃ st', transact crypto env st FinalizeRanks = (st', Success).
Proof.
  intros Hroster Hgate.
  destruct (sorted_roster_spec st) as [Hperm _].
  destruct (lookup_lt_is_Some_2 (sorted_roster st) 0) as [best Hbest].
  { rewrite Hperm. destruct (allPlayers st); [done | cbn; lia]. }
  unfold transact, dispatch, finalizeRanks.
  rewrite (bind_Ok_l _ _ _ _ _ (game_over_pass env st Hgate)). mfwd.
  change (sort_players (id st) (copy_players (allPlayers st))) with (sorted_roster st).
  unfold index at 1. rewrite Hbest. mfwd. eauto.
Qed.

(** X18: finalizeRanks succeeds whenever the roster is not empty and the game
    is over (ended, or past a deadline that fits a uint256), for any caller.
    It changes the ranks and the event log only; every player on the roster
    gets a rank between 1 and the roster's length, some player gets rank 1,
    and the rank of anybody else is left as it was. *)
Theorem finalizeRanks_succeeds_on_roster (crypto : Crypto) env st :
  allPlayers st ≠ [] → ended_or_expired env st →
  ∃ st', transact crypto env st FinalizeRanks = (st', Success)
         ∧ st' = set_events (events st ++ [RanksFinalized])
                   (set_finalRank (finalRank st') st)
         ∧ (∀ p, p ∈ allPlayers st →
              1 ≤ rank_of st' p ≤ N.of_nat (length (allPlayers st)))
         ∧ (∃ p, p ∈ allPlayers st ∧ rank_of st' p = 1)
         ∧ (∀ p, p ∉ allPlayers st → rank_of st' p = rank_of st p).
Proof.
  intros Hroster Hgate.
  destruct (finalize_runs crypto env st Hroster Hgate) as [st' H].
  exists st'. split; [done |].
  destruct (finalized_state crypto env st st' H)
    as (_ & best & Hbest & Hst' & Hranks & Hrest).
  destruct (sorted_roster_spec st) as [Hperm _].
  split; [rewrite Hst'; reflexivity |]. split; [|split].
  - intros p Hp. rewrite <- Hperm in Hp.
    apply list_elem_of_lookup in Hp as [j Hj].
    unfold rank_of. rewrite (Hranks j p Hj). cbn.
    pose proof (position_rank_pos st _ j p Hj).
    pose proof (position_rank_le st _ j p Hj).
    apply lookup_lt_Some in Hj. rewrite Hperm in Hj. lia.
  - exists best. split.
    + rewrite <- Hperm. by eapply list_elem_of_lookup_2.
    + unfold rank_of. by rewrite (Hranks 0%nat best Hbest).
  - intros p Hp. unfold rank_of. by rewrite (Hrest p Hp).
Qed.

Lemma finalizeRanks_succeeds_on_roster_witness :
  ∃ st', transact demo_crypto (at_time 50 1200) demo_ended FinalizeRanks = (st', Success)
         ∧ ∃ p, p ∈ allPlayers demo_ended ∧ rank_of st' p = 1.
Proof.
  destruct (finalizeRanks_succeeds_on_roster demo_crypto (at_time 50 1200) demo_ended)
    as (st' & Hrun & _ & _ & Hfirst & _).
  { vm_compute. discriminate. }
  { left. vm_compute. reflexivity. }
  exists st'. split; [exact Hrun | exact Hfirst].
Defined.

(** ** The comparator as an order *)

(** X19: isBetter is a strict order on players: irreflexive, asymmetric and
    transitive.  areTied holds of two players exactly when neither is better
    than the other, which is exactly when they have the same score, puzzle
    index and last solve time. *)
Theorem isBetter_is_a_strict_order (st : State) :
  (∀ a, isBetter st a a = false)
  ∧ (∀ a b, isBetter st a b = true → isBetter st b a = false)
  ∧ (∀ a b c, isBetter st a b = true → isBetter st b c = true → isBetter st a c = true)
  ∧ (∀ a b, areTied st a b = true
            ↔ isBetter st a b = false ∧ isBetter st b a = false)
  ∧ (∀ a b, areTied st a b = true ↔ standing st a = standing st b).
Proof.
  split; [apply isBetter_irrefl |]. split; [apply isBetter_asym |].
  split; [apply isBetter_trans |]. split.
  - intros a b. split.
    + intros Ht. split; [by apply tied_not_better |].
      apply tied_not_better. by rewrite areTied_sym.
    + intros [? ?]. by apply not_better_tied.
  - intros a b. rewrite areTied_spec. unfold standing. split.
    + by intros (-> & -> & ->).
    + by intros [= -> -> ->].
Qed.

(** ** Reward tokens *)

Lemma claimNFT_sender_nonzero env st st' :
  claimNFT env st = Ok tt st' → msg_sender env ≠ 0 ∧ receiver_accepts env = true.
Proof. unfold claimNFT, _safeMint. intros H. minv. bool_props. done. Qed.

Lemma step_tokens_are_sequential (crypto : Crypto) env st c st' :
  tokens_are_sequential st →
  transact crypto env st c = (st', Success) → tokens_are_sequential st'.
Proof.
  intros Hinv H. destruct c; try (effect_cases H; exact Hinv);
    destruct Hinv as [Hids Hclaimed].
  - (* submitResult *)
    effect_cases H. split; [exact Hids |]. intros p. rewrite stats_of_submitted.
    change (rank_of (set_events _ _) p) with (rank_of st p).
    case_decide; [subst p | apply Hclaimed]. intros Hc. apply Hclaimed. congruence.
  - (* finalizeRanks *)
    pose proof H as Hstep. effect_cases H. split; [exact Hids |]. intros p Hc.
    match goal with |- 0 < rank_of ?s p =>
      apply (step_rank_pos crypto env st FinalizeRanks s p Hstep) end.
    by apply Hclaimed.
  - (* claimNFT *)
    pose proof (claimNFT_sender_nonzero env st st' (claim_Success crypto env st st' H))
      as [Hme _].
    effect_cases H. split.
    + intros i. unfold ownerOf. cbn. rewrite lookup_insert.
      case_decide; [subst; cbn; split; [lia | done] |].
      fold (ownerOf st i). rewrite Hids. lia.
    + intros p. unfold stats_of at 1. cbn. rewrite lookup_insert.
      change (rank_of (set_events _ _) p) with (rank_of st p).
      case_decide; [by subst | apply Hclaimed].
Qed.

Lemma reachable_tokens_are_sequential (crypto : Crypto) st :
  reachable crypto st → tokens_are_sequential st.
Proof.
  apply (reachable_invariant crypto tokens_are_sequential).
  - intros deployer self uri. split.
    + intros i. unfold ownerOf. cbn. rewrite lookup_empty. cbn. split; [done | lia].
    + intros p. unfold stats_of. cbn. by rewrite lookup_empty.
  - intros env s c s'. apply step_tokens_are_sequential.
Qed.

(** X20: In every reachable state the tokens that exist are exactly those
    numbered 1 to the token counter, and a player whose stats say the token
    was claimed has a rank and is on the roster. *)
Theorem token_ids_are_sequential (crypto : Crypto) st :
  reachable crypto st →
  (∀ i, ownerOf st i ≠ 0 ↔ 1 ≤ i ≤ _tokenIds st)
  ∧ (∀ p, claimedNFT (stats_of st p) = true →
          0 < rank_of st p ∧ p ∈ allPlayers st).
Proof.
  intros Hreach.
  destruct (reachable_tokens_are_sequential crypto st Hreach) as [Hids Hclaimed].
  destruct (reachable_roster_is_exact crypto st Hreach) as (_ & _ & Hout).
  split; [done |]. intros p Hp. specialize (Hclaimed p Hp). split; [done |].
  destruct (decide (p ∈ allPlayers st)) as [?|Hno]; [done |].
  destruct (Hout p Hno) as [_ Hr]. unfold rank_of in Hclaimed.
  rewrite Hr in Hclaimed. cbn in Hclaimed. lia.
Qed.

Lemma token_ids_are_sequential_witness :
  (∀ i, ownerOf demo_claimed i ≠ 0 ↔ 1 ≤ i ≤ _tokenIds demo_claimed)
  ∧ (∀ p, claimedNFT (stats_of demo_claimed p) = true →
          0 < rank_of demo_claimed p ∧ p ∈ allPlayers demo_claimed).
Proof.
  apply (token_ids_are_sequential demo_crypto demo_claimed).
  unfold demo_claimed, demo_ranked. apply reachable_execute, demo_reachable.
Defined.

(** X21: In a reachable state claimNFT succeeds for a non-zero caller that
    accepts the token, has a rank and has not claimed yet, once the game is
    over and as long as the token counter and the caller's balance do not
    overflow; the caller then owns the token numbered one past the old
    counter and is marked as having claimed. *)
Theorem claimNFT_succeeds_for_ranked_player (crypto : Crypto) env st :
  reachable crypto st →
  ended_or_expired env st →
  0 < rank_of st (msg_sender env) →
  claimedNFT (stats_of st (msg_sender env)) = false →
  msg_sender env ≠ 0 →
  receiver_accepts env = true →
  _tokenIds st + 1 ≤ MAX_UINT256 →
  balanceOf st (msg_sender env) + 1 ≤ MAX_UINT256 →
  ∃ st', transact crypto env st ClaimNFT = (st', Success)
         ∧ ownerOf st' (_tokenIds st + 1) = msg_sender env
         ∧ claimedNFT (stats_of st' (msg_sender env)) = true.
Proof.
  intros Hreach Hgate Hrank%N.ltb_lt Hfresh Hme Hrecv Hids Hbal.
  destruct (reachable_tokens_counted crypto st Hreach) as [Hown _].
  assert (Hfree : ownerOf st (_tokenIds st + 1) = 0).
  { destruct (N.eq_dec (ownerOf st (_tokenIds st + 1)) 0) as [?|Hne]; [done |].
    specialize (Hown _ Hne). lia. }
  assert (Hrun : ∃ st', claimNFT env st = Ok tt st').
  { unfold claimNFT.
    rewrite (bind_Ok_l _ _ _ _ _ (game_over_pass env st Hgate)). mfwd.
    rewrite Hrank. mfwd. rewrite Hfresh. cbn [negb]. mfwd.
    unfold _safeMint. mfwd.
    rewrite (bool_decide_eq_false_2 (msg_sender env = 0)) by done. cbn [negb]. mfwd.
    match goal with |- context [bool_decide (ownerOf ?s ?i = 0)] =>
      change (ownerOf s i) with (ownerOf st (_tokenIds st + 1)) end.
    rewrite Hfree. rewrite (bool_decide_eq_true_2 (0 = 0)) by done. mfwd.
    rewrite ?bind_checked_add by done. mfwd.
    rewrite Hrecv. mfwd. eauto. }
  destruct Hrun as [st' Hrun]. exists st'.
  split; [unfold transact, dispatch; by rewrite Hrun |].
  apply claimNFT_Ok in Hrun. cbv zeta in Hrun.
  destruct Hrun as (_ & _ & _ & _ & ->). split.
  - unfold ownerOf. cbn. by rewrite lookup_insert_eq.
  - unfold stats_of. cbn. by rewrite lookup_insert_eq.
Qed.

Lemma claimNFT_succeeds_for_ranked_player_witness :
  ∃ st', transact demo_crypto (at_time 11 1300) demo_ranked ClaimNFT = (st', Success)
         ∧ ownerOf st' (_tokenIds demo_ranked + 1) = msg_sender (at_time 11 1300)
         ∧ claimedNFT (stats_of st' (msg_sender (at_time 11 1300))) = true.
Proof.
  apply (claimNFT_succeeds_for_ranked_player demo_crypto (at_time 11 1300) demo_ranked).
  - apply demo_reachable.
  - left. vm_compute. reflexivity.
  - vm_compute. reflexivity.
  - vm_compute. reflexivity.
  - vm_compute. discriminate.
  - reflexivity.
  - vm_compute. discriminate.
  - vm_compute. discriminate.
Defined.

(** ** The remaining time *)

(** X22: timeLeft returns 0 unless the game is active; for an active game it
    returns the time to the deadline, cut off at 0, and panics with 0x11 when
    start time plus duration overflows.  A positive result means that a
    submission passes onlyWhenActive; the converse fails at the deadline
    itself, where the window is still open while timeLeft is 0. *)
Theorem timeLeft_and_the_submission_window env st :
  (gameState st ≠ ACTIVE → timeLeft env st = Ok 0 st)
  ∧ (gameState st = ACTIVE →
     gameStartTimestamp st + gameDuration st ≤ MAX_UINT256 →
     timeLeft env st
     = Ok (gameStartTimestamp st + gameDuration st - block_timestamp env) st)
  ∧ (gameState st = ACTIVE →
     MAX_UINT256 < gameStartTimestamp st + gameDuration st →
     timeLeft env st = Fail (Panic 17) st)
  ∧ (∀ r st', timeLeft env st = Ok r st' → 0 < r →
       active_in_time env st
       ∧ block_timestamp env < gameStartTimestamp st + gameDuration st)
  ∧ (active_in_time env st →
     block_timestamp env = gameStartTimestamp st + gameDuration st →
     timeLeft env st = Ok 0 st).
Proof.
  assert (Hidle : gameState st ≠ ACTIVE → timeLeft env st = Ok 0 st).
  { intros Hgs. unfold timeLeft. mfwd. by rewrite bool_decide_eq_false_2. }
  assert (Hrun : gameState st = ACTIVE →
                 gameStartTimestamp st + gameDuration st ≤ MAX_UINT256 →
                 timeLeft env st
                 = Ok (gameStartTimestamp st + gameDuration st - block_timestamp env) st).
  { intros Hgs Hfit. unfold timeLeft. mfwd. rewrite bool_decide_eq_true_2 by done.
    cbn [negb]. mfwd.
    destruct (N.leb_spec (gameStartTimestamp st + gameDuration st) (block_timestamp env))
      as [Hle|Hlt].
    - mfwd. f_equal. lia.
    - unfold checked_sub.
      replace (block_timestamp env <=? gameStartTimestamp st + gameDuration st)
        with true by (symmetry; apply N.leb_le; lia).
      done. }
  split; [done |]. split; [done |]. split; [|split].
  - intros Hgs Hover. unfold timeLeft. mfwd. rewrite bool_decide_eq_true_2 by done.
    cbn [negb]. mfwd. unfold checked_add.
    replace (gameStartTimestamp st + gameDuration st <=? MAX_UINT256)
      with false by (symmetry; apply N.leb_gt; lia).
    by mfwd.
  - intros r st' Hr Hpos.
    destruct (decide (gameState st = ACTIVE)) as [Hgs|Hgs].
    + destruct (N.le_gt_cases (gameStartTimestamp st + gameDuration st) MAX_UINT256)
        as [Hfit|Hover].
      * rewrite (Hrun Hgs Hfit) in Hr. injection Hr as <- <-.
        unfold active_in_time. repeat split; [done | lia..].
      * unfold timeLeft in Hr. revert Hr. mfwd. rewrite bool_decide_eq_true_2 by done.
        cbn [negb]. mfwd. unfold checked_add.
        replace (gameStartTimestamp st + gameDuration st <=? MAX_UINT256)
          with false by (symmetry; apply N.leb_gt; lia).
        by mfwd.
    + rewrite (Hidle Hgs) in Hr. injection Hr as <- <-. lia.
  - intros (Hgs & Hfit & _) Hnow. rewrite (Hrun Hgs Hfit). f_equal. lia.
Qed.

(** ** Accepted submissions *)

(** X23: submitResult succeeds whenever the game is active and in time, the
    caller is the relay, the signature recovers to the judge key over the
    attested tuple, the puzzle id is the player's current puzzle index and
    that puzzle is active, provided that, for a correct answer, the new score
    and puzzle index fit a uint256.  A wrong answer needs no such proviso. *)
Theorem submitResult_accepts_valid_attestation (crypto : Crypto) env st player i
    correct t sig :
  active_in_time env st →
  msg_sender env = avsAddress st →
  recover crypto (attested crypto st player i correct t) sig = Some (avsSigner st) →
  i = puzzleIndex (stats_of st player) →
  active (puzzle_of st i) = true →
  (correct = true →
   score (stats_of st player) + (basePoints (puzzle_of st i) + t / 60) ≤ MAX_UINT256
   ∧ puzzleIndex (stats_of st player) + 1 ≤ MAX_UINT256) →
  ∃ st', transact crypto env st (SubmitResult player i correct t sig) = (st', Success).
Proof.
  intros Hgate Hcaller Hsig Hidx Hact Hfit.
  destruct (submitResult_runs crypto env st player i correct t sig
              Hgate Hcaller Hsig Hidx Hact Hfit) as [st' Hrun].
  exists st'. unfold transact, dispatch. by rewrite Hrun.
Qed.

Lemma submitResult_accepts_valid_attestation_witness :
  ∃ st', transact demo_crypto (at_time 2 1010) demo_started
           (SubmitResult 10 0 true 100 (demo_sign 3 100 10 0 true 100))
         = (st', Success).
Proof.
  apply (submitResult_accepts_valid_attestation demo_crypto (at_time 2 1010)
           demo_started 10 0 true 100 (demo_sign 3 100 10 0 true 100)).
  - repeat split; vm_compute; (reflexivity || discriminate).
  - vm_compute. reflexivity.
  - vm_compute. reflexivity.
  - vm_compute. reflexivity.
  - vm_compute. reflexivity.
  - intros _. split; vm_compute; discriminate.
Defined.

(** ** A deadline that does not fit *)

Lemma execute_invariant_on (crypto : Crypto) (Q : Call → Prop) (P : State → Prop)
    st txs :
  (∀ env s c s', Q c → P s → transact crypto env s c = (s', Success) → P s') →
  P st → Forall (λ tx, Q tx.2) txs → P (execute crypto st txs).
Proof.
  intros Hstep. revert st. induction txs as [|[env c] txs IH]; intros st HP HQ; [done |].
  apply Forall_cons in HQ as [Hq HQ]. cbn. apply IH; [|done].
  destruct (transact_cases crypto env st c) as [[st' H]|[f H]]; rewrite H; cbn; eauto.
Qed.

Lemma step_stays_active (crypto : Crypto) env st c st' :
  transact crypto env st c = (st', Success) →
  c ≠ EndGame → gameState st = ACTIVE → gameState st' = ACTIVE.
Proof. intros H Hc Hgs. by effect_cases H. Qed.

Lemma deadline_overflow_panics (crypto : Crypto) env st :
  gameState st = ACTIVE →
  MAX_UINT256 < gameStartTimestamp st + gameDuration st →
  (∀ player i correct t sig,
     transact crypto env st (SubmitResult player i correct t sig)
     = (st, Reverted (Panic 17)))
  ∧ transact crypto env st FinalizeRanks = (st, Reverted (Panic 17))
  ∧ transact crypto env st ClaimNFT = (st, Reverted (Panic 17)).
Proof.
  intros Hgs Hover.
  assert (Hsum : (gameStartTimestamp st + gameDuration st <=? MAX_UINT256) = false)
    by (apply N.leb_gt; lia).
  assert (Hgame : ∃ mid, game_over env st = Fail (Panic 17) mid).
  { unfold game_over. mfwd. rewrite Hgs.
    rewrite (bool_decide_eq_false_2 (ACTIVE = ENDED)) by done. mfwd.
    unfold checked_add. rewrite Hsum. mfwd. eauto. }
  destruct Hgame as [mid Hgame].
  split; [|split].
  - intros player i correct t sig.
    unfold transact, dispatch, submitResult, onlyWhenActive. mfwd.
    rewrite bool_decide_eq_true_2 by done. mfwd.
    unfold checked_add. rewrite Hsum. by mfwd.
  - unfold transact, dispatch, finalizeRanks.
    unfold mbind at 1, M_bind. by rewrite Hgame.
  - unfold transact, dispatch, claimNFT.
    unfold mbind at 1, M_bind. by rewrite Hgame.
Qed.

(** X24: startGame accepts a duration that pushes start time plus duration
    past 2^256 - 1.  Until the owner calls endGame, such a game stays active
    with its roster, stats and ranks unchanged, and every submitResult,
    finalizeRanks and claimNFT reverts with the arithmetic panic 0x11. *)
Theorem overflowing_deadline_blocks_the_game (crypto : Crypto) env st d st' txs :
  transact crypto env st (StartGame d) = (st', Success) →
  MAX_UINT256 < block_timestamp env + d →
  Forall (λ tx, tx.2 ≠ EndGame) txs →
  gameState (execute crypto st' txs) = ACTIVE
  ∧ allPlayers (execute crypto st' txs) = allPlayers st'
  ∧ playerStats (execute crypto st' txs) = playerStats st'
  ∧ finalRank (execute crypto st' txs) = finalRank st'
  ∧ ∀ env2,
      (∀ player i correct t sig,
         transact crypto env2 (execute crypto st' txs)
           (SubmitResult player i correct t sig)
         = (execute crypto st' txs, Reverted (Panic 17)))
      ∧ transact crypto env2 (execute crypto st' txs) FinalizeRanks
        = (execute crypto st' txs, Reverted (Panic 17))
      ∧ transact crypto env2 (execute crypto st' txs) ClaimNFT
        = (execute crypto st' txs, Reverted (Panic 17)).
Proof.
  intros H Hover Hcalls.
  pose (J := λ s, gameState s = ACTIVE
                  ∧ MAX_UINT256 < gameStartTimestamp s + gameDuration s
                  ∧ allPlayers s = allPlayers st'
                  ∧ playerStats s = playerStats st'
                  ∧ finalRank s = finalRank st').
  assert (HJ : J (execute crypto st' txs)).
  { apply (execute_invariant_on crypto (λ c, c ≠ EndGame) J); [| |done].
    - intros e s c s' Hc (Hgs & Hsum & Hroster & Hstats & Hranks) Hstep.
      destruct (deadline_overflow_panics crypto e s Hgs Hsum) as (Hsub & Hfin & Hclaim).
      assert (Hgs' : gameState s' = ACTIVE) by by apply (step_stays_active crypto e s c).
      destruct (step_timeline crypto e s c s' Hstep) as (_ & Hs & Hd & _);
        [by rewrite Hgs |].
      unfold J. rewrite Hs, Hd. split; [done |]. split; [done |].
      destruct c; try (effect_cases Hstep; done).
      + by rewrite Hsub in Hstep.
      + by rewrite Hfin in Hstep.
      + by rewrite Hclaim in Hstep.
    - effect_cases H. unfold J. cbn. repeat split; done. }
  destruct HJ as (Hgs & Hsum & Hroster & Hstats & Hranks).
  repeat split; try done; by apply deadline_overflow_panics.
Qed.

Lemma overflowing_deadline_blocks_the_game_witness :
  transact demo_crypto (at_time 50 2000)
    (execute demo_crypto demo_endless [demo_submit 1010 10 0 true 100]) FinalizeRanks
  = (execute demo_crypto demo_endless [demo_submit 1010 10 0 true 100],
     Reverted (Panic 17)).
Proof.
  destruct (overflowing_deadline_blocks_the_game demo_crypto (at_time 1 1000)
              demo_puzzle_set MAX_UINT256 demo_endless
              [demo_submit 1010 10 0 true 100]) as (_ & _ & _ & _ & Hpanics).
  - vm_compute. reflexivity.
  - vm_compute. reflexivity.
  - constructor; [discriminate | constructor].
  - destruct (Hpanics (at_time 50 2000)) as (_ & Hfin & _). exact Hfin.
Defined.

(** ** The creator role *)

(** X25: setPuzzleCreator succeeds only for the owner and sets the flag of the
    one address given.  After a grant that address can set any puzzle id
    below 2^256 - 1; after a removal its setPuzzleHash calls revert with the
    creator check's reason, unless it is the owner. *)
Theorem creator_role_grant_and_revoke (crypto : Crypto) env st a b st' :
  transact crypto env st (SetPuzzleCreator a b) = (st', Success) →
  msg_sender env = owner st
  ∧ is_creator st' a = b
  ∧ (∀ q, q ≠ a → is_creator st' q = is_creator st q)
  ∧ ∀ env2 i h p,
      msg_sender env2 = a →
      (b = true → i < MAX_UINT256 →
       ∃ st'', transact crypto env2 st' (SetPuzzleHash i h p) = (st'', Success)
               ∧ puzzle_of st'' i = mkPuzzle h p true)
      ∧ (b = false → a ≠ owner st →
         transact crypto env2 st' (SetPuzzleHash i h p)
         = (st', Reverted (Revert "Not a puzzle creator nor owner"))).
Proof.
  intros H. pose proof (transact_guard crypto env st _ st' H) as Hg. cbn in Hg.
  effect_cases H. split; [done |].
  match goal with |- context [is_creator ?s a] => set (s1 := s) end.
  assert (Ha : is_creator s1 a = b).
  { unfold is_creator, s1. cbn. by rewrite lookup_insert_eq. }
  split; [done |]. split.
  { intros q Hq. unfold is_creator, s1. cbn. by rewrite lookup_insert_ne. }
  intros env2 i h p Hme. split.
  - intros -> Hi.
    assert (Hrun : ∃ st'', setPuzzleHash env2 i h p s1 = Ok tt st'').
    { unfold setPuzzleHash, onlyPuzzleCreator. mfwd. change (id s1) with s1.
      rewrite Hme, Ha. cbn [orb]. mfwd.
      destruct (_ <=? i); mfwd.
      - rewrite bind_checked_add by lia. mfwd. eauto.
      - eauto. }
    destruct Hrun as [st'' Hrun]. exists st''.
    split; [unfold transact, dispatch; by rewrite Hrun |].
    apply setPuzzleHash_Ok in Hrun as [_ ->]. unfold puzzle_of. cbn.
    by rewrite lookup_insert_eq.
  - intros -> Howner. unfold transact, dispatch, setPuzzleHash, onlyPuzzleCreator. mfwd.
    change (id s1) with s1. rewrite Hme, Ha. change (owner s1) with (owner st).
    rewrite bool_decide_eq_false_2 by done. cbn [orb]. by mfwd.
Qed.

Lemma creator_role_grant_and_revoke_witness :
  ∃ st'', transact demo_crypto (at_time 7 1001) demo_creator (SetPuzzleHash 3 77 10)
          = (st'', Success)
          ∧ puzzle_of st'' 3 = mkPuzzle 77 10 true.
Proof.
  destruct (creator_role_grant_and_revoke demo_crypto (at_time 1 1000) demo_init 7 true
              demo_creator) as (_ & _ & _ & Hcalls).
  { vm_compute. reflexivity. }
  destruct (Hcalls (at_time 7 1001) 3 77 10 eq_refl) as [Hgrant _].
  apply Hgrant; [reflexivity | vm_compute; reflexivity].
Defined.

(** * The answer judge of the game server *)

Ltac each_char c := destruct c as [[] [] [] [] [] [] [] []]; vm_compute.

Lemma lower_char_alnum c : is_alnum (lower_char c) = is_alnum c.
Proof. by each_char c. Qed.

Lemma lower_char_digit c : is_digit (lower_char c) = is_digit c.
Proof. by each_char c. Qed.

Lemma lower_char_idemp c : lower_char (lower_char c) = lower_char c.
Proof. by each_char c. Qed.

Lemma lower_char_lower_or_digit c :
  is_alnum c = true → is_lower (lower_char c) = true ∨ is_digit (lower_char c) = true.
Proof. each_char c; auto. Qed.

Lemma alnum_not_space c : is_alnum c = true → is_space c = false.
Proof. by each_char c. Qed.

Lemma digit_alnum c : is_digit c = true → is_alnum c = true.
Proof. by each_char c. Qed.

Lemma digit_word c : is_digit c = true → is_word c = true.
Proof. by each_char c. Qed.

Lemma collapse_spaces_none b s :
  Forall (λ c, is_space c = false) s → collapse_spaces b s = s.
Proof.
  intros H. revert b. induction H as [|c s Hc _ IH]; intros b; [done |].
  cbn. by rewrite Hc, IH.
Qed.

Lemma trim_none s : Forall (λ c, is_space c = false) s → trim s = s.
Proof.
  assert (Hstart : ∀ l, Forall (λ c, is_space c = false) l → trim_start l = l).
  { intros l [|c r Hc _]; [done |]. cbn. by rewrite Hc. }
  intros H. unfold trim. rewrite (Hstart s H), Hstart, reverse_involutive; [done |].
  by apply Forall_reverse.
Qed.

Lemma remove_non_alnum_spec s :
  Forall (λ c, is_alnum c = true) (remove_non_alnum s).
Proof. apply Forall_forall. by intros c [? _]%list_elem_of_filter. Qed.

Lemma normalizeAnswer_eq s : normalizeAnswer s = remove_non_alnum (toLowerCase s).
Proof.
  assert (H : Forall (λ c, is_space c = false) (remove_non_alnum (toLowerCase s))).
  { eapply Forall_impl; [apply remove_non_alnum_spec |]. apply alnum_not_space. }
  unfold normalizeAnswer. by rewrite collapse_spaces_none, trim_none.
Qed.

Lemma normalizeAnswer_cons c s :
  normalizeAnswer (c :: s)
  = if is_alnum c then lower_char c :: normalizeAnswer s else normalizeAnswer s.
Proof.
  rewrite !normalizeAnswer_eq. unfold remove_non_alnum, toLowerCase. cbn [map].
  destruct (is_alnum c) eqn:Hc.
  - rewrite filter_cons_True; [done | by rewrite lower_char_alnum].
  - rewrite filter_cons_False; [done | by rewrite lower_char_alnum, Hc].
Qed.

Lemma normalizeAnswer_app s1 s2 :
  normalizeAnswer (s1 ++ s2) = normalizeAnswer s1 ++ normalizeAnswer s2.
Proof.
  induction s1 as [|c s1 IH]; [reflexivity |].
  cbn [app]. rewrite !normalizeAnswer_cons, IH. by destruct (is_alnum c).
Qed.

Lemma normalizeAnswer_idemp s : normalizeAnswer (normalizeAnswer s) = normalizeAnswer s.
Proof.
  induction s as [|c s IH]; [reflexivity |].
  rewrite normalizeAnswer_cons. destruct (is_alnum c) eqn:Hc; [|done].
  by rewrite normalizeAnswer_cons, lower_char_alnum, Hc, lower_char_idemp, IH.
Qed.

Lemma extractNumbers_cons c s :
  extractNumbers (c :: s) = if is_digit c then c :: extractNumbers s else extractNumbers s.
Proof.
  unfold extractNumbers. destruct (is_digit c) eqn:Hc.
  - by rewrite filter_cons_True.
  - rewrite filter_cons_False; [done | by rewrite Hc].
Qed.

Lemma lower_char_digit_id c : is_digit c = true → lower_char c = c.
Proof. by each_char c. Qed.

Lemma not_alnum_not_digit c : is_alnum c = false → is_digit c = false.
Proof. by each_char c. Qed.

Lemma extractNumbers_normalizeAnswer s :
  extractNumbers (normalizeAnswer s) = extractNumbers s.
Proof.
  induction s as [|c s IH]; [reflexivity |].
  rewrite normalizeAnswer_cons, (extractNumbers_cons c). destruct (is_alnum c) eqn:Hc.
  - rewrite extractNumbers_cons, lower_char_digit, IH.
    destruct (is_digit c) eqn:Hd; [|done]. by rewrite lower_char_digit_id.
  - by rewrite (not_alnum_not_digit c Hc).
Qed.

(** X26: normalizeAnswer returns the letters a-z and digits of its input in
    order, lower-cased, and nothing else: since the first replacement already
    removes all white space, the space-collapsing replacement and the trim
    change nothing, and words separated by a space are joined.  The function
    is idempotent and blind to case and to any character that is not an
    ASCII letter or digit. *)
Theorem normalizeAnswer_keeps_letters_and_digits (s : list char) :
  normalizeAnswer s = remove_non_alnum (toLowerCase s)
  ∧ Forall (λ c, is_lower c = true ∨ is_digit c = true) (normalizeAnswer s)
  ∧ normalizeAnswer (normalizeAnswer s) = normalizeAnswer s
  ∧ normalizeAnswer (toLowerCase s) = normalizeAnswer s
  ∧ (∀ s1 c s2, is_alnum c = false →
       normalizeAnswer (s1 ++ c :: s2) = normalizeAnswer (s1 ++ s2))
  ∧ (∀ s1 s2, normalizeAnswer (s1 ++ [SPACE] ++ s2)
              = normalizeAnswer s1 ++ normalizeAnswer s2).
Proof.
  split; [apply normalizeAnswer_eq |]. split; [|split; [apply normalizeAnswer_idemp |]].
  - induction s as [|c s IH]; [by vm_compute |].
    rewrite normalizeAnswer_cons. destruct (is_alnum c) eqn:Hc; [|done].
    constructor; [by apply lower_char_lower_or_digit | done].
  - split; [|split].
    + induction s as [|c s IH]; [done |]. cbn [toLowerCase map].
      fold (toLowerCase s).
      by rewrite !normalizeAnswer_cons, lower_char_alnum, lower_char_idemp, IH.
    + intros s1 c s2 Hc.
      by rewrite !normalizeAnswer_app, normalizeAnswer_cons, Hc.
    + intros s1 s2. by rewrite !normalizeAnswer_app.
Qed.

Lemma extractNumbers_app s1 s2 :
  extractNumbers (s1 ++ s2) = extractNumbers s1 ++ extractNumbers s2.
Proof. apply filter_app. Qed.

Lemma isNumericMatch_spec g s :
  isNumericMatch g s = true
  ↔ extractNumbers g ≠ [] ∧ extractNumbers g = extractNumbers s.
Proof.
  unfold isNumericMatch. cbv zeta.
  rewrite andb_true_iff, negb_true_iff, bool_decide_eq_false, bool_decide_eq_true.
  done.
Qed.

Lemma extractNumbers_nonempty s :
  extractNumbers s ≠ [] ↔ Exists (λ c, is_digit c = true) s.
Proof.
  induction s as [|c s IH]; [by rewrite Exists_nil |].
  rewrite extractNumbers_cons, Exists_cons. destruct (is_digit c) eqn:Hc.
  - split; [auto | done].
  - rewrite IH. split; [auto |]. by intros [?|?].
Qed.

(** X27: isNumericMatch holds exactly when both strings contain the same
    non-empty sequence of digits, where a string's digit sequence
    ([extractNumbers]) is the subsequence of its characters 0-9, in order.
    Hence it is symmetric and transitive, holds of a string and itself
    exactly when the string contains a digit, and ignores every character
    that is not a digit. *)
Theorem isNumericMatch_compares_digit_sequences (g s u : list char) :
  (isNumericMatch g s = true
   ↔ extractNumbers g ≠ [] ∧ extractNumbers g = extractNumbers s)
  ∧ (∀ c, c ∈ extractNumbers g ↔ is_digit c = true ∧ c ∈ g)
  ∧ extractNumbers g `sublist_of` g
  ∧ isNumericMatch g s = isNumericMatch s g
  ∧ (isNumericMatch g s = true → isNumericMatch s u = true → isNumericMatch g u = true)
  ∧ (isNumericMatch g g = true ↔ Exists (λ c, is_digit c = true) g)
  ∧ (∀ g1 c g2, is_digit c = false →
       isNumericMatch (g1 ++ c :: g2) s = isNumericMatch (g1 ++ g2) s)
  ∧ isNumericMatch (extractNumbers g) s = isNumericMatch g s.
Proof.
  split; [apply isNumericMatch_spec |].
  split; [intros c; apply (list_elem_of_filter (λ c, is_digit c = true)) |].
  split; [apply sublist_filter |].
  split; [|split; [|split; [|split]]].
  - apply eq_true_iff_eq. rewrite !isNumericMatch_spec.
    split; intros [Hne Heq]; (split; [congruence | done]).
  - rewrite !isNumericMatch_spec. intros [? ?] [? ?]. split; [done | congruence].
  - rewrite isNumericMatch_spec, <- extractNumbers_nonempty. tauto.
  - intros g1 c g2 Hc. apply eq_true_iff_eq. rewrite !isNumericMatch_spec.
    by rewrite !extractNumbers_app, extractNumbers_cons, Hc.
  - apply eq_true_iff_eq. rewrite !isNumericMatch_spec.
    assert (Hidem : extractNumbers (extractNumbers g) = extractNumbers g).
    { induction g as [|c g IH]; [done |]. rewrite extractNumbers_cons.
      destruct (is_digit c) eqn:Hc; [|done]. by rewrite extractNumbers_cons, Hc, IH. }
    by rewrite Hidem.
Qed.

(** *** Number words *)

Lemma replace_words_word word w :
  Forall (λ c, is_word c = true) w → replace_words word w = replace_word (word ++ w).
Proof.
  intros H. revert word. induction H as [|c w Hc _ IH]; intros word;
    cbn [replace_words].
  - by rewrite app_nil_r.
  - by rewrite Hc, IH, <- app_assoc.
Qed.

Lemma replace_words_split word a c b :
  is_word c = false →
  replace_words word (a ++ c :: b) = replace_words word a ++ c :: replace_words [] b.
Proof.
  intros Hc. revert word. induction a as [|x a IH]; intros word;
    cbn [app replace_words].
  - by rewrite Hc.
  - destruct (is_word x); [apply IH |]. by rewrite IH, <- app_assoc.
Qed.

Lemma number_of_Some table key v :
  number_of table key = Some v → (key, v) ∈ table.
Proof.
  induction table as [|[k v'] table IH]; [done |]. cbn. case_bool_decide.
  - intros [= ->]. subst. constructor.
  - intros Hrest. constructor. by apply IH.
Qed.

Lemma numberWords_spec k v :
  (k, v) ∈ numberWords →
  v ≠ [] ∧ Forall (λ c, is_digit c = true) v ∧ replace_word k = v ∧ replace_word v = v.
Proof.
  revert k v.
  assert (H : Forall (λ kv, kv.2 ≠ [] ∧ Forall (λ c, is_digit c = true) kv.2
                            ∧ replace_word kv.1 = kv.2 ∧ replace_word kv.2 = kv.2)
                numberWords).
  { unfold numberWords.
    repeat (apply Forall_cons; split;
            [split; [done |]; split; [by repeat constructor |]; by vm_compute |]).
    apply Forall_nil_2. }
  intros k v Hin. by apply (proj1 (Forall_forall _ _) H (k, v)).
Qed.

Lemma replace_word_cases w :
  replace_word w = w
  ∨ ∃ v, (toLowerCase w, v) ∈ numberWords ∧ replace_word w = v.
Proof.
  unfold replace_word. destruct (number_of numberWords (toLowerCase w)) as [v|] eqn:Hv.
  - right. exists v. split; [by apply number_of_Some | done].
  - by left.
Qed.

Lemma replace_word_idemp w : replace_word (replace_word w) = replace_word w.
Proof.
  destruct (replace_word_cases w) as [Heq|(v & Hin & ->)]; [by rewrite !Heq |].
  by destruct (numberWords_spec _ _ Hin) as (_ & _ & _ & ?).
Qed.

Lemma replace_word_word w :
  Forall (λ c, is_word c = true) w → Forall (λ c, is_word c = true) (replace_word w).
Proof.
  intros Hw. destruct (replace_word_cases w) as [Heq|(v & Hin & ->)]; [by rewrite Heq |].
  destruct (numberWords_spec _ _ Hin) as (_ & Hd & _).
  eapply Forall_impl; [exact Hd |]. apply digit_word.
Qed.

Lemma replace_words_idemp word s :
  Forall (λ c, is_word c = true) word →
  wordsToNumbers (replace_words word s) = replace_words word s.
Proof.
  revert word. induction s as [|c s IH]; intros word Hword; cbn [replace_words].
  - unfold wordsToNumbers.
    rewrite replace_words_word by by apply replace_word_word.
    apply replace_word_idemp.
  - destruct (is_word c) eqn:Hc.
    + apply IH. apply Forall_app. split; [done |]. by apply Forall_singleton.
    + unfold wordsToNumbers. rewrite replace_words_split by done.
      rewrite replace_words_word by by apply replace_word_word.
      cbn [app]. rewrite replace_word_idemp. do 2 f_equal. by apply IH.
Qed.

(** X28: wordsToNumbers treats the maximal runs of word characters one by
    one and keeps the separators.  A run is replaced only when it spells, in
    any case, one of the 28 number words, and then by that word's non-empty
    digit string; every other run is kept.  The function is idempotent. *)
Theorem wordsToNumbers_replaces_whole_words :
  (∀ w, Forall (λ c, is_word c = true) w → wordsToNumbers w = replace_word w)
  ∧ (∀ a c b, is_word c = false →
       wordsToNumbers (a ++ c :: b) = wordsToNumbers a ++ c :: wordsToNumbers b)
  ∧ (∀ w, replace_word w = w
          ∨ ∃ v, (toLowerCase w, v) ∈ numberWords ∧ replace_word w = v)
  ∧ (∀ k v, (k, v) ∈ numberWords →
       v ≠ [] ∧ Forall (λ c, is_digit c = true) v ∧ replace_word k = v)
  ∧ (∀ s, wordsToNumbers (wordsToNumbers s) = wordsToNumbers s).
Proof.
  split; [|split; [|split; [|split]]].
  - intros w Hw. unfold wordsToNumbers. by rewrite replace_words_word.
  - intros a c b Hc. unfold wordsToNumbers. by apply replace_words_split.
  - apply replace_word_cases.
  - intros k v Hin. destruct (numberWords_spec k v Hin) as (? & ? & ? & _). done.
  - intros s. by apply replace_words_idemp.
Qed.

(** *** The verdict *)

(** X29: For a request with a user name, a guess and a stored solution that
    are not empty, checkAnswer accepts the guess exactly when guess and
    solution have the same normal form, or contain, after number words are
    rewritten, the same non-empty sequence of digits, whatever else they
    contain.  An accepted guess is answered with the fixed praise; a rejected
    one with a message that quotes the stored solution and the guess. *)
Theorem checkAnswer_accepts_equal_digits (sols : gmap N (list char))
    (u g sol : list char) (id : N) :
  u ≠ [] → g ≠ [] → sol ≠ [] → sols !! id = Some sol →
  (reply_correct (checkAnswer sols (Some u) (Some id) (Some g)) = true
   ↔ normalizeAnswer (wordsToNumbers g) = normalizeAnswer (wordsToNumbers sol)
     ∨ (extractNumbers (wordsToNumbers g) ≠ []
        ∧ extractNumbers (wordsToNumbers g) = extractNumbers (wordsToNumbers sol)))
  ∧ (reply_correct (checkAnswer sols (Some u) (Some id) (Some g)) = true →
     reply_message (checkAnswer sols (Some u) (Some id) (Some g)) = str "Nice job!")
  ∧ (reply_correct (checkAnswer sols (Some u) (Some id) (Some g)) = false →
     reply_message (checkAnswer sols (Some u) (Some id) (Some g))
     = str "Try again. Need: " ++ sol ++ str " (You said: " ++ g ++ str ")").
Proof.
  intros Hu Hg Hsol Hid. unfold checkAnswer. rewrite Hid.
  destruct u as [|u0 u]; [done |]. destruct g as [|g0 g]; [done |].
  destruct sol as [|s0 sol]; [done |]. cbv zeta.
  set (cg := normalizeAnswer (wordsToNumbers (g0 :: g))).
  set (cs := normalizeAnswer (wordsToNumbers (s0 :: sol))).
  assert (Hnum : isNumericMatch cg cs = true
                 ↔ extractNumbers (wordsToNumbers (g0 :: g)) ≠ []
                   ∧ extractNumbers (wordsToNumbers (g0 :: g))
                     = extractNumbers (wordsToNumbers (s0 :: sol))).
  { rewrite isNumericMatch_spec. unfold cg, cs.
    by rewrite !extractNumbers_normalizeAnswer. }
  case_bool_decide as Heq; cbn [negb andb].
  - cbn. split; [|done]. split; auto.
  - destruct (isNumericMatch cg cs) eqn:Hm; cbn.
    + split; [|done]. split; [|done]. intros _. right. by apply Hnum.
    + split; [|done]. split; [done |]. intros [?|Hd]; [done |].
      apply Hnum in Hd. congruence.
Qed.

Lemma checkAnswer_accepts_equal_digits_witness :
  reply_correct
    (checkAnswer {[ 0 := str "42 apples" ]} (Some (str "ann")) (Some 0)
       (Some (str "4 and 2")))
  = true.
Proof.
  apply (checkAnswer_accepts_equal_digits {[ 0 := str "42 apples" ]}
           (str "ann") (str "4 and 2") (str "42 apples") 0);
    [discriminate | discriminate | discriminate | reflexivity |].
  right. split; [discriminate | reflexivity].
Defined.
